(** * llol: sweep grid, IMU preintegration and GICP cost

    A shallow embedding of
      - src/sv/llol/imu.cpp      (modules [Imu] and [ImuInit]),
      - src/unnamed/part_000     (an earlier imu.cpp, module [ImuEarly]),
      - src/unnamed/part_001     (grid.cpp, modules [Grid] and [GridPoses]),
      - src/sv/llol/cost.cpp     (modules [Cost] and [LinearUpdate]),
      - src/unnamed/part_002     (the timer, module [Timer]).

    Modelling conventions.
      - [int] is [Z] (no value in the modelled paths comes near 2^31);
        sizes and buffer offsets are [nat].
      - [double] is an exact real number [R]: Eigen and Sophus arithmetic is
        read as the real arithmetic it approximates, rounding is not
        modelled; the [float] poses of the grid are read the same way.
      - the grid's [float] score image keeps its IEEE values (NaN, signed
        zeros and infinities) as [spec_float], because the filter relies on
        the way NaN compares.
      - a glog [CHECK] that fails ends the process; [vector::at] out of range
        throws; [operator[]] out of range and a null dereference are
        undefined.  All three are results of type [outcome]. *)

From Stdlib Require Import ZArith List Bool Reals Lra Lia SpecFloat FinFun.
Import ListNotations.

Set Implicit Arguments.

(* ------------------------------------------------------------------ *)
(** * Ways a call can end *)

Inductive fault : Type :=
| CheckFailed   (* glog CHECK / CHECK_xx: LOG(FATAL), the process aborts *)
| OutOfRange    (* std::vector::at throws std::out_of_range *)
| Undefined.    (* operator[] past the end, null dereference, front() of an empty vector *)

Inductive outcome (A : Type) : Type :=
| Returns (a : A)
| Aborts (f : fault).

Arguments Returns {A} a.
Arguments Aborts {A} f.

Definition bind {A B : Type} (m : outcome A) (k : A -> outcome B) : outcome B :=
  match m with
  | Returns a => k a
  | Aborts f => Aborts f
  end.

Notation "x <- m ;; k" := (bind m (fun x => k))
  (at level 61, m at next level, right associativity).
Notation "' p <- m ;; k" := (bind m (fun p => k))
  (at level 61, p pattern, m at next level, right associativity).

(** [CHECK(b)] *)
Definition CHECK (b : bool) : outcome unit :=
  if b then Returns tt else Aborts CheckFailed.

(** [v.at(i)] *)
Definition vec_at {A : Type} (v : list A) (i : Z) : outcome A :=
  if (i <? 0)%Z then Aborts OutOfRange
  else match nth_error v (Z.to_nat i) with
       | Some a => Returns a
       | None => Aborts OutOfRange
       end.

(** [v[i]] *)
Definition vec_idx {A : Type} (v : list A) (i : Z) : outcome A :=
  if (i <? 0)%Z then Aborts Undefined
  else match nth_error v (Z.to_nat i) with
       | Some a => Returns a
       | None => Aborts Undefined
       end.

(** [v.front()], [v.back()] *)
Definition vec_front {A : Type} (v : list A) : outcome A :=
  match v with
  | a :: _ => Returns a
  | [] => Aborts Undefined
  end.

Definition vec_back {A : Type} (v : list A) : outcome A :=
  vec_front (rev v).

(** [v[i] = a] for an index known to be in range; writes nothing otherwise *)
Fixpoint list_set {A : Type} (v : list A) (i : nat) (a : A) : list A :=
  match v, i with
  | [], _ => []
  | _ :: t, O => a :: t
  | h :: t, S j => h :: list_set t j a
  end.

(** real comparisons as booleans *)
Definition Rltb (a b : R) : bool := if Rlt_dec a b then true else false.
Definition Rleb (a b : R) : bool := if Rle_dec a b then true else false.

(* ------------------------------------------------------------------ *)
(** * Eigen: fixed 3-vectors and 3x3 matrices, dense buffers *)

Module Eigen.
Open Scope R_scope.

Record Vector3d : Type := mkV3 { vx : R; vy : R; vz : R }.
Record Matrix3d : Type := mkM3 { row0 : Vector3d; row1 : Vector3d; row2 : Vector3d }.

Definition v3_zero : Vector3d := mkV3 0 0 0.
Definition v3_add (a b : Vector3d) := mkV3 (vx a + vx b) (vy a + vy b) (vz a + vz b).
Definition v3_sub (a b : Vector3d) := mkV3 (vx a - vx b) (vy a - vy b) (vz a - vz b).
Definition v3_scale (s : R) (a : Vector3d) := mkV3 (s * vx a) (s * vy a) (s * vz a).
Definition v3_div (a : Vector3d) (s : R) := mkV3 (vx a / s) (vy a / s) (vz a / s).
Definition v3_dot (a b : Vector3d) : R := vx a * vx b + vy a * vy b + vz a * vz b.

Definition v3_at (a : Vector3d) (i : nat) : R :=
  match i with O => vx a | 1%nat => vy a | _ => vz a end.

Definition m3_row (m : Matrix3d) (i : nat) : Vector3d :=
  match i with O => row0 m | 1%nat => row1 m | _ => row2 m end.
Definition m3_at (m : Matrix3d) (i j : nat) : R := v3_at (m3_row m i) j.
Definition m3_col (m : Matrix3d) (j : nat) : Vector3d :=
  mkV3 (m3_at m 0 j) (m3_at m 1 j) (m3_at m 2 j).

Definition m3_ident : Matrix3d := mkM3 (mkV3 1 0 0) (mkV3 0 1 0) (mkV3 0 0 1).
Definition m3_zero : Matrix3d := mkM3 v3_zero v3_zero v3_zero.
Definition m3_map (f : Vector3d -> Vector3d) (m : Matrix3d) :=
  mkM3 (f (row0 m)) (f (row1 m)) (f (row2 m)).
Definition m3_scale (s : R) (m : Matrix3d) := m3_map (v3_scale s) m.
Definition m3_neg (m : Matrix3d) := m3_scale (-1) m.
Definition m3_add (a b : Matrix3d) :=
  mkM3 (v3_add (row0 a) (row0 b)) (v3_add (row1 a) (row1 b)) (v3_add (row2 a) (row2 b)).
Definition m3_transpose (m : Matrix3d) := mkM3 (m3_col m 0) (m3_col m 1) (m3_col m 2).
Definition m3_mulv (m : Matrix3d) (v : Vector3d) : Vector3d :=
  mkV3 (v3_dot (row0 m) v) (v3_dot (row1 m) v) (v3_dot (row2 m) v).
Definition m3_mul (a b : Matrix3d) : Matrix3d :=
  m3_map (fun r => mkV3 (v3_dot r (m3_col b 0)) (v3_dot r (m3_col b 1)) (v3_dot r (m3_col b 2))) a.

(** [Hat3] of sv/util/math.h: the cross-product matrix of a vector *)
Definition Hat3 (w : Vector3d) : Matrix3d :=
  mkM3 (mkV3 0 (- vz w) (vy w))
       (mkV3 (vz w) 0 (- vx w))
       (mkV3 (- vy w) (vx w) 0).

(** A raw [double*] seen as a vector, and as a matrix ([Eigen::Map]) *)
Definition VectorXd : Type := nat -> R.
Definition MatrixXd : Type := nat -> nat -> R.

Definition in_rg (lo len i : nat) : bool := (lo <=? i)%nat && (i <? lo + len)%nat.

(** [Eigen::Map<Vector3d> r(ptr + off); r = v] *)
Definition set_seg3 (r : VectorXd) (off : nat) (v : Vector3d) : VectorXd :=
  fun k => if in_rg off 3 k then v3_at v (k - off) else r k.
Definition get_seg3 (r : VectorXd) (off : nat) : Vector3d :=
  mkV3 (r off) (r (off + 1)%nat) (r (off + 2)%nat).

(** [J.block<3, 3>(row, col) = b] *)
Definition set_block3 (J : MatrixXd) (row col : nat) (b : Matrix3d) : MatrixXd :=
  fun i j => if in_rg row 3 i && in_rg col 3 j then m3_at b (i - row) (j - col) else J i j.
Definition get_block3 (J : MatrixXd) (row col : nat) : Matrix3d :=
  let r (i : nat) :=
    mkV3 (J (row + i)%nat col) (J (row + i)%nat (col + 1)%nat) (J (row + i)%nat (col + 2)%nat) in
  mkM3 (r 0%nat) (r 1%nat) (r 2%nat).

(** finite sums, products and transposes of square matrices of a given size *)
Fixpoint sum_n (n : nat) (f : nat -> R) : R :=
  match n with
  | O => 0
  | S k => sum_n k f + f k
  end.
Definition mat_mul (n : nat) (a b : MatrixXd) : MatrixXd :=
  fun i j => sum_n n (fun k => a i k * b k j).
Definition mat_transpose (a : MatrixXd) : MatrixXd := fun i j => a j i.
Definition mat_scale (a : MatrixXd) (s : R) : MatrixXd := fun i j => a i j * s.
Definition mat_ident : MatrixXd := fun i j => if (i =? j)%nat then 1 else 0.
Definition mat_zero : MatrixXd := fun _ _ => 0.

End Eigen.
Import Eigen.

(* ------------------------------------------------------------------ *)
(** * Sophus: the rotation group, as the interface the code uses

    Sophus is a library outside the repository; the code is embedded over
    its operations, and the one law a proof needs is stated where it is
    used. *)

Module Sophus.
Open Scope R_scope.

Class SO3Ops : Type := {
  SO3d : Type;
  so3_ident : SO3d;                        (* SO3d{} *)
  so3_mul : SO3d -> SO3d -> SO3d;          (* R1 * R2 *)
  so3_inverse : SO3d -> SO3d;              (* R.inverse() *)
  so3_exp : Vector3d -> SO3d;              (* SO3d::exp(w) *)
  so3_log : SO3d -> Vector3d;              (* R.log() *)
  so3_act : SO3d -> Vector3d -> Vector3d;  (* R * v *)
  so3_matrix : SO3d -> Matrix3d            (* R.matrix() *)
}.

Record SE3d `{SO3Ops} : Type := mkSE3 { so3 : SO3d; translation : Vector3d }.
Arguments mkSE3 {_} so3 translation.

(** [T * p] *)
Definition se3_act `{SO3Ops} (T : SE3d) (p : Vector3d) : Vector3d :=
  v3_add (so3_act (so3 T) p) (translation T).

(** The exponential at zero leaves every point where it is. *)
Definition exp_zero_fixes `{SO3Ops} : Prop :=
  forall v, so3_act (so3_exp v3_zero) v = v.

(** Rotation matrices over the reals, with Rodrigues' formula for [exp]. *)
Definition rodrigues (w : Vector3d) : Matrix3d :=
  let th2 := v3_dot w w in
  let th := sqrt th2 in
  let A := if Req_dec_T th 0 then 1 else sin th / th in
  let B := if Req_dec_T th 0 then / 2 else (1 - cos th) / th2 in
  m3_add m3_ident (m3_add (m3_scale A (Hat3 w)) (m3_scale B (m3_mul (Hat3 w) (Hat3 w)))).

Definition rot_log (m : Matrix3d) : Vector3d :=
  let th := acos ((m3_at m 0 0 + m3_at m 1 1 + m3_at m 2 2 - 1) / 2) in
  let k := if Req_dec_T th 0 then / 2 else th / (2 * sin th) in
  v3_scale k (mkV3 (m3_at m 2 1 - m3_at m 1 2)
                   (m3_at m 0 2 - m3_at m 2 0)
                   (m3_at m 1 0 - m3_at m 0 1)).

#[export] Instance RotationMatrix : SO3Ops := {
  SO3d := Matrix3d;
  so3_ident := m3_ident;
  so3_mul := m3_mul;
  so3_inverse := m3_transpose;
  so3_exp := rodrigues;
  so3_log := rot_log;
  so3_act := m3_mulv;
  so3_matrix := fun m => m
}.

End Sophus.
Import Sophus.

(* ------------------------------------------------------------------ *)
(** * Numerical routines taken as given

    [Eigen::Matrix::inverse] is library code and [MatrixSqrtUtU] lives in
    sv/util/math.h, which is not among the sources; no property below
    depends on what they compute. *)

Class Numerics : Type := {
  mat_inverse : MatrixXd -> MatrixXd;    (* P.inverse() *)
  MatrixSqrtUtU : MatrixXd -> MatrixXd   (* upper-triangular U with U^T U = A *)
}.

(** An instance that is exact on diagonal matrices. *)
#[export] Instance DiagonalNumerics : Numerics := {
  mat_inverse := fun m i j => if (i =? j)%nat then (/ m i i)%R else 0%R;
  MatrixSqrtUtU := fun m i j => if (i =? j)%nat then sqrt (m i i) else 0%R
}.

(* ------------------------------------------------------------------ *)
(** * src/sv/llol/imu.cpp *)

Module Imu.
Section WithSophus.
Context {so3ops : SO3Ops} {numerics : Numerics}.
Open Scope R_scope.

Definition Sq (x : R) : R := x * x.

(** [v * s], a vector times a scalar as the code writes it *)
Definition v3_muls (v : Vector3d) (s : R) : Vector3d := mkV3 (vx v * s) (vy v * s) (vz v * s).

Record ImuBias : Type := mkImuBias { bias_acc : Vector3d; bias_gyr : Vector3d }.

Record ImuData : Type := mkImuData { imu_time : R; acc : Vector3d; gyr : Vector3d }.

(** Modelled from the spec: [ImuData::DeBiased] is declared in
    sv/llol/imu.h, which is not among the sources.  The spec calls its
    result "the de-biased gyro": the biases are subtracted from the two
    measurements and the time stamp is kept. *)
Definition DeBiased (d : ImuData) (b : ImuBias) : ImuData :=
  mkImuData (imu_time d) (v3_sub (acc d) (bias_acc b)) (v3_sub (gyr d) (bias_gyr b)).

Record NavState : Type := mkNavState {
  time : R;
  rot : SO3d;
  pos : Vector3d;
  vel : Vector3d
}.

(** [ImuNoise::sigma2], twelve variances: acc noise, gyro noise, acc bias, gyro bias *)
Record ImuNoise : Type := mkImuNoise { sigma2 : VectorXd }.

(** Modelled from the spec: [ImuNoise::kDim] and the offsets of the four
    segments are declared in sv/llol/imu.h, which is not among the sources.
    The constructor fills four segments of three, part_000 writes the
    noise line of [Integrate] with the literal [tail<12>()], and the spec
    adds the noise to "the tail-12 diagonal entries". *)
Definition kDim : nat := 12.
Definition NA : nat := 0.
Definition NW : nat := 3.
Definition NBA : nat := 6.
Definition NBW : nat := 9.

(** [ImuNoise::ImuNoise] *)
Definition ImuNoise_ctor (dt acc_noise gyr_noise acc_bias_noise gyr_bias_noise : R)
  : outcome ImuNoise :=
  _ <- CHECK (Rltb 0 dt) ;;
  Returns (mkImuNoise (fun k =>
    if in_rg NA 3 k then Sq acc_noise / dt
    else if in_rg NW 3 k then Sq gyr_noise / dt
    else if in_rg NBA 3 k then Sq acc_bias_noise * dt
    else if in_rg NBW 3 k then Sq gyr_bias_noise * dt
    else 0)).

Record ImuTrajectory : Type := mkImuTrajectory {
  buf : list ImuData;          (* ImuBuffer *)
  states : list NavState;
  bias : ImuBias;
  noise : ImuNoise;
  gravity : Vector3d;
  T_imu_lidar : SE3d;
  T_init_pano : SE3d
}.

(** Modelled from the spec: [ImuTrajectory::ImuAt] is declared in
    sv/llol/imu.h, which is not among the sources; the queue offers
    "integer index access", read here as [buf.at(i)]. *)
Definition ImuAt (traj : ImuTrajectory) (i : Z) : outcome ImuData := vec_at (buf traj) i.

(** [IntegrateRot] *)
Definition IntegrateRot (R0 : SO3d) (omg : Vector3d) (dt : R) : outcome SO3d :=
  _ <- CHECK (Rltb 0 dt) ;;
  Returns (so3_mul R0 (so3_exp (v3_scale dt omg))).

(** [FindNextImu]: index of the first sample with [time > t], or -1 *)
Fixpoint FindNextImu_from (b : list ImuData) (t : R) (i : Z) : Z :=
  match b with
  | [] => (-1)%Z
  | d :: rest => if Rltb t (imu_time d) then i else FindNextImu_from rest t (i + 1)%Z
  end.

Definition FindNextImu (b : list ImuData) (t : R) : Z := FindNextImu_from b t 0%Z.

Definition set_time (s : NavState) (t : R) : NavState := mkNavState t (rot s) (pos s) (vel s).

Definition set_states (traj : ImuTrajectory) (ss : list NavState) : ImuTrajectory :=
  mkImuTrajectory (buf traj) ss (bias traj) (noise traj) (gravity traj)
                  (T_imu_lidar traj) (T_init_pano traj).

(** The body of the [for] loop of [ImuTrajectory::Predict], for cell [i]. *)
Definition Predict_step (traj : ImuTrajectory) (t0 dt : R) (i : Z)
           (st : Z * list NavState) : outcome (Z * list NavState) :=
  let '(ibuf, ss) := st in
  let ti := t0 + dt * IZR i in
  (* increment ibuf if it is earlier than current cell time *)
  d <- vec_idx (buf traj) ibuf ;;
  let ibuf := if Rltb (imu_time d) ti then (ibuf + 1)%Z else ibuf in
  (* make sure it is always valid *)
  let ibuf := if (Z.of_nat (length (buf traj)) <=? ibuf)%Z
              then (Z.of_nat (length (buf traj)) - 1)%Z else ibuf in
  d <- ImuAt traj ibuf ;;
  let imu := DeBiased d (bias traj) in
  prev <- vec_at ss (i - 1) ;;
  curr <- vec_at ss i ;;
  s0 <- vec_idx ss 0 ;;
  let curr := mkNavState (time prev + dt) (so3_mul (rot prev) (so3_exp (v3_muls (gyr imu) dt)))
                         (pos s0) (vel curr) in
  Returns (ibuf, list_set ss (Z.to_nat i) curr).

(** [for (int i = 1; i < states.size(); ++i)], [k] cells still to visit *)
Fixpoint Predict_loop (traj : ImuTrajectory) (t0 dt : R) (k : nat) (i : Z)
         (st : Z * list NavState) : outcome (Z * list NavState) :=
  match k with
  | O => Returns st
  | S k' => st' <- Predict_step traj t0 dt i st ;;
            Predict_loop traj t0 dt k' (i + 1)%Z st'
  end.

(** [ImuTrajectory::Predict] *)
Definition Predict (traj : ImuTrajectory) (t0 dt : R) : outcome (ImuTrajectory * Z) :=
  let ibuf := FindNextImu (buf traj) t0 in
  _ <- CHECK (0 <=? ibuf)%Z ;;
  (*  if (ibuf < 0) return 0;  // no valid imu found *)
  let ibuf0 := ibuf in
  s0 <- vec_at (states traj) 0 ;;
  let ss := list_set (states traj) 0 (set_time s0 t0) in
  '(ibuf, ss) <- Predict_loop traj t0 dt (length ss - 1) 1%Z (ibuf, ss) ;;
  Returns (set_states traj ss, (ibuf - ibuf0 + 1)%Z).

(** ** Preintegration *)

Record ImuPreintegration : Type := mkImuPreintegration {
  duration : R;
  n : Z;
  F : MatrixXd;       (* 15 x 15 *)
  P : MatrixXd;       (* 15 x 15 *)
  alpha : Vector3d;
  beta : Vector3d;
  gamma : SO3d;
  U : MatrixXd        (* 15 x 15 *)
}.

(** Modelled from the spec: [ImuPreintegration::Index] is declared in
    sv/llol/imu.h, which is not among the sources; the spec's layout of the
    rows and columns of F and P is alpha 0, beta 3, theta 6, b_a 9, b_w 12. *)
Definition ALPHA : nat := 0.
Definition BETA : nat := 3.
Definition THETA : nat := 6.
Definition BA : nat := 9.
Definition BW : nat := 12.
Definition kFullDim : nat := 15.

(** [P.diagonal().tail<ImuNoise::kDim>() += noise.sigma2] *)
Definition add_diag_tail (Pm : MatrixXd) (s : VectorXd) : MatrixXd :=
  fun i j => if (i =? j)%nat && in_rg (kFullDim - kDim) kDim i
             then Pm i j + s (i - (kFullDim - kDim))%nat else Pm i j.

(** The five block assignments to [F] in [Integrate]. *)
Definition F_update (Fm : MatrixXd) (Rmat : Matrix3d) (a w : Vector3d) : MatrixXd :=
  let F1 := set_block3 Fm ALPHA BETA m3_ident in
  let F2 := set_block3 F1 BETA THETA (m3_mul (m3_neg Rmat) (Hat3 a)) in
  let F3 := set_block3 F2 BETA BA (m3_neg Rmat) in
  let F4 := set_block3 F3 THETA THETA (m3_neg (Hat3 w)) in
  set_block3 F4 THETA BW (m3_neg m3_ident).

(** [ImuPreintegration::Integrate] *)
Definition Integrate (p : ImuPreintegration) (dt : R) (imu : ImuData) (nz : ImuNoise)
  : outcome ImuPreintegration :=
  _ <- CHECK (Rltb 0 dt) ;;
  let dt2 := Sq dt in
  let a := acc imu in
  let w := gyr imu in
  let ga := so3_act (gamma p) a in
  (* vins-mono eq 7 *)
  let dgamma := so3_exp (v3_muls w dt) in
  let dbeta := v3_muls ga dt in
  let dalpha := v3_add (v3_muls (beta p) dt) (v3_muls (v3_muls ga dt2) 0.5) in
  (* vins-mono eq 9 *)
  let Rmat := so3_matrix (gamma p) in
  let F' := F_update (F p) Rmat a w in
  (* vins-mono eq 10 *)
  let P1 := mat_scale (mat_mul kFullDim (mat_mul kFullDim F' (P p)) (mat_transpose F')) dt2 in
  let P' := add_diag_tail P1 (sigma2 nz) in
  Returns (mkImuPreintegration (duration p + dt) (n p + 1)%Z F' P'
             (v3_add (alpha p) dalpha) (v3_add (beta p) dbeta)
             (so3_mul (gamma p) dgamma) (U p)).

(** [ImuPreintegration::Reset] *)
Definition Reset (p : ImuPreintegration) : ImuPreintegration :=
  mkImuPreintegration 0 0%Z mat_ident mat_zero v3_zero v3_zero so3_ident (U p).

(** The [while (true)] loop of [Compute].  [ibuf] only ever moves one
    sample forward, so the loop is a recursion on the samples from [ibuf0]
    on: the head is [ImuAt(ibuf)], the next element [ImuAt(ibuf + 1)], and
    [ibuf + 1 == buf.size()] is an empty tail.  The result carries the
    sample the loop stopped at. *)
Fixpoint Compute_loop (b : ImuBias) (nz : ImuNoise) (t1 : R) (samples : list ImuData)
         (p : ImuPreintegration) (t : R) : outcome (ImuPreintegration * ImuData) :=
  match samples with
  | [] => Aborts OutOfRange
  | d :: rest =>
      (* This imu must exist *)
      let imu := DeBiased d b in
      p <- Integrate p (imu_time imu - t) imu nz ;;
      let t := imu_time imu in
      match rest with
      | [] => Returns (p, d)                         (* we are at the last imu *)
      | d1 :: _ =>
          if Rleb t1 (imu_time d1) then Returns (p, d) (* next imu time is later than t1 *)
          else Compute_loop b nz t1 rest p t
      end
  end.

Definition set_U (p : ImuPreintegration) (u : MatrixXd) : ImuPreintegration :=
  mkImuPreintegration (duration p) (n p) (F p) (P p) (alpha p) (beta p) (gamma p) u.

(** [ImuPreintegration::Compute], from the point where [t0] and [t1] are
    known: everything it does with the buffer, the bias and the noise. *)
Definition Compute_between (p : ImuPreintegration) (b : list ImuData) (bs : ImuBias)
           (nz : ImuNoise) (t0 t1 : R) : outcome (ImuPreintegration * Z) :=
  _ <- CHECK (Rltb t0 t1) ;;
  let ibuf0 := FindNextImu b t0 in
  _ <- CHECK (0 <=? ibuf0)%Z ;;
  (* Keep integrate till we reach either the last imu or one right before t1 *)
  '(p, d) <- Compute_loop bs nz t1 (skipn (Z.to_nat ibuf0) b) p t0 ;;
  (* Use the imu at ibuf to finish integrating to t1 *)
  let imu := DeBiased d bs in
  p <- Integrate p (t1 - imu_time imu) imu nz ;;
  (* Compute sqrt info *)
  let p := set_U p (MatrixSqrtUtU (mat_inverse (P p))) in
  Returns (p, n p).

(** [ImuPreintegration::Compute] *)
Definition Compute (p : ImuPreintegration) (traj : ImuTrajectory)
  : outcome (ImuPreintegration * Z) :=
  st0 <- vec_front (states traj) ;;
  st1 <- vec_back (states traj) ;;
  Compute_between p (buf traj) (bias traj) (noise traj) (time st0) (time st1).

End WithSophus.
End Imu.

(* ------------------------------------------------------------------ *)
(** * src/unnamed/part_000: the earlier imu.cpp

    Only [ImuTrajectory::Predict] differs in a way that matters below: the
    trajectory is a vector of poses [traj], and a missing sample is
    answered by [return 0] instead of a [CHECK]. *)

Module ImuEarly.
Section WithSophus.
Context {so3ops : SO3Ops}.
Open Scope R_scope.

Import Imu.

Record ImuTrajectory : Type := mkImuTrajectory {
  buf : list ImuData;
  traj : list SE3d;
  states : list NavState;
  T_imu_lidar : SE3d
}.

Definition set_traj (tr : ImuTrajectory) (ps : list SE3d) : ImuTrajectory :=
  mkImuTrajectory (buf tr) ps (states tr) (T_imu_lidar tr).

(** [FindNextImu], the same function as in imu.cpp *)
Definition FindNextImu (b : list ImuData) (t : R) : Z := Imu.FindNextImu b t.

(** The body of the [for] loop, for pose [i]. *)
Definition Predict_step (tr : ImuTrajectory) (t0 dt : R) (i : Z)
           (st : Z * list SE3d) : outcome (Z * list SE3d) :=
  let '(ibuf, ps) := st in
  let ti := t0 + dt * IZR i in
  (* increment ibuf if it is earlier than current cell time *)
  d <- vec_idx (buf tr) ibuf ;;
  let ibuf := if Rltb (imu_time d) ti then (ibuf + 1)%Z else ibuf in
  (* make sure it is always valid *)
  let ibuf := if (Z.of_nat (length (buf tr)) <=? ibuf)%Z
              then (Z.of_nat (length (buf tr)) - 1)%Z else ibuf in
  imu <- vec_at (buf tr) ibuf ;;
  (* Transform gyr to lidar frame *)
  let gyr_l := so3_act (so3_inverse (so3 (T_imu_lidar tr))) (gyr imu) in
  let omg_l := v3_scale dt gyr_l in
  Ti <- vec_at ps i ;;
  T0 <- vec_at ps 0 ;;
  let ps := list_set ps (Z.to_nat i) (mkSE3 (so3 Ti) (translation T0)) in
  Ti <- vec_at ps i ;;
  Tp <- vec_at ps (i - 1) ;;
  let ps := list_set ps (Z.to_nat i)
                     (mkSE3 (so3_mul (so3 Tp) (so3_exp omg_l)) (translation Ti)) in
  Returns (ibuf, ps).

Fixpoint Predict_loop (tr : ImuTrajectory) (t0 dt : R) (k : nat) (i : Z)
         (st : Z * list SE3d) : outcome (Z * list SE3d) :=
  match k with
  | O => Returns st
  | S k' => st' <- Predict_step tr t0 dt i st ;;
            Predict_loop tr t0 dt k' (i + 1)%Z st'
  end.

(** [ImuTrajectory::Predict] *)
Definition Predict (tr : ImuTrajectory) (t0 dt : R) : outcome (ImuTrajectory * Z) :=
  let ibuf := FindNextImu (buf tr) t0 in
  if (ibuf <? 0)%Z then Returns (tr, 0%Z)   (* no valid imu found *)
  else
    let ibuf0 := ibuf in
    '(ibuf, ps) <- Predict_loop tr t0 dt (length (traj tr) - 1) 1%Z (ibuf, traj tr) ;;
    Returns (set_traj tr ps, (ibuf - ibuf0 + 1)%Z).

End WithSophus.
End ImuEarly.

(* ------------------------------------------------------------------ *)
(** * src/unnamed/part_001: grid.cpp *)

Module Grid.
Open Scope Z_scope.

(** OpenCV value types *)
Record Point : Type := mkPoint { px_x : Z; px_y : Z }.
Record Size : Type := mkSize { width : Z; height : Z }.
Record Range : Type := mkRange { rg_start : Z; rg_end : Z }.

Definition Range_size (rg : Range) : Z := rg_end rg - rg_start rg.

(** Modelled from the spec: [cv::Range / int] and [cv::Size / cv::Size]
    are operators of sv/util/ocv.h, which is not among the sources.  The
    spec's score image has "size = sweep/cell" and its column range counts
    cells, so both sides, resp. both ends, are divided, the way C++ divides
    [int]s. *)
Definition Range_div (rg : Range) (d : Z) : Range :=
  mkRange (Z.quot (rg_start rg) d) (Z.quot (rg_end rg) d).
Definition Size_div (a b : Size) : Size :=
  mkSize (Z.quot (width a) (width b)) (Z.quot (height a) (height b)).

(** [cv::Mat]: its dimensions and its pixels, addressed by row and column *)
Record Mat (A : Type) : Type := mkMat { rows : Z; cols : Z; pixel : Z -> Z -> A }.

(** [img.at<T>(px) = v] *)
Definition Mat_set {A : Type} (img : Mat A) (px : Point) (v : A) : Mat A :=
  mkMat (rows img) (cols img)
        (fun r c => if (r =? px_y px) && (c =? px_x px) then v else pixel img r c).
(** [img.at<T>(px)] *)
Definition Mat_at {A : Type} (img : Mat A) (px : Point) : A := pixel img (px_y px) (px_x px).

Definition float : Type := spec_float.
Definition kNaNF : float := S754_nan.
Definition isnan (x : float) : bool :=
  match x with S754_nan => true | _ => false end.
(** [a < b] and [a > b] on floats *)
Definition flt (a b : float) : bool := SFltb a b.
Definition fgt (a b : float) : bool := SFltb b a.

Record MeanCovar3f : Type := mkMeanCovar {
  mc_n : Z;
  mean : Vector3d;
  covar : Matrix3d
}.

(** Modelled from the spec: one cell of the grid with its match.
    sv/llol/match.h is not among the sources; the fields are those of the
    spec's [Cell] that grid.cpp and cost.cpp read and write. *)
Record PointMatch : Type := mkPointMatch {
  px_g : Point;
  mc_g : MeanCovar3f;
  mc_p : MeanCovar3f;
  U : Matrix3d
}.

Record Pixel4f : Type := mkPixel4f { p_x : float; p_y : float; p_z : float; p_r : float }.

Record LidarScan : Type := mkLidarScan {
  scan_time : R;
  scan_dt : R;
  xyzr : Mat Pixel4f;
  scan_col_rg : Range
}.

(** What the grid calls in headers that are not among the sources. *)
Class ScanOps : Type := {
  CurveAt : LidarScan -> Point -> Z -> float;                          (* scan.CurveAt(px, width) *)
  MeanCovarAt : LidarScan -> Point -> Z -> MeanCovar3f -> MeanCovar3f; (* scan.MeanCovarAt(px, width, mc) *)
  Match_Reset : PointMatch -> PointMatch;                              (* match.Reset() *)
  Match_Ok : PointMatch -> bool;                                       (* match.Ok() *)
  Match_default : PointMatch                                           (* PointMatch{} *)
}.

Record GridParams : Type := mkGridParams {
  cell_rows : Z;
  cell_cols : Z;
  param_max_score : float;
  param_nms : bool
}.

Section WithOps.
Context {so3ops : SO3Ops} {scanops : ScanOps}.

Record SweepGrid : Type := mkSweepGrid {
  cell_size : Size;
  max_score : float;
  nms : bool;
  score : Mat float;
  col_rg : Range;               (* in grid columns; a default cv::Range is [0, 0) *)
  tfs : list SE3d;
  matches : list PointMatch
}.

(** [rows()], [cols()], [total()]: the size of the grid is that of [score] *)
Definition grid_rows (g : SweepGrid) : Z := rows (score g).
Definition grid_cols (g : SweepGrid) : Z := cols (score g).
Definition total (g : SweepGrid) : Z := grid_rows g * grid_cols g.

(** [SweepGrid::SweepGrid] *)
Definition SweepGrid_ctor (sweep_size : Size) (params : GridParams) : outcome SweepGrid :=
  let cs := mkSize (cell_cols params) (cell_rows params) in
  if (width cs =? 0) || (height cs =? 0) then Aborts Undefined else
  let sz := Size_div sweep_size cs in
  let sc := mkMat (height sz) (width sz) (fun _ _ => kNaNF) in
  _ <- CHECK (width cs * cols sc =? width sweep_size) ;;
  _ <- CHECK (height cs * rows sc =? height sweep_size) ;;
  Returns (mkSweepGrid cs (param_max_score params) (param_nms params) sc
             (mkRange 0 0)
             (repeat (mkSE3 so3_ident v3_zero) (Z.to_nat (cols sc + 1)))
             (repeat Match_default (Z.to_nat (rows sc * cols sc)))).

(** [SweepGrid::Check] *)
Definition Check (g : SweepGrid) (scan : LidarScan) : outcome unit :=
  (* scans row must match grid rows *)
  _ <- CHECK (rows (xyzr scan) =? rows (score g) * height (cell_size g)) ;;
  (* scan start must match current end *)
  _ <- (if cols (score g) =? 0 then Aborts Undefined else Returns tt) ;;
  _ <- CHECK (rg_start (scan_col_rg scan)
              =? Z.rem (rg_end (col_rg g) * width (cell_size g)) (cols (score g))) ;;
  (* scan end must not exceed grid cols *)
  CHECK (rg_end (scan_col_rg scan) <=? cols (score g) * width (cell_size g)).

Definition Grid2Sweep (g : SweepGrid) (px : Point) : Point :=
  mkPoint (px_x px * width (cell_size g)) (px_y px * height (cell_size g)).
Definition Px2Ind (g : SweepGrid) (px : Point) : Z :=
  px_y px * cols (score g) + px_x px.

Definition ScoreAt (g : SweepGrid) (px : Point) : float := Mat_at (score g) px.
(** Modelled from the spec: [MatchAt(px)] is declared in sv/llol/grid.h,
    which is not among the sources; the cell array is a "flat row-major
    vector", indexed here by [Px2Ind] and read with [at]. *)
Definition MatchAt (ms : list PointMatch) (g : SweepGrid) (px : Point) : outcome PointMatch :=
  vec_at ms (Px2Ind g px).

Definition set_score (g : SweepGrid) (s : Mat float) : SweepGrid :=
  mkSweepGrid (cell_size g) (max_score g) (nms g) s (col_rg g) (tfs g) (matches g).
Definition set_col_rg (g : SweepGrid) (rg : Range) : SweepGrid :=
  mkSweepGrid (cell_size g) (max_score g) (nms g) (score g) rg (tfs g) (matches g).
Definition set_matches (g : SweepGrid) (ms : list PointMatch) : SweepGrid :=
  mkSweepGrid (cell_size g) (max_score g) (nms g) (score g) (col_rg g) (tfs g) ms.

(** [for (int c = 0; c < k; ++c)] as a fold over 0, 1, ..., k-1 *)
Definition upto (k : Z) : list Z := map Z.of_nat (seq 0 (Z.to_nat k)).

Fixpoint for_each {St : Type} (idx : list Z) (body : Z -> St -> outcome St) (s : St)
  : outcome St :=
  match idx with
  | [] => Returns s
  | i :: rest => s' <- body i s ;; for_each rest body s'
  end.

(** [SweepGrid::ScoreRow] *)
Definition ScoreRow (scan : LidarScan) (r : Z) (st : SweepGrid * Z) : outcome (SweepGrid * Z) :=
  for_each (upto (Range_size (col_rg (fst st))))
    (fun c '(g, n) =>
       (* this is in scan so c start from 0 *)
       let px_s := Grid2Sweep g (mkPoint c r) in
       let curve := CurveAt scan px_s (width (cell_size g)) in
       let g := set_score g (Mat_set (score g) (mkPoint (c + rg_start (col_rg g)) r) curve) in
       Returns (g, n + (if isnan curve then 0 else 1)))
    st.

(** [SweepGrid::Score]; the reduction over blocks of rows adds the rows'
    counts, each row touching its own cells only. *)
Definition Score (g : SweepGrid) (scan : LidarScan) (gsize : Z) : outcome (SweepGrid * Z) :=
  if width (cell_size g) =? 0 then Aborts Undefined else
  (* update col_rg *)
  let g := set_col_rg g (Range_div (scan_col_rg scan) (width (cell_size g))) in
  for_each (upto (rows (score g))) (fun r st => ScoreRow scan r st) (g, 0).

(** [SweepGrid::IsCellGood] *)
Definition IsCellGood (g : SweepGrid) (px : Point) : bool :=
  (* curve could be nan *)
  (* Threshold check *)
  let m := ScoreAt g px in
  if negb (flt m (max_score g)) then false
  else
    (* NMS check, nan neighbor is considered as inf *)
    if nms g then
      let l := ScoreAt g (mkPoint (px_x px - 1) (px_y px)) in
      let r := ScoreAt g (mkPoint (px_x px + 1) (px_y px)) in
      if fgt m l || fgt m r then false else true
    else true.

(** What the first branch of [FilterRow] does to a cell. *)
Definition mark_good (g : SweepGrid) (scan : LidarScan) (c r : Z) (m : PointMatch) : PointMatch :=
  mkPointMatch (mkPoint (c + rg_start (col_rg g)) r)
               (MeanCovarAt scan (Grid2Sweep g (mkPoint c r)) (width (cell_size g)) (mc_g m))
               (mc_p m) (U m).

(** The test of the [if] in [FilterRow]. *)
Definition passes (g : SweepGrid) (c r : Z) : bool :=
  let pad := if nms g then 1 else 0 in
  (pad <=? c) && (c <? Range_size (col_rg g) - pad)
  && IsCellGood g (mkPoint (c + rg_start (col_rg g)) r).

(** [SweepGrid::FilterRow] *)
Definition FilterRow (g : SweepGrid) (scan : LidarScan) (r : Z) (st : list PointMatch * Z)
  : outcome (list PointMatch * Z) :=
  for_each (upto (Range_size (col_rg g)))
    (fun c '(ms, n) =>
       (* px_g is for grid, so offset by col_rg *)
       let px := mkPoint (c + rg_start (col_rg g)) r in
       m <- MatchAt ms g px ;;
       (* Handle pad for nms *)
       if passes g c r
       then Returns (list_set ms (Z.to_nat (Px2Ind g px)) (mark_good g scan c r m), n + 1)
       else Returns (list_set ms (Z.to_nat (Px2Ind g px)) (Match_Reset m), n))
    st.

(** [SweepGrid::Filter] *)
Definition Filter (g : SweepGrid) (scan : LidarScan) (gsize : Z) : outcome (SweepGrid * Z) :=
  if width (cell_size g) =? 0 then Aborts Undefined else
  let new_rg := Range_div (scan_col_rg scan) (width (cell_size g)) in
  _ <- CHECK (rg_start new_rg =? rg_start (col_rg g)) ;;
  _ <- CHECK (rg_end new_rg =? rg_end (col_rg g)) ;;
  '(ms, n) <- for_each (upto (rows (score g))) (fun r st => FilterRow g scan r st)
                       (matches g, 0) ;;
  Returns (set_matches g ms, n).

(** [SweepGrid::Add] *)
Definition Add (g : SweepGrid) (scan : LidarScan) (gsize : Z) : outcome (SweepGrid * (Z * Z)) :=
  _ <- Check g scan ;;
  '(g, n1) <- Score g scan gsize ;;
  '(g, n2) <- Filter g scan gsize ;;
  Returns (g, (n1, n2)).

End WithOps.
End Grid.

(* ------------------------------------------------------------------ *)
(** * src/sv/llol/cost.cpp *)

Module Cost.
Import Imu Grid.


Section WithOps.
Context {so3ops : SO3Ops} {numerics : Numerics} {scanops : ScanOps}.
Open Scope R_scope.

(** The trajectory as cost.cpp sees it. *)
Record Trajectory : Type := mkTrajectory {
  states : list NavState;
  g_pano : Vector3d
}.

Definition front (traj : Trajectory) : outcome NavState := vec_front (states traj).
Definition back (traj : Trajectory) : outcome NavState := vec_back (states traj).

(** Modelled from the spec: [Trajectory::duration] is declared in
    sv/llol/traj.h, which is not among the sources;
    "duration() = back.time - front.time". *)
Definition Trajectory_duration (traj : Trajectory) : outcome R :=
  b <- back traj ;;
  f <- front traj ;;
  Returns (time b - time f).

(** What cost.cpp takes from headers that are not among the sources:
    the pose the grid holds for column [c], and the values the members
    [preint] and [imu_weight] start with. *)
Class CostOps : Type := {
  TfAt : SweepGrid -> Z -> SE3d;       (* pgrid->TfAt(c) *)
  preint_init : ImuPreintegration;     (* ImuPreintegration{} *)
  imu_weight_init : R                  (* the member initializer of imu_weight *)
}.
Context {costops : CostOps}.

Record GicpCost : Type := mkGicpCost {
  gsize_ : Z;
  matches : list PointMatch;
  pgrid : option SweepGrid;       (* const SweepGrid* *)
  ptraj : option Trajectory;      (* const Trajectory* *)
  preint : ImuPreintegration;
  imu_weight : R;
  error : VectorXd
}.

Definition kResidualDim : nat := 3.
Definition kNumParams : nat := 6.
(** Modelled from the spec: [Block::kR0] and [Block::kP0] are declared in
    sv/llol/cost.h, which is not among the sources; the parameter vector is
    "xi = (r0, p0)". *)
Definition kR0 : nat := 0.
Definition kP0 : nat := 1.
(** [ImuPreintegration::Index::kAlpha], [kTheta] *)
Definition kAlpha : nat := Imu.ALPHA.
Definition kTheta : nat := Imu.THETA.

(** [State es(x_ptr)], [es.r0()], [es.p0()] *)
Definition State_r0 (x : VectorXd) : Vector3d := get_seg3 x (kR0 * 3).
Definition State_p0 (x : VectorXd) : Vector3d := get_seg3 x (kP0 * 3).

(** The object as its members are initialised before the constructor body
    runs.  sv/llol/cost.h is not among the sources; a [std::vector] member
    that the constructor does not initialise is empty, and the two pointers
    are tested against [nullptr] before anything sets them. *)
Definition members_init : GicpCost :=
  mkGicpCost 0 [] None None preint_init imu_weight_init (fun _ => 0).

(** [GicpCost::GicpCost] *)
Definition GicpCost_ctor (gsize : Z) : GicpCost :=
  let this := members_init in
  mkGicpCost (if (gsize <=? 0)%Z then Z.of_nat (length (matches this)) else (gsize + 2)%Z)
             (matches this) (pgrid this) (ptraj this) (preint this) (imu_weight this)
             (error this).

(** [GicpCost::NumResiduals] *)
Definition NumResiduals (cost : GicpCost) : nat :=
  (length (matches cost) * kResidualDim + (match ptraj cost with Some _ => 6 | None => 0 end))%nat.

(** [GicpCost::ResetError] *)
Definition ResetError (cost : GicpCost) : GicpCost :=
  mkGicpCost (gsize_ cost) (matches cost) (pgrid cost) (ptraj cost) (preint cost)
             (imu_weight cost) (fun _ => 0).

(** The two nested loops of [UpdateMatches]: every cell, row by row. *)
Definition collect_matches (grid : SweepGrid) : outcome (list PointMatch) :=
  for_each (upto (grid_rows grid))
    (fun r acc =>
       for_each (upto (grid_cols grid))
         (fun c acc =>
            m <- MatchAt (Grid.matches grid) grid (mkPoint c r) ;;
            if negb (Match_Ok m) then Returns acc
            else Returns (acc ++ [m]))
         acc)
    [].

(** [GicpCost::UpdateMatches] *)
Definition UpdateMatches (cost : GicpCost) (grid : SweepGrid) : outcome GicpCost :=
  (* Collect all good matches *)
  ms <- collect_matches grid ;;
  Returns (mkGicpCost (gsize_ cost) ms (Some grid) (ptraj cost) (preint cost)
             (imu_weight cost) (error cost)).


(** ** The rigid cost *)

(** What one iteration of the parallel loop writes for match [i]. *)
Definition Rigid_match (grid : SweepGrid) (eT : SE3d) (i : nat) (m : PointMatch)
           (out : VectorXd * option MatrixXd) : VectorXd * option MatrixXd :=
  let '(r, J) := out in
  let c := px_x (px_g m) in
  let Um := U m in
  let pt_p := mean (mc_p m) in
  let pt_g := mean (mc_g m) in
  let tf_p_g := TfAt grid c in
  let pt_p_hat := se3_act tf_p_g pt_g in
  let ri := (kResidualDim * i)%nat in
  let r := set_seg3 r ri (m3_mulv Um (v3_sub pt_p (se3_act eT pt_p_hat))) in
  let J := match J with
           | Some J =>
               let J := set_block3 J ri (kR0 * 3) (m3_mul Um (Hat3 pt_p_hat)) in
               Some (set_block3 J ri (kP0 * 3) (m3_neg Um))
           | None => None
           end in
  (r, J).

(** [tbb::parallel_for] over the matches: every index is visited once and
    writes its own stripe, so the blocks can be run one after the other. *)
Fixpoint parallel_for {St : Type} (ms : list PointMatch) (i : nat)
         (body : nat -> PointMatch -> St -> St) (s : St) : St :=
  match ms with
  | [] => s
  | m :: rest => parallel_for rest (S i) body (body i m s)
  end.

(** The Jacobian rows of the IMU residual, in the order the code writes them. *)
Definition Rigid_imu_jacobian (J : MatrixXd) (offset : nat) (Ua Ug R0_t_mat : Matrix3d)
           (p1_bar : Vector3d) : MatrixXd :=
  (* gamma jacobian *)
  let J := set_block3 J (offset + 3) (kR0 * 3) (m3_mul Ug R0_t_mat) in
  let J := set_block3 J (offset + 3) (kP0 * 3) m3_zero in
  (* alpha jacobian *)
  let J := set_block3 J (offset + 3) (kR0 * 3)
                      (m3_mul (m3_mul (m3_neg Ua) R0_t_mat) (Hat3 p1_bar)) in
  set_block3 J (offset + 3) (kP0 * 3) (m3_mul Ua R0_t_mat).

(** [GicpRigidCost::operator()]; [J] is [None] for a null [J_ptr] *)
Definition Rigid_operator (cost : GicpCost) (x r : VectorXd) (J : option MatrixXd)
  : outcome (bool * VectorXd * option MatrixXd) :=
  let eR := so3_exp (State_r0 x) in
  let ep := State_p0 x in
  let eT := mkSE3 eR ep in
  '(r, J) <- match matches cost, pgrid cost with
             | [], _ => Returns (r, J)
             | _ :: _, None => Aborts Undefined
             | ms, Some grid => Returns (parallel_for ms 0 (Rigid_match grid eT) (r, J))
             end ;;
  match ptraj cost with
  | None => Returns (true, r, J)
  | Some traj =>
      let dt := duration (preint cost) in
      let dt2 := dt * dt in
      let g := g_pano traj in
      st0 <- front traj ;;
      st1 <- back traj ;;
      let p0 := pos st0 in
      let p1_bar := pos st1 in
      let p1 := v3_add (so3_act eR p1_bar) ep in
      let R0 := rot st0 in
      let R1_bar := rot st1 in
      let R1 := so3_mul eR R1_bar in
      let R0_t := so3_inverse R0 in
      let dp := v3_sub (v3_muls (vel st0) dt) (v3_muls (v3_scale 0.5 g) dt2) in
      let alpha := so3_act R0_t (v3_sub (v3_sub p1 p0) dp) in
      let offset := (length (matches cost) * kResidualDim)%nat in
      (* r_gamma = R0' * R1 * gamma' *)
      let r_gamma := so3_log (so3_mul (so3_mul R0_t R1) (so3_inverse (gamma (preint cost)))) in
      (* r_alpha = R0^T (p1 - p0 - v0 * dt + 0.5 * g * dt2) - alpha *)
      let r_alpha := v3_sub alpha (Imu.alpha (preint cost)) in
      (* Premultiply by U *)
      let Um := mat_scale (Imu.U (preint cost)) (imu_weight cost) in
      let Ua := get_block3 Um kAlpha kAlpha in
      let Uag := get_block3 Um kAlpha kTheta in
      let Ug := get_block3 Um kTheta kTheta in
      let r_alpha' := v3_add (m3_mulv Ua r_alpha) (m3_mulv Uag r_gamma) in
      let r_gamma' := m3_mulv Ug r_gamma in
      let r := set_seg3 (set_seg3 r (offset + 3) r_alpha') offset r_gamma' in
      let J := match J with
               | Some J => Some (Rigid_imu_jacobian J offset Ua Ug (so3_matrix R0_t) p1_bar)
               | None => None
               end in
      Returns (true, r, J)
  end.

(** [GicpRigidCost::UpdateTraj] *)
Definition Rigid_UpdateTraj (cost : GicpCost) (traj : Trajectory) : outcome Trajectory :=
  dt <- Trajectory_duration traj ;;
  let r0 := State_r0 (error cost) in
  let p0 := State_p0 (error cost) in
  let eR := so3_exp r0 in
  (* Only update first state, the rest will be done in repredict *)
  st <- vec_front (states traj) ;;
  let st := mkNavState (time st)
                       (so3_mul eR (rot st))
                       (v3_add (so3_act eR (pos st)) p0)
                       (v3_add (vel st) (v3_div p0 dt)) in
  Returns (mkTrajectory (list_set (states traj) 0 st) (g_pano traj)).

(** ** The linear cost *)

Definition Linear_match (grid : SweepGrid) (eR : SO3d) (ep : Vector3d) (i : nat)
           (m : PointMatch) (out : VectorXd * option MatrixXd) : VectorXd * option MatrixXd :=
  let '(r, J) := out in
  let c := px_x (px_g m) in
  let Um := U m in
  let pt_p := mean (mc_p m) in
  let pt_g := mean (mc_g m) in
  let tf_p_g := TfAt grid c in
  let pt_p_hat := se3_act tf_p_g pt_g in
  (* +0.5 is because we assume point is at cell center *)
  let s := (IZR c + 0.5) / IZR (grid_cols grid) in
  let ri := (kResidualDim * i)%nat in
  let r := set_seg3 r ri
             (m3_mulv Um (v3_sub pt_p (v3_add (so3_act eR pt_p_hat) (v3_scale s ep)))) in
  let J := match J with
           | Some J =>
               let J := set_block3 J ri (kR0 * 3) (m3_mul Um (Hat3 pt_p_hat)) in
               Some (set_block3 J ri (kP0 * 3) (m3_scale (- s) Um))
           | None => None
           end in
  (r, J).

(** [GicpLinearCost::operator()] *)
Definition Linear_operator (cost : GicpCost) (x r : VectorXd) (J : option MatrixXd)
  : outcome (bool * VectorXd * option MatrixXd) :=
  let eR := so3_exp (State_r0 x) in
  let ep := State_p0 x in
  '(r, J) <- match matches cost, pgrid cost with
             | [], _ => Returns (r, J)
             | _ :: _, None => Aborts Undefined
             | ms, Some grid => Returns (parallel_for ms 0 (Linear_match grid eR ep) (r, J))
             end ;;
  match ptraj cost with
  | None => Returns (true, r, J)
  | Some traj =>
      let dt := duration (preint cost) in
      let dt2 := dt * dt in
      let g := g_pano traj in
      st0 <- front traj ;;
      st1 <- back traj ;;
      let p0 := so3_act eR (pos st0) in
      let p1 := v3_add (so3_act eR (pos st1)) ep in
      let R0 := so3_mul eR (rot st0) in
      let R0_t := so3_inverse R0 in
      let dp := v3_sub (v3_muls (vel st0) dt) (v3_muls (v3_scale 0.5 g) dt2) in
      let alpha := so3_act R0_t (v3_sub (v3_sub p1 p0) dp) in
      let gicp_residuals := (length (matches cost) * kResidualDim)%nat in
      let Ua := m3_map (fun v => v3_muls v (imu_weight cost))
                       (get_block3 (Imu.U (preint cost)) 0 0) in
      (* alpha = R0^T (p1 - p0 - v0 * dt + 0.5 * g * dt2) *)
      let r := set_seg3 r gicp_residuals (m3_mulv Ua (v3_sub alpha (Imu.alpha (preint cost)))) in
      let J := match J with
               | Some J =>
                   let R0_t_mat := so3_matrix R0_t in
                   let J := set_block3 J gicp_residuals (kR0 * 3)
                              (m3_mul (m3_mul Ua R0_t_mat) (Hat3 (v3_sub ep dp))) in
                   Some (set_block3 J gicp_residuals (kP0 * 3) (m3_mul Ua R0_t_mat))
               | None => None
               end in
      Returns (true, r, J)
  end.

End WithOps.
End Cost.

(* ------------------------------------------------------------------ *)
(** * Concrete inputs

    One instance of the operations the headers would supply, and a few
    small objects on which the code above can be run. *)

Module Sample.
Import Imu Grid Cost.
Open Scope Z_scope.

Definition bad_match : PointMatch :=
  mkPointMatch (mkPoint (-100) (-100)) (mkMeanCovar 0 v3_zero m3_zero)
               (mkMeanCovar 0 v3_zero m3_zero) m3_zero.

(** A cell counts once both of its statistics hold more than one point;
    the statistics of a window record how many columns it spans; the
    curvature of a cell is the range channel of its first pixel. *)
#[export] Instance SimpleScanOps : ScanOps := {
  CurveAt := fun scan px w => p_r (Mat_at (xyzr scan) px);
  MeanCovarAt := fun scan px w mc => mkMeanCovar w (mean mc) (covar mc);
  Match_Reset := fun _ => bad_match;
  Match_Ok := fun m => (0 <=? px_x (px_g m)) && (1 <? mc_n (mc_g m)) && (1 <? mc_n (mc_p m));
  Match_default := bad_match
}.

Definition zero_preint : ImuPreintegration :=
  mkImuPreintegration 0%R 0 mat_ident mat_zero v3_zero v3_zero so3_ident mat_ident.

(** The grid's pose for column [c] is the sample stored at [c]. *)
#[export] Instance SimpleCostOps : CostOps := {
  TfAt := fun g c => nth (Z.to_nat c) (tfs g) (mkSE3 so3_ident v3_zero);
  preint_init := zero_preint;
  imu_weight_init := 1%R
}.

(** a one-cell grid holding one good match *)
Definition good_match : PointMatch :=
  mkPointMatch (mkPoint 0 0) (mkMeanCovar 2 (mkV3 1 0 0) m3_ident)
               (mkMeanCovar 2 (mkV3 1 0 0) m3_ident) m3_ident.

Definition one_cell_grid : SweepGrid :=
  mkSweepGrid (mkSize 2 1) (S754_finite false 1 0) false
              (mkMat 1 1 (fun _ _ => S754_zero false)) (mkRange 0 1)
              [mkSE3 so3_ident v3_zero; mkSE3 so3_ident v3_zero] [good_match].

(** a sweep of 8 columns and 1 row, cells of 2 columns: 4 grid columns *)
Definition params_2x1 : GridParams := mkGridParams 1 2 (S754_finite false 1 0) false.
Definition blank : Mat Pixel4f :=
  mkMat 1 8 (fun _ _ => mkPixel4f S754_nan S754_nan S754_nan S754_nan).
Definition slice (c0 c1 : Z) : LidarScan := mkLidarScan 0%R 0%R blank (mkRange c0 c1).

(** a row of seven scores, NaN 9 2 5 1 3 NaN, threshold 8, NMS on *)
Definition f32 (k : Z) : float := binary_normalize 24 128 k 0 false.
Definition score_row : list float :=
  [S754_nan; f32 9; f32 2; f32 5; f32 1; f32 3; S754_nan].
Definition nms_grid : SweepGrid :=
  mkSweepGrid (mkSize 2 1) (f32 8) true
              (mkMat 1 7 (fun _ c => nth (Z.to_nat c) score_row S754_nan)) (mkRange 0 7)
              (repeat (mkSE3 so3_ident v3_zero) 8) (repeat bad_match 7).
Definition nms_scan : LidarScan :=
  mkLidarScan 0%R 0%R (mkMat 1 14 (fun _ _ => mkPixel4f S754_nan S754_nan S754_nan S754_nan))
              (mkRange 0 14).

(** IMU samples and states *)
Definition imu_at (t : R) : ImuData := mkImuData t v3_zero v3_zero.
Definition state_at (t : R) : NavState := mkNavState t so3_ident v3_zero v3_zero.
Definition no_bias : ImuBias := mkImuBias v3_zero v3_zero.
Definition no_noise : ImuNoise := mkImuNoise (fun _ => 0%R).
Definition id_pose : SE3d := mkSE3 so3_ident v3_zero.

(** a trajectory over [1, 2] whose only sample is older than its start *)
Definition stale_traj : Imu.ImuTrajectory :=
  Imu.mkImuTrajectory [imu_at 0.5] [state_at 1; state_at 2] no_bias no_noise
                      (mkV3 0 0 9.8) id_pose id_pose.
Definition stale_early : ImuEarly.ImuTrajectory :=
  ImuEarly.mkImuTrajectory [imu_at 0.5] [id_pose; id_pose] [state_at 1; state_at 2] id_pose.

(** a trajectory over [1, 2] with samples at 1.25, 1.5, 1.75 and 2.5 *)
Definition live_traj : Imu.ImuTrajectory :=
  Imu.mkImuTrajectory [imu_at 0.5; imu_at 1.25; imu_at 1.5; imu_at 1.75; imu_at 2.5]
                      [state_at 1; state_at 2] no_bias no_noise
                      (mkV3 0 0 9.8) id_pose id_pose.

Definition cost_traj : Trajectory := mkTrajectory [state_at 1; state_at 2] (mkV3 0 0 9.8).

(** a cost with one match, with and without the trajectory attached *)
Definition attached_cost : GicpCost :=
  mkGicpCost 0 [good_match] (Some one_cell_grid) (Some cost_traj) zero_preint 1%R
             (fun _ => 0%R).
Definition gicp_only_cost : GicpCost :=
  mkGicpCost 0 [good_match] (Some one_cell_grid) None zero_preint 1%R (fun _ => 0%R).

End Sample.
Import Sample.

(* ------------------------------------------------------------------ *)
(** * src/sv/llol/imu.cpp: the state integrators and the initialisation *)

Module ImuInit.
Section WithSophus.
Context {so3ops : SO3Ops} {numerics : Numerics}.
Open Scope R_scope.
Import Imu.

(** [IntegrateEuler] *)
Definition IntegrateEuler (s0 : NavState) (imu : ImuData) (g_w : Vector3d) (dt : R)
  : outcome NavState :=
  _ <- CHECK (Rltb 0 dt) ;;
  (* gyr *)
  rot1 <- IntegrateRot (rot s0) (gyr imu) dt ;;
  (* acc, transformed to world frame *)
  let a := v3_add (so3_act (rot s0) (acc imu)) g_w in
  Returns (mkNavState (time s0 + dt) rot1
             (v3_add (v3_add (pos s0) (v3_muls (vel s0) dt))
                     (v3_muls (v3_muls (v3_scale 0.5 a) dt) dt))
             (v3_add (vel s0) (v3_muls a dt))).

(** [IntegrateMidpoint] *)
Definition IntegrateMidpoint (s0 : NavState) (imu0 imu1 : ImuData) (g_w : Vector3d)
  : outcome NavState :=
  let dt := imu_time imu1 - imu_time imu0 in
  _ <- CHECK (Rltb 0 dt) ;;
  (* gyro *)
  let omg_b := v3_muls (v3_add (gyr imu0) (gyr imu1)) 0.5 in
  rot1 <- IntegrateRot (rot s0) omg_b dt ;;
  (* acc *)
  let a0 := so3_act (rot s0) (acc imu0) in
  let a1 := so3_act rot1 (acc imu1) in
  let a := v3_add (v3_muls (v3_add a0 a1) 0.5) g_w in
  Returns (mkNavState (time s0 + dt) rot1
             (v3_add (v3_add (pos s0) (v3_muls (vel s0) dt))
                     (v3_muls (v3_muls (v3_scale 0.5 a) dt) dt))
             (v3_add (vel s0) (v3_muls a dt))).


(** [Sophus::SE3::inverse] *)
Definition se3_inverse (T : SE3d) : SE3d :=
  let invR := so3_inverse (so3 T) in
  mkSE3 invR (so3_act invR (v3_muls (translation T) (-1))).

(** [Eigen::Quaterniond::FromTwoVectors], as a rotation; library code *)
Variable FromTwoVectors : Vector3d -> Vector3d -> SO3d.



(** [ImuTrajectory::InitExtrinsic] *)
Definition InitExtrinsic (traj : ImuTrajectory) (T_i_l : SE3d) : outcome ImuTrajectory :=
  (* set all imu states to inverse of T_i_l because we want first sweep frame to
     be the same as pano *)
  let T_l_i := se3_inverse T_i_l in
  _ <- CHECK (negb (match states traj with [] => true | _ => false end)) ;;
  Returns (mkImuTrajectory (buf traj)
             (map (fun s => mkNavState (time s) (so3 T_l_i) (translation T_l_i) (vel s))
                  (states traj))
             (bias traj) (noise traj) (gravity traj) T_i_l (T_init_pano traj)).

End WithSophus.
End ImuInit.

(* ------------------------------------------------------------------ *)
(** * src/unnamed/part_001: the poses of the grid *)

Module GridPoses.
Section WithOps.
Context {so3ops : SO3Ops} {scanops : Grid.ScanOps}.
Import Grid.

(** [size_t] arithmetic wraps modulo 2^64; a [size_t] stored in an [int]
    keeps its low 32 bits, read as a signed number *)
Definition size_t (z : Z) : Z := (z mod 2 ^ 64)%Z.
Definition to_int (z : Z) : Z := ((z + 2 ^ 31) mod 2 ^ 32 - 2 ^ 31)%Z.



(** The inner loop of [InterpPosesImpl]: the columns of cell [i]. *)
Definition InterpCell (T0 T1 : SE3d) (cell_width i : Z) (tf_sweep : list SE3d)
  : outcome (list SE3d) :=
  let R0 := so3 T0 in
  let R1 := so3 T1 in
  let dR := so3_log (so3_mul (so3_inverse R0) R1) in
  let t0 := translation T0 in
  let t1 := translation T1 in
  let dt := v3_sub t1 t0 in
  for_each (upto cell_width)
    (fun j sw =>
       (* which column *)
       let col := (i * cell_width + j)%Z in
       let s := (IZR j / IZR cell_width)%R in
       Tc <- vec_at sw col ;;
       let sw := list_set sw (Z.to_nat col)
                          (mkSE3 (so3_mul R0 (so3_exp (v3_scale s dR))) (translation Tc)) in
       Tc <- vec_at sw col ;;
       Returns (list_set sw (Z.to_nat col)
                         (mkSE3 (so3 Tc) (v3_add t0 (v3_scale s dt)))))
    tf_sweep.

(** [InterpPosesImpl]; the blocks of [tbb::parallel_for] write the columns
    of different cells and are run one after the other, cell by cell. *)
Definition InterpPosesImpl (tf_grid : list SE3d) (cell_width : Z) (tf_sweep : list SE3d)
           (gsize : Z) : outcome (list SE3d) :=
  _ <- CHECK (size_t (size_t (Z.of_nat (length tf_grid) - 1) * size_t cell_width)
              =? Z.of_nat (length tf_sweep))%Z ;;
  let ncells := to_int (size_t (Z.of_nat (length tf_grid) - 1)) in
  for_each (upto ncells)
    (fun i sw =>
       (* interpolate rotation and translation separately *)
       T0 <- vec_at tf_grid i ;;
       T1 <- vec_at tf_grid (i + 1) ;;
       InterpCell T0 T1 cell_width i sw)
    tf_sweep.

(** [SweepGrid::InterpSweep], on the poses of the sweep *)
Definition InterpSweep (g : SweepGrid) (sweep_tfs : list SE3d) (gsize : Z)
  : outcome (list SE3d) :=
  InterpPosesImpl (tfs g) (width (cell_size g)) sweep_tfs gsize.

(** [PointInSize] *)
Definition PointInSize (p : Point) (size : Size) : bool :=
  (Z.abs (px_x p) <=? width size)%Z && (Z.abs (px_y p) <=? height size)%Z.

End WithOps.
End GridPoses.

(* ------------------------------------------------------------------ *)
(** * src/sv/llol/cost.cpp: the linear trajectory update *)

Module LinearUpdate.
Section WithOps.
Context {so3ops : SO3Ops} {numerics : Numerics} {scanops : Grid.ScanOps}
        {costops : Cost.CostOps}.
Open Scope R_scope.
Import Imu Cost.

(** [MeanVar3d] of sv/util/math.h, which is not among the sources: an
    accumulator that is fed vectors with [Add] and read through [mean]. *)
Variable MeanVar3d : Type.
Variable mv_init : MeanVar3d.                          (* MeanVar3d vel{} *)
Variable mv_Add : MeanVar3d -> Vector3d -> MeanVar3d.  (* vel.Add(v) *)
Variable mv_mean : MeanVar3d -> Vector3d.              (* vel.mean *)

(** Modelled from the spec: [Trajectory::At] and [Trajectory::size] are
    declared in sv/llol/traj.h, which is not among the sources; the spec
    lists "Front() / Back() / At(i): accessors", read here as
    [states.at(i)] and [states.size()]. *)
Definition At (ss : list NavState) (i : Z) : outcome NavState := vec_at ss i.

(** The body of the loop of [GicpLinearCost::UpdateTraj], for state [i]. *)
Definition Linear_step (eR : SO3d) (p0 : Vector3d) (size : nat) (i : Z)
           (st : list NavState * MeanVar3d) : outcome (list NavState * MeanVar3d) :=
  let '(ss, vel_acc) := st in
  st_i <- At ss i ;;
  let s := IZR i / (INR size - 1.0) in
  let st_i := mkNavState (time st_i) (so3_mul eR (rot st_i))
                         (v3_add (so3_act eR (pos st_i)) (v3_scale s p0)) (vel st_i) in
  let ss := list_set ss (Z.to_nat i) st_i in
  if (1 <? i)%Z then
    st_im1 <- At ss (i - 1) ;;
    let v := v3_div (v3_sub (pos st_i) (pos st_im1)) (time st_i - time st_im1) in
    let ss := list_set ss (Z.to_nat (i - 1))
                       (mkNavState (time st_im1) (rot st_im1) (pos st_im1) v) in
    Returns (ss, mv_Add vel_acc v)
  else Returns (ss, vel_acc).

(** [GicpLinearCost::UpdateTraj] *)
Definition Linear_UpdateTraj (cost : GicpCost) (traj : Trajectory) : outcome Trajectory :=
  let r0 := State_r0 (error cost) in
  let p0 := State_p0 (error cost) in
  let eR := so3_exp r0 in
  '(ss, vel_acc) <- Grid.for_each (Grid.upto (Z.of_nat (length (states traj))))
                      (Linear_step eR p0 (length (states traj)))
                      (states traj, mv_init) ;;
  (* Last vel is the average vel *)
  last <- vec_back ss ;;
  Returns (mkTrajectory
             (list_set ss (length ss - 1)
                       (mkNavState (time last) (rot last) (pos last) (mv_mean vel_acc)))
             (g_pano traj)).

End WithOps.
End LinearUpdate.

(* ------------------------------------------------------------------ *)
(** * src/unnamed/part_002: the timer

    [NowNs()] reads the clock; here every operation is handed the reading
    it would take.  The readings and their differences are taken to stay
    inside [int64_t], whose overflow is undefined. *)

Module Timer.
Open Scope Z_scope.

Record Timer : Type := mkTimer {
  time_ns_ : Z;        (* either start (running) or elapsed (stopped) *)
  running_ : bool
}.

Definition IsRunning (t : Timer) : bool := running_ t.
Definition IsStopped (t : Timer) : bool := negb (running_ t).

(** [Start]: repeated calls update the start time *)
Definition Start (now : Z) (t : Timer) : Timer := mkTimer now true.

(** [Timer()]: the members start as 0 and false, then the timer is started *)
Definition Timer_ctor (now : Z) : Timer := Start now (mkTimer 0 false).

(** [Stop] *)
Definition Stop (now : Z) (t : Timer) : Timer :=
  if negb (running_ t) then t
  else mkTimer (now - time_ns_ t) false.

(** [Resume] *)
Definition Resume (now : Z) (t : Timer) : Timer :=
  if running_ t then t
  else
    let prev_elapsed := time_ns_ t in
    let t := Start now t in               (* time_ns is now the new start time *)
    mkTimer (time_ns_ t - prev_elapsed) (running_ t).

(** [Elapsed] *)
Definition Elapsed (now : Z) (t : Timer) : Z :=
  if negb (running_ t) then time_ns_ t   (* time_ns_ is already elapsed *)
  else now - time_ns_ t.                 (* time_ns_ is when the timer started *)

End Timer.

(* ------------------------------------------------------------------ *)
(** * Predicates of the further statements *)

Section MoreStatements.
Context {so3ops : SO3Ops} {numerics : Numerics} {scanops : Grid.ScanOps}
        {costops : Cost.CostOps}.
Import Imu Grid Cost.


End MoreStatements.

Section MoreStatements2.
Context {so3ops : SO3Ops} {numerics : Numerics}.
Import Imu.

(** the sample lies strictly inside the window *)
Definition inside (t0 t1 : R) (d : ImuData) : bool :=
  Rltb t0 (imu_time d) && Rltb (imu_time d) t1.

(** the sample measures exactly the bias: de-biased, it is zero *)
Definition measures_bias (bs : ImuBias) (d : ImuData) : Prop :=
  acc d = bias_acc bs /\ gyr d = bias_gyr bs.

(** The facts about rotations that a trajectory at rest needs: no rotation
    moves the origin, exp(0) is the identity, and the identity times itself
    is the identity. *)
Definition rest_laws : Prop :=
  (forall q : SO3d, so3_act q v3_zero = v3_zero)
  /\ so3_exp v3_zero = so3_ident
  /\ so3_mul so3_ident so3_ident = so3_ident.

End MoreStatements2.

Section GridStatements.
Context {so3ops : SO3Ops} {scanops : Grid.ScanOps}.
Import Grid.
Open Scope Z_scope.

(** the cells (row, column) of a window of [nrows] rows and [ncols]
    columns, row by row *)
Definition window_cells (nrows ncols : Z) : list (Z * Z) :=
  list_prod (upto nrows) (upto ncols).

(** how many cells of the window satisfy [f column row] *)
Definition count_cells (f : Z -> Z -> bool) (nrows ncols : Z) : Z :=
  Z.of_nat (length (filter (fun rc => f (snd rc) (fst rc)) (window_cells nrows ncols))).

(** the curvature that [ScoreRow] asks of the scan for the window cell in
    column [c] (counted from the start of the slice) and row [r] *)
Definition curve_of (g : SweepGrid) (scan : LidarScan) (c r : Z) : float :=
  CurveAt scan (Grid2Sweep g (mkPoint c r)) (width (cell_size g)).

(** the cell array covers the grid, and the active window lies inside it *)
Definition window_in_grid (g : SweepGrid) : Prop :=
  0 <= rg_start (col_rg g)
  /\ rg_end (col_rg g) <= cols (score g)
  /\ length (matches g) = Z.to_nat (rows (score g) * cols (score g)).

End GridStatements.

(** More concrete inputs. *)
Module MoreSamples.
Import Grid Sample.
Open Scope Z_scope.

(** a scan of 14 columns and 1 row whose range channel gives the cells of
    2 columns the curvatures NaN 9 2 5 1 3 NaN *)
Definition row_scan : LidarScan :=
  mkLidarScan 0%R 0%R
    (mkMat 1 14 (fun _ c => mkPixel4f S754_nan S754_nan S754_nan
                                      (nth (Z.to_nat (Z.quot c 2)) score_row S754_nan)))
    (mkRange 0 14).

(** 4 grid columns of 2 sweep columns each, the window at [0, 2) *)
Definition half_swept : SweepGrid :=
  mkSweepGrid (mkSize 2 1) (f32 8) false (mkMat 1 4 (fun _ _ => kNaNF)) (mkRange 0 2)
              (repeat (mkSE3 so3_ident v3_zero) 5) (repeat bad_match 4).

End MoreSamples.

Section PoseStatements.
Context {so3ops : SO3Ops}.
Open Scope R_scope.

(** the pose between [T0] and [T1] at the fraction j / cell_width of the
    way: the rotation along the geodesic, the translation along the
    segment *)
Definition interp_pose (T0 T1 : SE3d) (cell_width j : Z) : SE3d :=
  let s := IZR j / IZR cell_width in
  mkSE3 (so3_mul (so3 T0)
                 (so3_exp (v3_scale s (so3_log (so3_mul (so3_inverse (so3 T0)) (so3 T1))))))
        (v3_add (translation T0) (v3_scale s (v3_sub (translation T1) (translation T0)))).

End PoseStatements.

Section CostStatements.
Context {so3ops : SO3Ops} {numerics : Numerics} {scanops : Grid.ScanOps}
        {costops : Cost.CostOps}.
Import Grid Cost.
Open Scope R_scope.

(** the point of a match in the sweep frame, moved by the pose the grid
    holds for the match's column *)
Definition pt_hat (grid : SweepGrid) (m : PointMatch) : Vector3d :=
  se3_act (TfAt grid (px_x (px_g m))) (mean (mc_g m)).

(** the residual of one match under the rigid cost: U (pt_p - eT pt_hat) *)
Definition rigid_residual (grid : SweepGrid) (eT : SE3d) (m : PointMatch) : Vector3d :=
  m3_mulv (U m) (v3_sub (mean (mc_p m)) (se3_act eT (pt_hat grid m))).

(** the fraction of the sweep at which the cell of a match lies *)
Definition cell_fraction (grid : SweepGrid) (m : PointMatch) : R :=
  (IZR (px_x (px_g m)) + 0.5) / IZR (grid_cols grid).

(** the residual of one match under the linear cost:
    U (pt_p - (eR pt_hat + s ep)) *)
Definition linear_residual (grid : SweepGrid) (eR : SO3d) (ep : Vector3d) (m : PointMatch)
  : Vector3d :=
  m3_mulv (U m) (v3_sub (mean (mc_p m))
                        (v3_add (so3_act eR (pt_hat grid m))
                                (v3_scale (cell_fraction grid m) ep))).

(** An iteration of a residual loop as a write of one stripe: match [i]
    stores three residuals in rows 3 i .. 3 i + 2 and, when there is a
    Jacobian, two 3 x 3 blocks in the same rows. *)
Definition stripe_body (fr : PointMatch -> Vector3d) (fa fb : PointMatch -> Matrix3d)
           (i : nat) (m : PointMatch) (out : VectorXd * option MatrixXd)
  : VectorXd * option MatrixXd :=
  (set_seg3 (fst out) (3 * i) (fr m),
   option_map (fun J => set_block3 (set_block3 J (3 * i) 0 (fa m)) (3 * i) 3 (fb m))
              (snd out)).

End CostStatements.

Section LinearStatements.
Context {so3ops : SO3Ops} {numerics : Numerics} {scanops : Grid.ScanOps}
        {costops : Cost.CostOps}.
Import Imu Cost.
Open Scope R_scope.

(** where the linear update puts the position of state [j] of [n]: turned
    by [eR] and moved by the fraction j / (n - 1) of [p0] *)
Definition lin_pos (eR : SO3d) (p0 : Vector3d) (n j : nat) (o : NavState) : Vector3d :=
  v3_add (so3_act eR (pos o)) (v3_scale (IZR (Z.of_nat j) / (INR n - 1.0)) p0).

(** the velocity between the new positions of states [j] and [j + 1] *)
Definition fd_vel (eR : SO3d) (p0 : Vector3d) (orig : list NavState) (j : nat) : Vector3d :=
  match nth_error orig j, nth_error orig (S j) with
  | Some a, Some b =>
      v3_div (v3_sub (lin_pos eR p0 (length orig) (S j) b) (lin_pos eR p0 (length orig) j a))
             (time b - time a)
  | _, _ => v3_zero
  end.

(** state [j] after the first [i] iterations of the loop of the linear
    update: states the loop has not reached are the original ones; a
    reached state has its new pose, and its velocity is the new one once the
    next state has been reached too, except for state 0, whose velocity the
    loop never writes *)
Definition lin_state (eR : SO3d) (p0 : Vector3d) (orig : list NavState) (i j : nat)
           (o : NavState) : NavState :=
  if (j <? i)%nat
  then mkNavState (time o) (so3_mul eR (rot o)) (lin_pos eR p0 (length orig) j o)
                  (if (1 <=? j)%nat && (j <? i - 1)%nat then fd_vel eR p0 orig j else vel o)
  else o.

(** the accumulator after [i] iterations: it has been fed the velocities
    of the states 1 .. i - 2 *)
Definition fed_vels (M : Type) (mv_init : M) (mv_Add : M -> Vector3d -> M)
           (eR : SO3d) (p0 : Vector3d) (orig : list NavState) (i : nat) : M :=
  fold_left mv_Add (map (fd_vel eR p0 orig) (seq 1 (i - 2))) mv_init.

End LinearStatements.

Section LoopStatements.
Context {so3ops : SO3Ops} {numerics : Numerics} {scanops : Grid.ScanOps}
        {costops : Cost.CostOps}.
Import Grid Cost.


(** the iterations of a loop over the matches, each with its index, run
    one after the other in the order of the list *)
Fixpoint run_iterations (St : Type) (its : list (nat * PointMatch))
         (body : nat -> PointMatch -> St -> St) (s : St) : St :=
  match its with
  | [] => s
  | (i, m) :: rest => run_iterations rest body (body i m s)
  end.

(** the iterations of [parallel_for] from index [i0] on, in index order *)
Fixpoint iterations (i0 : nat) (ms : list PointMatch) : list (nat * PointMatch) :=
  match ms with
  | [] => []
  | m :: rest => (i0, m) :: iterations (S i0) rest
  end.

(** two outputs of a residual loop hold the same numbers *)
Definition same_output (a b : VectorXd * option MatrixXd) : Prop :=
  (forall k, fst a k = fst b k)
  /\ match snd a, snd b with
     | Some Ja, Some Jb => forall i j, Ja i j = Jb i j
     | None, None => True
     | _, _ => False
     end.

(** the two facts about rotations under which a zero error moves nothing:
    exp(0) fixes every point and is a left unit of the product *)
Definition exp_zero_unit : Prop :=
  (forall v, so3_act (so3_exp v3_zero) v = v)
  /\ (forall q, so3_mul (so3_exp v3_zero) q = q).

End LoopStatements.

Section EarlyStatements.
Context {so3ops : SO3Ops}.
Import Imu.

(** What the earlier [Predict] has made of the first [i] poses [ps] of a
    trajectory whose poses were [orig], the first of them [T0]: pose 0 is
    kept; each later pose has the translation of pose 0 and the rotation of
    its predecessor turned by dt times the gyro of one sample of the buffer,
    taken into the lidar frame; the poses from [i] on are still the
    original ones. *)
Definition predicted_early (tr : ImuEarly.ImuTrajectory) (dt : R) (T0 : SE3d)
           (orig : list SE3d) (i : nat) (ps : list SE3d) : Prop :=
  length ps = length orig
  /\ (forall j, (i <= j)%nat -> nth_error ps j = nth_error orig j)
  /\ nth_error ps 0 = Some T0
  /\ (forall j, (1 <= j < i)%nat ->
        exists Tp Tj d,
          nth_error ps (j - 1) = Some Tp /\ nth_error ps j = Some Tj
          /\ In d (ImuEarly.buf tr)
          /\ translation Tj = translation T0
          /\ so3 Tj = so3_mul (so3 Tp)
                        (so3_exp (v3_scale dt
                                    (so3_act (so3_inverse (so3 (ImuEarly.T_imu_lidar tr)))
                                             (gyr d))))).

End EarlyStatements.

(* ------------------------------------------------------------------ *)
(** * Predicates of the statements *)

Unset Implicit Arguments.

Section Statements.
Context {so3ops : SO3Ops} {numerics : Numerics} {scanops : Grid.ScanOps}
        {costops : Cost.CostOps}.
Import Imu Grid Cost.

(** every sample of the buffer is at [t] or older *)
Definition none_newer (b : list ImuData) (t : R) : Prop :=
  Forall (fun d => ~ (t < imu_time d)%R) b.

(** the time stamps after [t] grow strictly *)
Fixpoint increasing (t : R) (l : list ImuData) : Prop :=
  match l with
  | [] => True
  | d :: rest => (t < imu_time d)%R /\ increasing (imu_time d) rest
  end.

(** every match's pano-frame mean is the predicted pose applied to its
    sweep-frame mean *)
Definition matches_agree (grid : SweepGrid) (ms : list PointMatch) : Prop :=
  forall m, In m ms ->
            mean (mc_p m) = se3_act (TfAt grid (px_x (px_g m))) (mean (mc_g m)).

(** [m <= x], a NaN [x] standing for plus infinity *)
Definition le_nan_as_inf (m x : float) : bool :=
  if isnan x then SFleb m (S754_infinity false) else SFleb m x.

(** The rule of the claim, for the cell in column [c] of the active window
    (counted from its first column) and row [r]: the score is below
    [max_score], and with NMS on the cell is neither in the first nor in the
    last column of the window and its score is at most the score of each
    neighbour, a NaN neighbour counting as plus infinity. *)
Definition claimed_good (g : SweepGrid) (c r : Z) : bool :=
  let x := (c + rg_start (col_rg g))%Z in
  let m := ScoreAt g (mkPoint x r) in
  flt m (max_score g)
  && (if nms g
      then negb (c =? 0) && negb (c =? Range_size (col_rg g) - 1)
           && le_nan_as_inf m (ScoreAt g (mkPoint (x - 1) r))
           && le_nan_as_inf m (ScoreAt g (mkPoint (x + 1) r))
      else true).



End Statements.

(** Runs the code on a concrete input, leaving real numbers and the
    rotation instance folded. *)
Ltac run_code :=
  lazy -[IZR RotationMatrix rodrigues rot_log Rplus Rmult Rminus Ropp Rinv Rdiv sqrt].

(* ------------------------------------------------------------------ *)
(** * General facts about the embedding *)

Lemma Rltb_true (a b : R) : (a < b)%R -> Rltb a b = true.
Proof. intros H. unfold Rltb. destruct (Rlt_dec a b); [reflexivity | contradiction]. Qed.

Lemma Rltb_false (a b : R) : ~ (a < b)%R -> Rltb a b = false.
Proof. intros H. unfold Rltb. destruct (Rlt_dec a b); [contradiction | reflexivity]. Qed.

Lemma Rleb_true (a b : R) : (a <= b)%R -> Rleb a b = true.
Proof. intros H. unfold Rleb. destruct (Rle_dec a b); [reflexivity | contradiction]. Qed.

Lemma Rleb_false (a b : R) : ~ (a <= b)%R -> Rleb a b = false.
Proof. intros H. unfold Rleb. destruct (Rle_dec a b); [contradiction | reflexivity]. Qed.

(** Settles every real comparison of the goal whose outcome [lra] can decide. *)
Ltac decide_reals :=
  repeat match goal with
    | |- context [Rltb ?a ?b] =>
        first [ rewrite (Rltb_true a b) by lra | rewrite (Rltb_false a b) by lra ]
    | |- context [Rleb ?a ?b] =>
        first [ rewrite (Rleb_true a b) by lra | rewrite (Rleb_false a b) by lra ]
    end.

Lemma bind_Returns {A B : Type} (m : outcome A) (k : A -> outcome B) (b : B) :
  bind m k = Returns b -> exists a, m = Returns a /\ k a = Returns b.
Proof. destruct m as [a|f]; simpl; intros H; [eauto | discriminate]. Qed.

Lemma CHECK_Returns (b : bool) (u : unit) : CHECK b = Returns u -> b = true.
Proof. destruct b; simpl; [reflexivity | discriminate]. Qed.

Lemma list_set_length {A : Type} (v : list A) (i : nat) (a : A) :
  length (list_set v i a) = length v.
Proof.
  revert i; induction v as [|h t IH]; intros [|i]; simpl; auto.
Qed.

Lemma nth_error_list_set_eq {A : Type} (v : list A) (i : nat) (a : A) :
  (i < length v)%nat -> nth_error (list_set v i a) i = Some a.
Proof.
  revert i; induction v as [|h t IH]; intros [|i]; simpl; intros H; try lia; auto.
  apply IH; lia.
Qed.

Lemma nth_error_list_set_neq {A : Type} (v : list A) (i k : nat) (a : A) :
  i <> k -> nth_error (list_set v i a) k = nth_error v k.
Proof.
  revert i k; induction v as [|h t IH]; intros [|i] [|k]; simpl; intros H;
    try reflexivity; try congruence.
  apply IH; congruence.
Qed.

Lemma vec_back_front {A : Type} (v : list A) (a : A) :
  vec_front v = Returns a -> exists b, vec_back v = Returns b.
Proof.
  destruct v as [|h t]; simpl; [discriminate|]. intros _.
  unfold vec_back. destruct (rev (h :: t)) as [|b l] eqn:E.
  - apply (f_equal (@length A)) in E. rewrite length_rev in E. discriminate.
  - exists b. reflexivity.
Qed.

(** ** No sample after [t] *)

Section ImuFacts.
Context {so3ops : SO3Ops} {numerics : Numerics}.
Import Imu.

Lemma FindNextImu_from_none (b : list ImuData) (t : R) (i : Z) :
  none_newer b t -> FindNextImu_from b t i = (-1)%Z.
Proof.
  intros H; revert i; induction H as [|d rest Hd _ IH]; intros i; simpl.
  - reflexivity.
  - rewrite Rltb_false by exact Hd. apply IH.
Qed.

Lemma FindNextImu_none (b : list ImuData) (t : R) :
  none_newer b t -> FindNextImu b t = (-1)%Z.
Proof. apply FindNextImu_from_none. Qed.


End ImuFacts.

(* ------------------------------------------------------------------ *)
(** * Predict without a newer sample (C2) *)

Section PredictNoSample.
Context {so3ops : SO3Ops} {numerics : Numerics}.

(** C2, as the code has it.  When no sample of the buffer is newer than
    [t0], [ImuTrajectory::Predict] of imu.cpp stops at [CHECK_GE(ibuf, 0)]:
    the process aborts, nothing is returned and no state has been written.
    The earlier [Predict] of part_000 returns 0 and leaves the trajectory
    as it was. *)
Theorem C2_predict_without_newer_sample (t0 dt : R) :
  (forall traj : Imu.ImuTrajectory,
      none_newer (Imu.buf traj) t0 ->
      Imu.Predict traj t0 dt = Aborts CheckFailed)
  /\
  (forall tr : ImuEarly.ImuTrajectory,
      none_newer (ImuEarly.buf tr) t0 ->
      ImuEarly.Predict tr t0 dt = Returns (tr, 0%Z)).
Proof.
  split.
  - intros traj H. unfold Imu.Predict.
    rewrite (FindNextImu_none _ _ H). reflexivity.
  - intros tr H. unfold ImuEarly.Predict, ImuEarly.FindNextImu.
    rewrite (FindNextImu_none _ _ H). reflexivity.
Qed.

End PredictNoSample.

Lemma stale_none_newer : none_newer [Sample.imu_at 0.5] 1.
Proof. constructor; [simpl; lra | constructor]. Qed.

(** C2, witness: the trajectory whose only sample is older than its start. *)
Lemma C2_predict_witness :
  Imu.Predict Sample.stale_traj 1 0.1 = Aborts CheckFailed
  /\ ImuEarly.Predict Sample.stale_early 1 0.1 = Returns (Sample.stale_early, 0%Z).
Proof.
  split.
  - apply (proj1 (C2_predict_without_newer_sample 1 0.1)). exact stale_none_newer.
  - apply (proj2 (C2_predict_without_newer_sample 1 0.1)). exact stale_none_newer.
Defined.

(** C2, as stated, fails on imu.cpp: the buffer holds no sample newer than
    [t0 = 1], and the call does not return 0 with the states unchanged; it
    does not return at all. *)
Lemma C2_predict_counterexample :
  none_newer (Imu.buf Sample.stale_traj) 1
  /\ Imu.Predict Sample.stale_traj 1 0.1 <> Returns (Sample.stale_traj, 0%Z).
Proof.
  split; [exact stale_none_newer|].
  unfold Imu.Predict. change (Imu.buf Sample.stale_traj) with [Sample.imu_at 0.5].
  rewrite (FindNextImu_none _ _ stale_none_newer). discriminate.
Qed.

(* ------------------------------------------------------------------ *)
(** * Compute without a sample in the window (C3) *)

Section ComputeNoSample.
Context {so3ops : SO3Ops} {numerics : Numerics} {scanops : Grid.ScanOps}
        {costops : Cost.CostOps}.


End ComputeNoSample.



(* ------------------------------------------------------------------ *)
(** * The grain size of the residual loop (C9) *)

Section GrainSize.
Context {so3ops : SO3Ops} {numerics : Numerics} {scanops : Grid.ScanOps}
        {costops : Cost.CostOps}.
Import Cost.

Lemma gsize_ctor (gsize : Z) :
  gsize_ (GicpCost_ctor gsize) = if (gsize <=? 0)%Z then 0%Z else (gsize + 2)%Z.
Proof. unfold GicpCost_ctor. simpl. destruct (gsize <=? 0)%Z; reflexivity. Qed.

Lemma gsize_UpdateMatches (cost cost' : GicpCost) (grid : Grid.SweepGrid) :
  UpdateMatches cost grid = Returns cost' -> gsize_ cost' = gsize_ cost.
Proof.
  unfold UpdateMatches. intros H.
  apply bind_Returns in H. destruct H as [ms [_ H]].
  inversion H. reflexivity.
Qed.

End GrainSize.

(** C9, the code at [GicpCost(0)] followed by [UpdateMatches] on a grid
    with one good match: the grain size was fixed in the constructor, where
    the vector of matches is still empty, so it is 0 and not the number of
    collected matches, which is 1. *)
Theorem C9_grain_size_fixed_before_matches :
  exists cost,
    Cost.UpdateMatches (Cost.GicpCost_ctor 0) Sample.one_cell_grid = Returns cost
    /\ Cost.matches cost = [Sample.good_match]
    /\ Cost.gsize_ cost = 0%Z
    /\ Cost.gsize_ cost <> Z.of_nat (length (Cost.matches cost)).
Proof.
  eexists. split; [reflexivity|].
  repeat split. simpl. discriminate.
Qed.

(* ------------------------------------------------------------------ *)
(** * The slice boundary check (C4) *)

Section BoundaryCheck.
Context {so3ops : SO3Ops} {scanops : Grid.ScanOps}.
Import Grid.
Open Scope Z_scope.

(** What [Check] accepts: the start of the slice is compared with the
    previous end taken modulo the number of grid columns. *)
Lemma Check_accepts (g : SweepGrid) (scan : LidarScan) :
  Check g scan = Returns tt <->
  rows (xyzr scan) = rows (score g) * height (cell_size g)
  /\ cols (score g) <> 0
  /\ rg_start (scan_col_rg scan) = Z.rem (rg_end (col_rg g) * width (cell_size g)) (cols (score g))
  /\ rg_end (scan_col_rg scan) <= cols (score g) * width (cell_size g).
Proof.
  unfold Check, CHECK.
  destruct (Z.eqb_spec (rows (xyzr scan)) (rows (score g) * height (cell_size g)));
    simpl; [|split; [discriminate | tauto]].
  destruct (Z.eqb_spec (cols (score g)) 0);
    simpl; [split; [discriminate | tauto]|].
  destruct (Z.eqb_spec (rg_start (scan_col_rg scan))
                       (Z.rem (rg_end (col_rg g) * width (cell_size g)) (cols (score g))));
    simpl; [|split; [discriminate | tauto]].
  destruct (Z.leb_spec (rg_end (scan_col_rg scan)) (cols (score g) * width (cell_size g)));
    simpl; split; try discriminate; try tauto; intros; lia.
Qed.

End BoundaryCheck.

(** C4, the code on a sweep of 8 columns cut into cells of 2 columns (4 grid
    columns).  The slices [0, 4) and [4, 8) tile the sweep; the first is
    accepted and the second is rejected, because its start 4 is compared
    with (2 * 2) % 4 = 0.  After the slice [0, 6) the slice [2, 8), which
    starts off the boundary, is accepted, and the slice [6, 8), which
    continues where the previous one ended, is rejected. *)
Theorem C4_boundary_check_on_tiling_slices :
  exists g0 g1 n1 g2 n2 g3 n3,
    Grid.SweepGrid_ctor (Grid.mkSize 8 1) Sample.params_2x1 = Returns g0
    /\ Grid.Add g0 (Sample.slice 0 4) 0 = Returns (g1, n1)
    /\ Grid.Add g1 (Sample.slice 4 8) 0 = Aborts CheckFailed
    /\ Grid.Add g0 (Sample.slice 0 6) 0 = Returns (g2, n2)
    /\ Grid.Add g2 (Sample.slice 2 8) 0 = Returns (g3, n3)
    /\ Grid.Add g2 (Sample.slice 6 8) 0 = Aborts CheckFailed.
Proof.
  do 7 eexists.
  split; [run_code; reflexivity|].
  split; [run_code; reflexivity|].
  split; [run_code; reflexivity|].
  split; [run_code; reflexivity|].
  split; [run_code; reflexivity|].
  run_code; reflexivity.
Qed.

(* ------------------------------------------------------------------ *)
(** * One step of preintegration (C7) and the length of the window (C10) *)

Section Preintegration.
Context {so3ops : SO3Ops} {numerics : Numerics}.
Import Imu.
Open Scope R_scope.

Lemma Integrate_positive (p : ImuPreintegration) (dt : R) (imu : ImuData) (nz : ImuNoise)
      (p' : ImuPreintegration) :
  Integrate p dt imu nz = Returns p' -> 0 < dt.
Proof.
  unfold Integrate, CHECK, Rltb. destruct (Rlt_dec 0 dt); simpl; [auto | discriminate].
Qed.




End Preintegration.

Section PreintegrationRuns.
Context {so3ops : SO3Ops} {numerics : Numerics}.
Import Imu.
Open Scope R_scope.

Lemma Integrate_returns (p : ImuPreintegration) (dt : R) (imu : ImuData) (nz : ImuNoise) :
  0 < dt -> exists p', Integrate p dt imu nz = Returns p'.
Proof.
  intros H. unfold Integrate. rewrite Rltb_true by exact H. simpl. eauto.
Qed.

(** On a buffer with growing time stamps the loop ends, at its first sample
    or at one older than [t1]. *)
Lemma Compute_loop_returns (bs : ImuBias) (nz : ImuNoise) (t1 : R) (samples : list ImuData) :
  forall (p : ImuPreintegration) (t : R) (d0 : ImuData),
    increasing t samples -> hd_error samples = Some d0 ->
    exists p' d, Compute_loop bs nz t1 samples p t = Returns (p', d)
                 /\ (imu_time d < t1 \/ d = d0).
Proof.
  induction samples as [|a rest IH]; intros p t d0 Hinc Hhd; simpl in Hhd; [discriminate|].
  inversion Hhd; subst a. destruct Hinc as [Ht Hinc]. simpl.
  destruct (Integrate_returns p (imu_time d0 - t) (DeBiased d0 bs) nz) as [p1 E]; [lra|].
  rewrite E. simpl.
  destruct rest as [|d1 rest'].
  - exists p1, d0. auto.
  - unfold Rleb. destruct (Rle_dec t1 (imu_time d1)) as [Hle|Hgt].
    + exists p1, d0. auto.
    + destruct (IH p1 (imu_time d0) d1 Hinc eq_refl) as [p' [d [E' Hd]]].
      exists p', d. split; [exact E'|]. left.
      destruct Hd as [Hd | ->]; lra.
Qed.

Lemma FindNextImu_from_split (older rest : list ImuData) (d : ImuData) (t : R) (i : Z) :
  none_newer older t -> t < imu_time d ->
  FindNextImu_from (older ++ d :: rest) t i = (i + Z.of_nat (length older))%Z.
Proof.
  intros H; revert i; induction H as [|a l Ha _ IH]; intros i Hd; simpl.
  - rewrite Rltb_true by exact Hd. lia.
  - rewrite Rltb_false by exact Ha. rewrite IH by exact Hd. lia.
Qed.

(** [Compute] does return: whenever the window is not empty, its first
    sample lies inside it and the time stamps from there on grow. *)
Lemma Compute_between_returns (p : ImuPreintegration) (older rest : list ImuData)
      (d : ImuData) (bs : ImuBias) (nz : ImuNoise) (t0 t1 : R) :
  t0 < t1 -> none_newer older t0 -> imu_time d < t1 -> increasing t0 (d :: rest) ->
  exists p' k, Compute_between p (older ++ d :: rest) bs nz t0 t1 = Returns (p', k).
Proof.
  intros H01 Hold Hd1 Hinc. unfold Compute_between, FindNextImu.
  rewrite Rltb_true by exact H01. simpl.
  rewrite (FindNextImu_from_split older rest d t0 0%Z Hold (proj1 Hinc)).
  replace (0 <=? 0 + Z.of_nat (length older))%Z with true
    by (symmetry; apply Z.leb_le; lia).
  simpl. rewrite Nat2Z.id.
  replace (skipn (length older) (older ++ d :: rest)) with (d :: rest)
    by (rewrite skipn_app, skipn_all, Nat.sub_diag; reflexivity).
  destruct (Compute_loop_returns bs nz t1 (d :: rest) p t0 d Hinc eq_refl)
    as [p1 [d' [E Hd']]].
  rewrite E. simpl.
  destruct (Integrate_returns p1 (t1 - imu_time d') (DeBiased d' bs) nz) as [p2 E2].
  { destruct Hd' as [Hd' | ->]; lra. }
  simpl in E2. rewrite E2. simpl. eauto.
Qed.

End PreintegrationRuns.

Section WindowLength.
Context {so3ops : SO3Ops} {numerics : Numerics} {scanops : Grid.ScanOps}
        {costops : Cost.CostOps}.
Open Scope R_scope.


End WindowLength.

Lemma live_window_returns (p : Imu.ImuPreintegration) :
  exists p' k,
    Imu.Compute_between p
      [Sample.imu_at 0.5; Sample.imu_at 1.25; Sample.imu_at 1.5; Sample.imu_at 1.75;
       Sample.imu_at 2.5] Sample.no_bias Sample.no_noise 1 2 = Returns (p', k).
Proof.
  apply (Compute_between_returns p [Sample.imu_at 0.5]
           [Sample.imu_at 1.5; Sample.imu_at 1.75; Sample.imu_at 2.5] (Sample.imu_at 1.25)).
  - lra.
  - exact stale_none_newer.
  - simpl; lra.
  - simpl. repeat split; lra.
Qed.


Section IntegrateStep.
Context {so3ops : SO3Ops} {numerics : Numerics}.
Import Imu.
Open Scope R_scope.

(** C7.  One [Integrate(dt, imu, noise)] with [dt > 0] returns, and with
    a = imu.acc, w = imu.gyr and the values before the step
      dgamma = exp(w * dt), dbeta = gamma * a * dt,
      dalpha = beta * dt + 0.5 * gamma * a * dt^2,
    it leaves alpha + dalpha, beta + dbeta, gamma * dgamma, duration + dt
    and n + 1.  The covariance becomes F * P * F^T * dt^2, with F the
    Jacobian after this step's five block assignments, plus [sigma2] on the
    last twelve entries of the diagonal (rows 3 to 14). *)
Theorem C7_integrate_step (p : ImuPreintegration) (dt : R) (imu : ImuData) (nz : ImuNoise) :
  0 < dt ->
  exists p',
    Integrate p dt imu nz = Returns p'
    /\ alpha p' = v3_add (alpha p)
                    (v3_add (v3_scale dt (beta p))
                            (v3_scale (0.5 * dt ^ 2) (so3_act (gamma p) (acc imu))))
    /\ beta p' = v3_add (beta p) (v3_scale dt (so3_act (gamma p) (acc imu)))
    /\ gamma p' = so3_mul (gamma p) (so3_exp (v3_muls (gyr imu) dt))
    /\ duration p' = duration p + dt
    /\ n p' = (n p + 1)%Z
    /\ (forall i j,
           P p' i j =
           mat_mul 15 (mat_mul 15 (F p') (P p)) (mat_transpose (F p')) i j * dt ^ 2
           + (if (i =? j)%nat && (3 <=? i)%nat && (i <? 15)%nat
              then sigma2 nz (i - 3)%nat else 0))
    /\ get_block3 (F p') ALPHA BETA = m3_ident
    /\ get_block3 (F p') BETA THETA = m3_mul (m3_neg (so3_matrix (gamma p))) (Hat3 (acc imu))
    /\ get_block3 (F p') BETA BA = m3_neg (so3_matrix (gamma p))
    /\ get_block3 (F p') THETA THETA = m3_neg (Hat3 (gyr imu))
    /\ get_block3 (F p') THETA BW = m3_neg m3_ident.
Proof.
  intros Hdt. unfold Integrate. rewrite Rltb_true by exact Hdt.
  eexists. split; [reflexivity|]. cbn [alpha beta gamma duration n P F].
  split; [|split; [|split; [|split; [|split; [|split]]]]]; try reflexivity.
  - unfold v3_add, v3_muls, v3_scale, Sq. cbn [vx vy vz]. f_equal; f_equal; ring.
  - unfold v3_add, v3_muls, v3_scale. cbn [vx vy vz]. f_equal; f_equal; ring.
  - intros i j. unfold add_diag_tail, mat_scale, in_rg, kFullDim, kDim, Sq.
    change (15 - 12)%nat with 3%nat. change (3 + 12)%nat with 15%nat.
    rewrite <- andb_assoc.
    destruct ((i =? j)%nat && ((3 <=? i)%nat && (i <? 15)%nat)); ring.
  - repeat split.
Qed.

End IntegrateStep.

(** C7, witness: a quarter of a second on a fresh preintegration. *)
Lemma C7_integrate_witness :
  (0 < 0.25)%R
  /\ exists p',
       Imu.Integrate (Imu.Reset Sample.zero_preint) 0.25 (Sample.imu_at 1) Sample.no_noise
       = Returns p'
       /\ Imu.duration p' = (0 + 0.25)%R /\ Imu.n p' = 1%Z.
Proof.
  assert (H : (0 < 0.25)%R) by lra.
  split; [exact H|].
  destruct (C7_integrate_step (Imu.Reset Sample.zero_preint) 0.25%R (Sample.imu_at 1)
              Sample.no_noise H) as [p' [E [_ [_ [_ [Hd [Hn _]]]]]]].
  exists p'. split; [exact E|]. split; [exact Hd | exact Hn].
Defined.

(* ------------------------------------------------------------------ *)
(** * The rigid trajectory update (C8) *)

Section RigidUpdate.
Context {so3ops : SO3Ops} {numerics : Numerics} {scanops : Grid.ScanOps}
        {costops : Cost.CostOps}.
Import Imu Cost.
Open Scope R_scope.

(** C8.  [GicpRigidCost::UpdateTraj] rewrites state 0 only: with
    eR = exp(r0) and (r0, p0) the accumulated correction, its rotation
    becomes eR * rot, its position eR * pos + p0 and its velocity
    vel + p0 / duration, where duration = back.time - front.time; its time
    and every state of index 1 or more are what they were. *)
Theorem C8_rigid_update_touches_first_state_only
        (cost : GicpCost) (traj : Trajectory) (s0 : NavState) (rest : list NavState) :
  states traj = s0 :: rest ->
  exists traj' s_last,
    Rigid_UpdateTraj cost traj = Returns traj'
    /\ back traj = Returns s_last
    /\ nth_error (states traj') 0 =
       Some (mkNavState (time s0)
               (so3_mul (so3_exp (State_r0 (error cost))) (rot s0))
               (v3_add (so3_act (so3_exp (State_r0 (error cost))) (pos s0))
                       (State_p0 (error cost)))
               (v3_add (vel s0) (v3_div (State_p0 (error cost)) (time s_last - time s0))))
    /\ (forall i, (1 <= i)%nat -> nth_error (states traj') i = nth_error (states traj) i)
    /\ length (states traj') = length (states traj)
    /\ g_pano traj' = g_pano traj.
Proof.
  intros Hs.
  assert (Hf : vec_front (states traj) = Returns s0) by (rewrite Hs; reflexivity).
  destruct (vec_back_front _ _ Hf) as [s_last Hb].
  unfold Rigid_UpdateTraj, Trajectory_duration, back, front.
  rewrite Hb, Hf. cbn [bind].
  eexists. exists s_last. split; [reflexivity|]. split; [reflexivity|].
  cbn [states g_pano]. rewrite Hs. cbn [list_set nth_error].
  split; [reflexivity|]. split; [|split; reflexivity].
  intros [|i] Hi; [lia | reflexivity].
Qed.

End RigidUpdate.

(** C8, witness: a correction on the two-state trajectory. *)
Lemma C8_rigid_update_witness :
  exists traj',
    Cost.Rigid_UpdateTraj (Cost.ResetError (Cost.GicpCost_ctor 0)) Sample.cost_traj
    = Returns traj'
    /\ nth_error (Cost.states traj') 1 = Some (Sample.state_at 2).
Proof.
  destruct (C8_rigid_update_touches_first_state_only
              (Cost.ResetError (Cost.GicpCost_ctor 0)) Sample.cost_traj
              (Sample.state_at 1) [Sample.state_at 2] eq_refl)
    as [traj' [s_last [E [_ [_ [Hrest _]]]]]].
  exists traj'. split; [exact E|].
  rewrite (Hrest 1%nat (le_n 1)). reflexivity.
Defined.

(* ------------------------------------------------------------------ *)
(** * Writes into the residual vector and the Jacobian *)

Lemma in_rg_spec (lo len i : nat) :
  in_rg lo len i = true <-> (lo <= i < lo + len)%nat.
Proof.
  unfold in_rg. rewrite andb_true_iff, Nat.leb_le, Nat.ltb_lt. tauto.
Qed.

Lemma in_rg_true (lo len i : nat) : (lo <= i < lo + len)%nat -> in_rg lo len i = true.
Proof. apply in_rg_spec. Qed.

Lemma in_rg_false (lo len i : nat) : ~ (lo <= i < lo + len)%nat -> in_rg lo len i = false.
Proof.
  intros H. destruct (in_rg lo len i) eqn:E; [|reflexivity].
  apply in_rg_spec in E. contradiction.
Qed.

Lemma set_block3_inside (J : MatrixXd) (row col : nat) (b : Matrix3d) (i j : nat) :
  (i < 3)%nat -> (j < 3)%nat ->
  set_block3 J row col b (row + i)%nat (col + j)%nat = m3_at b i j.
Proof.
  intros Hi Hj. unfold set_block3.
  rewrite !in_rg_true by lia. simpl.
  replace (row + i - row)%nat with i by lia.
  replace (col + j - col)%nat with j by lia. reflexivity.
Qed.

Lemma set_block3_other_row (J : MatrixXd) (row col : nat) (b : Matrix3d) (i j : nat) :
  ~ (row <= i < row + 3)%nat -> set_block3 J row col b i j = J i j.
Proof.
  intros H. unfold set_block3. rewrite (in_rg_false row 3 i) by exact H. reflexivity.
Qed.

Lemma set_block3_other_col (J : MatrixXd) (row col : nat) (b : Matrix3d) (i j : nat) :
  ~ (col <= j < col + 3)%nat -> set_block3 J row col b i j = J i j.
Proof.
  intros H. unfold set_block3. rewrite (in_rg_false col 3 j) by exact H.
  rewrite andb_false_r. reflexivity.
Qed.

Lemma get_block3_ext (J : MatrixXd) (row col : nat) (b : Matrix3d) :
  (forall i j, (i < 3)%nat -> (j < 3)%nat -> J (row + i)%nat (col + j)%nat = m3_at b i j) ->
  get_block3 J row col = b.
Proof.
  intros H. unfold get_block3.
  pose proof (H 0 0)%nat as H00. pose proof (H 0 1)%nat as H01. pose proof (H 0 2)%nat as H02.
  pose proof (H 1 0)%nat as H10. pose proof (H 1 1)%nat as H11. pose proof (H 1 2)%nat as H12.
  pose proof (H 2 0)%nat as H20. pose proof (H 2 1)%nat as H21. pose proof (H 2 2)%nat as H22.
  rewrite (Nat.add_0_r col) in H00, H10, H20.
  rewrite H00, H01, H02, H10, H11, H12, H20, H21, H22 by lia.
  destruct b as [[a0 a1 a2] [b0 b1 b2] [c0 c1 c2]]. reflexivity.
Qed.

Lemma v3_add_zero_r (v : Vector3d) : v3_add v v3_zero = v.
Proof. destruct v. unfold v3_add, v3_zero. simpl. f_equal; ring. Qed.

Lemma v3_sub_diag (v : Vector3d) : v3_sub v v = v3_zero.
Proof. unfold v3_sub, v3_zero. f_equal; ring. Qed.

Lemma v3_scale_zero (s : R) : v3_scale s v3_zero = v3_zero.
Proof. unfold v3_scale, v3_zero. simpl. f_equal; ring. Qed.

Lemma m3_mulv_zero (m : Matrix3d) : m3_mulv m v3_zero = v3_zero.
Proof. unfold m3_mulv, v3_dot, v3_zero. simpl. f_equal; ring. Qed.

Lemma set_seg3_zero (r : VectorXd) (off k : nat) :
  set_seg3 r off v3_zero k = if in_rg off 3 k then 0%R else r k.
Proof.
  unfold set_seg3. destruct (in_rg off 3 k); [|reflexivity].
  destruct (k - off)%nat as [|[|?]]; reflexivity.
Qed.

(** The exponential of the rotation-matrix instance at zero is the identity. *)
Lemma rodrigues_zero_fixes : @exp_zero_fixes RotationMatrix.
Proof.
  intros [x y z]. cbn [so3_act so3_exp RotationMatrix]. unfold rodrigues.
  generalize (if Req_dec_T (sqrt (v3_dot v3_zero v3_zero)) 0
              then 1 else sin (sqrt (v3_dot v3_zero v3_zero)) / sqrt (v3_dot v3_zero v3_zero))%R.
  generalize (if Req_dec_T (sqrt (v3_dot v3_zero v3_zero)) 0
              then / 2 else (1 - cos (sqrt (v3_dot v3_zero v3_zero))) / v3_dot v3_zero v3_zero)%R.
  intros B A.
  cbv [m3_mulv m3_add m3_scale m3_map m3_mul m3_col m3_at m3_row v3_at Hat3
       m3_ident v3_add v3_scale v3_dot v3_zero vx vy vz row0 row1 row2].
  f_equal; ring.
Qed.

(* ------------------------------------------------------------------ *)
(** * The Jacobian rows of the IMU residual (C1) *)

Section ImuJacobian.
Context {so3ops : SO3Ops} {numerics : Numerics} {scanops : Grid.ScanOps}
        {costops : Cost.CostOps}.
Import Imu Grid Cost.

(** The loop over the matches keeps the Jacobian and leaves the rows after
    the last match as they were. *)
Lemma Rigid_loop_rows (grid : SweepGrid) (eT : SE3d) (ms : list PointMatch) :
  forall (i0 : nat) (r : VectorXd) (J : MatrixXd),
  exists r' J',
    parallel_for ms i0 (Rigid_match grid eT) (r, Some J) = (r', Some J')
    /\ forall i j, (3 * (i0 + length ms) <= i)%nat -> J' i j = J i j.
Proof.
  induction ms as [|m rest IH]; intros i0 r J; simpl.
  - exists r, J. auto.
  - destruct (IH (S i0)
                (set_seg3 r (kResidualDim * i0)
                   (m3_mulv (U m) (v3_sub (mean (mc_p m))
                      (se3_act eT (se3_act (TfAt grid (px_x (px_g m))) (mean (mc_g m)))))))
                (set_block3
                   (set_block3 J (kResidualDim * i0) (kR0 * 3)
                      (m3_mul (U m) (Hat3 (se3_act (TfAt grid (px_x (px_g m)))
                                                   (mean (mc_g m))))))
                   (kResidualDim * i0) (kP0 * 3) (m3_neg (U m))))
      as [r' [J' [E H]]].
    exists r', J'. split; [exact E|].
    intros i j Hi. rewrite H by lia.
    unfold kResidualDim. rewrite !set_block3_other_row by lia. reflexivity.
Qed.

(** The four block assignments of the IMU part amount to the last two. *)
Lemma Rigid_imu_jacobian_alpha_only (J : MatrixXd) (offset : nat) (Ua Ug R0t : Matrix3d)
      (p1_bar : Vector3d) (i j : nat) :
  Rigid_imu_jacobian J offset Ua Ug R0t p1_bar i j
  = set_block3
      (set_block3 J (offset + 3) (kR0 * 3) (m3_mul (m3_mul (m3_neg Ua) R0t) (Hat3 p1_bar)))
      (offset + 3) (kP0 * 3) (m3_mul Ua R0t) i j.
Proof.
  unfold Rigid_imu_jacobian, set_block3, kR0, kP0. simpl Nat.mul.
  destruct (in_rg (offset + 3) 3 i), (in_rg 3 3 j), (in_rg 0 3 j); reflexivity.
Qed.

(** C1.  In [GicpRigidCost::operator()], called with a trajectory attached
    and a Jacobian to fill, the gamma block and the alpha block of the IMU
    residual are both assigned at rows offset+3 .. offset+5, where
    offset = 3 * (number of matches).  What is left there is the alpha
    block, -Ua * R0^T * Hat3(p1_bar) in the r0 columns and Ua * R0^T in the
    p0 columns; from row offset on the Jacobian is its input with only
    these two blocks written, so the gamma block is gone and rows
    offset .. offset+2 hold what the caller passed in. *)
Theorem C1_imu_jacobian_blocks_share_rows
        (cost : GicpCost) (traj : Trajectory) (st0 st1 : NavState)
        (x r : VectorXd) (J : MatrixXd) :
  ptraj cost = Some traj ->
  front traj = Returns st0 ->
  back traj = Returns st1 ->
  (matches cost = [] \/ pgrid cost <> None) ->
  let offset := (3 * length (matches cost))%nat in
  let Um := mat_scale (Imu.U (preint cost)) (imu_weight cost) in
  let Ua := get_block3 Um kAlpha kAlpha in
  let R0t := so3_matrix (so3_inverse (rot st0)) in
  let Ja := m3_mul (m3_mul (m3_neg Ua) R0t) (Hat3 (pos st1)) in
  let Jp := m3_mul Ua R0t in
  exists r' J',
    Rigid_operator cost x r (Some J) = Returns (true, r', Some J')
    /\ get_block3 J' (offset + 3) (kR0 * 3) = Ja
    /\ get_block3 J' (offset + 3) (kP0 * 3) = Jp
    /\ (forall i j, (offset <= i)%nat ->
          J' i j = set_block3 (set_block3 J (offset + 3) (kR0 * 3) Ja)
                              (offset + 3) (kP0 * 3) Jp i j)
    /\ (forall i j, (offset <= i < offset + 3)%nat -> J' i j = J i j).
Proof.
  intros Htraj Hf Hb Hgrid offset Um Ua R0t Ja Jp.
  assert (Hloop : exists r1 J1,
             match matches cost, pgrid cost with
             | [], _ => Returns (r, Some J)
             | _ :: _, None => Aborts Undefined
             | ms, Some grid =>
                 Returns (parallel_for ms 0
                            (Rigid_match grid
                               (mkSE3 (so3_exp (State_r0 x)) (State_p0 x))) (r, Some J))
             end = Returns (r1, Some J1)
             /\ forall i j, (offset <= i)%nat -> J1 i j = J i j).
  { destruct (matches cost) as [|m ms] eqn:Em.
    - exists r, J. auto.
    - destruct (pgrid cost) as [grid|] eqn:Eg.
      + destruct (Rigid_loop_rows grid (mkSE3 (so3_exp (State_r0 x)) (State_p0 x))
                    (m :: ms) 0 r J) as [r1 [J1 [E H]]].
        exists r1, J1. rewrite E. split; [reflexivity|].
        intros i j Hi. apply H. unfold offset in Hi. simpl in *. lia.
      + destruct Hgrid as [Hgrid | Hgrid]; [discriminate | contradiction]. }
  destruct Hloop as [r1 [J1 [E1 HJ1]]].
  unfold Rigid_operator. rewrite E1. cbn [bind]. rewrite Htraj, Hf. cbn [bind].
  rewrite Hb. cbn [bind].
  eexists. eexists. split; [reflexivity|].
  assert (Hall : forall i j, (offset <= i)%nat ->
            Rigid_imu_jacobian J1 (length (matches cost) * kResidualDim) Ua
              (get_block3 Um kTheta kTheta) R0t (pos st1) i j
            = set_block3 (set_block3 J (offset + 3) (kR0 * 3) Ja)
                         (offset + 3) (kP0 * 3) Jp i j).
  { intros i j Hi. rewrite Rigid_imu_jacobian_alpha_only.
    replace (length (matches cost) * kResidualDim)%nat with offset
      by (unfold offset, kResidualDim; lia).
    fold Ja Jp. unfold set_block3.
    destruct (in_rg (offset + 3) 3 i && in_rg (kP0 * 3) 3 j); [reflexivity|].
    destruct (in_rg (offset + 3) 3 i && in_rg (kR0 * 3) 3 j); [reflexivity|].
    apply HJ1. exact Hi. }
  split; [|split; [|split]].
  - apply get_block3_ext. intros i j Hi Hj. rewrite Hall by lia.
    rewrite set_block3_other_col by (unfold kP0, kR0; lia).
    apply set_block3_inside; assumption.
  - apply get_block3_ext. intros i j Hi Hj. rewrite Hall by lia.
    apply set_block3_inside; assumption.
  - exact Hall.
  - intros i j Hi. rewrite Hall by lia.
    rewrite !set_block3_other_row by lia. reflexivity.
Qed.

End ImuJacobian.

(** C1, witness: one match, the two-state trajectory attached, and a
    Jacobian buffer filled with sevens; row 3 = offset still holds them. *)
Lemma C1_imu_jacobian_witness :
  exists r' J',
    Cost.Rigid_operator Sample.attached_cost (fun _ => 0%R) (fun _ => 0%R)
                        (Some (fun _ _ => 7%R))
    = Returns (true, r', Some J')
    /\ forall j, J' 3%nat j = 7%R.
Proof.
  assert (Hg : Cost.matches Sample.attached_cost = []
               \/ Cost.pgrid Sample.attached_cost <> None) by (right; discriminate).
  destruct (C1_imu_jacobian_blocks_share_rows Sample.attached_cost Sample.cost_traj
              (Sample.state_at 1) (Sample.state_at 2) (fun _ => 0%R) (fun _ => 0%R)
              (fun _ _ => 7%R) eq_refl eq_refl eq_refl Hg)
    as [r' [J' [E [_ [_ [_ H]]]]]].
  exists r', J'. split; [exact E|].
  intros j. apply (H 3%nat j). simpl. lia.
Defined.

(* ------------------------------------------------------------------ *)
(** * Residuals of matches that already agree (C6) *)

Section IdentityResiduals.
Context {so3ops : SO3Ops} {numerics : Numerics} {scanops : Grid.ScanOps}
        {costops : Cost.CostOps}.
Import Imu Grid Cost.
Open Scope R_scope.

(** A loop whose body writes a zero 3-vector at [3 * i] leaves zeros on the
    stripe of the matches and nothing else changed. *)
Lemma loop_writes_zeros (body : nat -> PointMatch -> VectorXd * option MatrixXd
                                -> VectorXd * option MatrixXd)
      (ms : list PointMatch) :
  (forall i m r J k, In m ms ->
      fst (body i m (r, J)) k = set_seg3 r (3 * i) v3_zero k) ->
  forall (i0 : nat) (r : VectorXd) (J : option MatrixXd) (k : nat),
    fst (parallel_for ms i0 body (r, J)) k
    = if in_rg (3 * i0) (3 * length ms) k then 0 else r k.
Proof.
  induction ms as [|m rest IH]; intros Hbody i0 r J k.
  - simpl. rewrite in_rg_false by lia. reflexivity.
  - cbn [parallel_for].
    destruct (body i0 m (r, J)) as [r1 J1] eqn:E.
    rewrite IH by (intros; apply Hbody; right; assumption).
    assert (Hr1 : r1 k = set_seg3 r (3 * i0) v3_zero k).
    { rewrite <- (Hbody i0 m r J k (or_introl eq_refl)), E. reflexivity. }
    rewrite Hr1, set_seg3_zero.
    destruct (in_rg (3 * S i0) (3 * length rest) k) eqn:E1,
             (in_rg (3 * i0) 3 k) eqn:E2,
             (in_rg (3 * i0) (3 * length (m :: rest)) k) eqn:E3;
      try reflexivity; exfalso;
      rewrite ?in_rg_spec in *;
      try (apply not_true_iff_false in E1; rewrite in_rg_spec in E1);
      try (apply not_true_iff_false in E2; rewrite in_rg_spec in E2);
      try (apply not_true_iff_false in E3; rewrite in_rg_spec in E3);
      simpl length in *; lia.
Qed.

Lemma State_zero (x : VectorXd) :
  (forall k, (k < 6)%nat -> x k = 0) -> State_r0 x = v3_zero /\ State_p0 x = v3_zero.
Proof.
  intros H. unfold State_r0, State_p0, get_seg3, kR0, kP0, v3_zero. simpl.
  rewrite !H by lia. split; reflexivity.
Qed.

(** C6.  For both cost variants: with xi = 0, no trajectory attached and
    every match satisfying mc_p.mean = T_p_g(c) * mc_g.mean, [operator()]
    returns true and every residual entry it writes, the entries
    0 .. 3 * (number of matches) - 1, is zero; it writes no other entry.
    The one fact about Sophus used is that exp(0) moves no point. *)
Theorem C6_zero_residuals_at_identity
        (cost : GicpCost) (grid : SweepGrid) (x r : VectorXd) (J : option MatrixXd) :
  exp_zero_fixes ->
  ptraj cost = None ->
  pgrid cost = Some grid ->
  (forall k, (k < 6)%nat -> x k = 0) ->
  matches_agree grid (matches cost) ->
  (exists r' J',
      Rigid_operator cost x r J = Returns (true, r', J')
      /\ (forall k, (k < 3 * length (matches cost))%nat -> r' k = 0)
      /\ (forall k, (3 * length (matches cost) <= k)%nat -> r' k = r k))
  /\
  (exists r' J',
      Linear_operator cost x r J = Returns (true, r', J')
      /\ (forall k, (k < 3 * length (matches cost))%nat -> r' k = 0)
      /\ (forall k, (3 * length (matches cost) <= k)%nat -> r' k = r k)).
Proof.
  intros Hexp Htraj Hgrid Hx Hagree. unfold exp_zero_fixes in Hexp.
  destruct (State_zero x Hx) as [Hr0 Hp0].
  assert (Hrigid : forall i m r0 J0 k, In m (matches cost) ->
            fst (Rigid_match grid (mkSE3 (so3_exp (State_r0 x)) (State_p0 x)) i m (r0, J0)) k
            = set_seg3 r0 (3 * i) v3_zero k).
  { intros i m r0 J0 k Hin. unfold Rigid_match. cbn [fst]. unfold kResidualDim.
    rewrite (Hagree m Hin), Hr0, Hp0.
    replace (se3_act (mkSE3 (so3_exp v3_zero) v3_zero)
               (se3_act (TfAt grid (px_x (px_g m))) (mean (mc_g m))))
      with (se3_act (TfAt grid (px_x (px_g m))) (mean (mc_g m)))
      by (unfold se3_act at 2; cbn [so3 translation];
          rewrite Hexp, v3_add_zero_r; reflexivity).
    rewrite v3_sub_diag, m3_mulv_zero. reflexivity. }
  assert (Hlinear : forall i m r0 J0 k, In m (matches cost) ->
            fst (Linear_match grid (so3_exp (State_r0 x)) (State_p0 x) i m (r0, J0)) k
            = set_seg3 r0 (3 * i) v3_zero k).
  { intros i m r0 J0 k Hin. unfold Linear_match. cbn [fst]. unfold kResidualDim.
    rewrite (Hagree m Hin), Hr0, Hp0.
    rewrite Hexp, v3_scale_zero, v3_add_zero_r, v3_sub_diag, m3_mulv_zero. reflexivity. }
  split.
  - unfold Rigid_operator. rewrite Hgrid.
    destruct (matches cost) as [|m ms] eqn:Em.
    + cbn [bind]. rewrite Htraj. exists r, J. split; [reflexivity|].
      split; intros k Hk; [simpl in Hk; lia | reflexivity].
    + destruct (parallel_for (m :: ms) 0
                  (Rigid_match grid (mkSE3 (so3_exp (State_r0 x)) (State_p0 x))) (r, J))
        as [r' J'] eqn:E.
      cbn [bind]. rewrite Htraj. exists r', J'. split; [reflexivity|].
      assert (Hr' : forall k, r' k = if in_rg (3 * 0) (3 * length (m :: ms)) k then 0 else r k).
      { intros k. rewrite <- (loop_writes_zeros _ (m :: ms) Hrigid 0%nat r J k), E.
        reflexivity. }
      split; intros k Hk; rewrite Hr'.
      * rewrite in_rg_true by lia. reflexivity.
      * rewrite in_rg_false by lia. reflexivity.
  - unfold Linear_operator. rewrite Hgrid.
    destruct (matches cost) as [|m ms] eqn:Em.
    + cbn [bind]. rewrite Htraj. exists r, J. split; [reflexivity|].
      split; intros k Hk; [simpl in Hk; lia | reflexivity].
    + destruct (parallel_for (m :: ms) 0
                  (Linear_match grid (so3_exp (State_r0 x)) (State_p0 x)) (r, J))
        as [r' J'] eqn:E.
      cbn [bind]. rewrite Htraj. exists r', J'. split; [reflexivity|].
      assert (Hr' : forall k, r' k = if in_rg (3 * 0) (3 * length (m :: ms)) k then 0 else r k).
      { intros k. rewrite <- (loop_writes_zeros _ (m :: ms) Hlinear 0%nat r J k), E.
        reflexivity. }
      split; intros k Hk; rewrite Hr'.
      * rewrite in_rg_true by lia. reflexivity.
      * rewrite in_rg_false by lia. reflexivity.
Qed.

End IdentityResiduals.

Lemma sample_matches_agree :
  matches_agree Sample.one_cell_grid (Cost.matches Sample.gicp_only_cost).
Proof.
  intros m [<- | []].
  cbv [Sample.good_match Grid.mean Grid.mc_p Grid.mc_g Grid.px_g Grid.px_x Cost.TfAt
       Sample.SimpleCostOps Sample.one_cell_grid Grid.tfs Z.to_nat nth se3_act so3 translation
       so3_act RotationMatrix so3_ident m3_mulv m3_ident v3_dot v3_add v3_zero
       vx vy vz row0 row1 row2].
  f_equal; ring.
Qed.

(** C6, witness: one match that agrees with its prediction, residual
    buffer filled with fives; the three entries of the match become zero
    and the fourth keeps its five. *)
Lemma C6_zero_residuals_witness :
  (exists r' J',
      Cost.Rigid_operator Sample.gicp_only_cost (fun _ => 0%R) (fun _ => 5%R) None
      = Returns (true, r', J')
      /\ r' 0%nat = 0%R /\ r' 1%nat = 0%R /\ r' 2%nat = 0%R /\ r' 3%nat = 5%R)
  /\
  (exists r' J',
      Cost.Linear_operator Sample.gicp_only_cost (fun _ => 0%R) (fun _ => 5%R) None
      = Returns (true, r', J')
      /\ r' 0%nat = 0%R /\ r' 1%nat = 0%R /\ r' 2%nat = 0%R /\ r' 3%nat = 5%R).
Proof.
  destruct (C6_zero_residuals_at_identity Sample.gicp_only_cost Sample.one_cell_grid
              (fun _ => 0%R) (fun _ => 5%R) None
              rodrigues_zero_fixes eq_refl eq_refl (fun _ _ => eq_refl) sample_matches_agree)
    as [[r1 [J1 [E1 [Hz1 Hk1]]]] [r2 [J2 [E2 [Hz2 Hk2]]]]].
  split.
  - exists r1, J1. split; [exact E1|].
    repeat split; try (apply Hz1; simpl; lia). apply (Hk1 3%nat). simpl; lia.
  - exists r2, J2. split; [exact E2|].
    repeat split; try (apply Hz2; simpl; lia). apply (Hk2 3%nat). simpl; lia.
Defined.

(* ------------------------------------------------------------------ *)
(** * The filter (C5) *)

(** ** Comparing floats *)

Lemma SFcompare_antisym (x y : spec_float) :
  SFcompare y x = option_map CompOpp (SFcompare x y).
Proof.
  destruct x as [sx|sx| |sx mx ex], y as [sy|sy| |sy my ey]; simpl;
    try reflexivity;
    try (destruct sx; reflexivity); try (destruct sy; reflexivity);
    try (destruct sx, sy; reflexivity).
  pose proof (Pos.compare_cont_antisym mx my Eq) as Hm. simpl in Hm.
  destruct sx, sy; try reflexivity; f_equal;
    rewrite (Z.compare_antisym ey ex), <- Hm;
    destruct (Z.compare ey ex); simpl; try reflexivity.
Qed.

Section FloatOrder.
Import Grid.

(** For a score that passed the threshold, "not greater than the neighbour"
    is "at most the neighbour, a NaN neighbour counting as plus infinity". *)
Lemma not_fgt_le (m x bound : float) :
  flt m bound = true -> negb (fgt m x) = le_nan_as_inf m x.
Proof.
  unfold flt, fgt, le_nan_as_inf, SFltb, SFleb. intros Hm.
  assert (Hnan : m <> S754_nan) by (intros ->; simpl in Hm; congruence).
  clear Hm.
  destruct x as [sx|sx| |sx mx ex]; cbn [isnan].
  3: { destruct m as [s|s| |s mm e]; try congruence; try reflexivity.
       destruct s; reflexivity. }
  all: rewrite (SFcompare_antisym m _);
    destruct (SFcompare m _) as [[| |]|] eqn:E; try reflexivity;
    destruct m; simpl in E; congruence.
Qed.

End FloatOrder.

(** ** Loops that touch each key once *)

Section ForEachFrame.
Import Grid.
Variables (St V : Type).
Variable body : Z -> St -> outcome St.
Variable obs : St -> nat -> V.            (* what is stored under a key *)
Variable dom : Z -> Prop.                 (* the iterations of the loop *)
Variable ok : Z -> Prop.                  (* what a completed iteration tells *)
Variable touched : Z -> nat -> Prop.      (* the keys iteration [i] writes *)
Variable upd : Z -> nat -> V -> V.        (* what iteration [i] stores there *)
Variable defined : V -> Prop.

Hypothesis step : forall i s s',
    dom i -> body i s = Returns s' ->
    ok i
    /\ (forall k, touched i k -> obs s' k = upd i k (obs s k) /\ defined (obs s k))
    /\ (forall k, ~ touched i k -> obs s' k = obs s k).
Hypothesis disjoint : forall i j k,
    ok i -> ok j -> touched i k -> touched j k -> i = j.


End ForEachFrame.

Lemma In_upto (k c : Z) : In c (Grid.upto k) <-> (0 <= c < k)%Z.
Proof.
  unfold Grid.upto. rewrite in_map_iff. split.
  - intros [i [<- Hi]]. apply in_seq in Hi. lia.
  - intros H. exists (Z.to_nat c). split; [lia|]. apply in_seq. lia.
Qed.


(** ** The cells of the active window *)

Section FilterCells.
Context {so3ops : SO3Ops} {scanops : Grid.ScanOps}.
Import Grid.
Open Scope Z_scope.

Lemma IsCellGood_spec (g : SweepGrid) (px : Point) :
  IsCellGood g px =
  flt (ScoreAt g px) (max_score g)
  && (if nms g
      then le_nan_as_inf (ScoreAt g px) (ScoreAt g (mkPoint (px_x px - 1) (px_y px)))
           && le_nan_as_inf (ScoreAt g px) (ScoreAt g (mkPoint (px_x px + 1) (px_y px)))
      else true).
Proof.
  unfold IsCellGood.
  destruct (flt (ScoreAt g px) (max_score g)) eqn:E; simpl; [|reflexivity].
  destruct (nms g); [|reflexivity].
  rewrite <- !(not_fgt_le _ _ _ E).
  destruct (fgt (ScoreAt g px) _), (fgt (ScoreAt g px) _); reflexivity.
Qed.

Lemma passes_claimed (g : SweepGrid) (c r : Z) :
  0 <= c < Range_size (col_rg g) -> passes g c r = claimed_good g c r.
Proof.
  intros Hc. unfold passes, claimed_good. rewrite IsCellGood_spec. cbn [px_x px_y].
  destruct (nms g).
  - destruct (Z.leb_spec 1 c), (Z.ltb_spec c (Range_size (col_rg g) - 1)),
      (Z.eqb_spec c 0), (Z.eqb_spec c (Range_size (col_rg g) - 1)); try lia;
      cbn [andb negb];
      repeat match goal with |- context [flt ?a ?b] => destruct (flt a b) end;
      repeat match goal with |- context [le_nan_as_inf ?a ?b] => destruct (le_nan_as_inf a b) end;
      reflexivity.
  - destruct (Z.leb_spec 0 c), (Z.ltb_spec c (Range_size (col_rg g) - 0)); try lia.
    reflexivity.
Qed.



End FilterCells.

Section FilterGrid.
Context {so3ops : SO3Ops} {scanops : Grid.ScanOps}.
Import Grid.
Open Scope Z_scope.


End FilterGrid.

(** The NMS row of the spec: scores NaN 9 2 5 1 3 NaN under threshold 8.
    The cells of columns 2 and 4 survive; column 1 falls to the threshold,
    columns 0 and 6 to the pad. *)
Example nms_row_survivors :
  map (fun c => claimed_good Sample.nms_grid c 0%Z) [0; 1; 2; 3; 4; 5; 6]%Z
  = [false; false; true; false; true; false; false].
Proof. reflexivity. Qed.



(* ------------------------------------------------------------------ *)
(** * More facts about the embedding *)

Lemma mkV3_ext (a b c a' b' c' : R) :
  a = a' -> b = b' -> c = c' -> mkV3 a b c = mkV3 a' b' c'.
Proof. intros -> -> ->. reflexivity. Qed.

(* ------------------------------------------------------------------ *)
(** * The timer (part_002) *)

Section TimerLaws.
Import Timer.
Open Scope Z_scope.

(** X1.  The reading of a timer follows the clock while it runs and stands
    still while it is stopped: for any timer and any clock readings [a]
    and [b], resuming at [a] and reading at [b] gives the reading at [a]
    plus [b - a]; stopping at [a] and reading at [b] gives the reading at
    [a]; starting at [a] and reading at [b] gives [b - a]. *)
Theorem X1_timer_reading_laws (t : Timer) (a b : Z) :
  Elapsed b (Resume a t) = Elapsed a t + (b - a)
  /\ Elapsed b (Stop a t) = Elapsed a t
  /\ Elapsed b (Start a t) = b - a.
Proof.
  unfold Elapsed, Resume, Stop, Start.
  destruct t as [tm [|]]; cbn [running_ time_ns_ negb]; repeat split; lia.
Qed.

(** X2.  A second [Stop] changes nothing, whatever the clock says, and
    neither does a second [Resume]; [Stop] leaves a stopped timer and
    [Resume] a running one. *)
Theorem X2_timer_stop_resume_idempotent (t : Timer) (a b : Z) :
  Stop b (Stop a t) = Stop a t
  /\ Resume b (Resume a t) = Resume a t
  /\ IsStopped (Stop a t) = true
  /\ IsRunning (Resume a t) = true.
Proof.
  unfold Stop, Resume, Start, IsStopped, IsRunning.
  destruct t as [tm [|]]; cbn [running_ time_ns_ negb]; repeat split.
Qed.

(** X3.  A timer built at [t0], stopped at [t1], resumed at [t2] and read
    at [t3], stopped or not at [t3], shows the two running intervals added:
    (t1 - t0) + (t3 - t2). *)
Theorem X3_timer_accumulates (t0 t1 t2 t3 t4 : Z) :
  Elapsed t3 (Resume t2 (Stop t1 (Timer_ctor t0))) = (t1 - t0) + (t3 - t2)
  /\ Elapsed t4 (Stop t3 (Resume t2 (Stop t1 (Timer_ctor t0)))) = (t1 - t0) + (t3 - t2).
Proof.
  unfold Elapsed, Resume, Stop, Start, Timer_ctor, Start.
  cbn [running_ time_ns_ negb]. split; lia.
Qed.

End TimerLaws.

(* ------------------------------------------------------------------ *)
(** * The first sample after a time (imu.cpp) *)

Section FindNext.
Context {so3ops : SO3Ops} {numerics : Numerics}.
Import Imu.
Open Scope R_scope.

Lemma FindNextImu_from_spec (b : list ImuData) (t : R) :
  forall i : Z,
    (FindNextImu_from b t i = (-1)%Z /\ none_newer b t)
    \/ (exists k d, FindNextImu_from b t i = (i + Z.of_nat k)%Z
                    /\ nth_error b k = Some d
                    /\ t < imu_time d
                    /\ none_newer (firstn k b) t).
Proof.
  induction b as [|a rest IH]; intros i; simpl.
  - left. split; [reflexivity | constructor].
  - unfold Rltb. destruct (Rlt_dec t (imu_time a)) as [Hlt | Hge].
    + right. exists 0%nat, a. repeat split; try assumption; [lia | constructor].
    + destruct (IH (i + 1)%Z) as [[E Hn] | [k [d [E [Hk [Hd Hn]]]]]].
      * left. split; [exact E | constructor; assumption].
      * right. exists (S k), d. repeat split; try assumption; [lia|].
        simpl. constructor; assumption.
Qed.

Lemma FindNextImu_range (b : list ImuData) (t : R) :
  (-1 <= FindNextImu b t < Z.of_nat (length b))%Z.
Proof.
  unfold FindNextImu.
  destruct (FindNextImu_from_spec b t 0%Z) as [[E _] | [k [d [E [Hk _]]]]]; rewrite E.
  - lia.
  - assert (k < length b)%nat by (apply nth_error_Some; congruence). lia.
Qed.

(** X4.  [FindNextImu(buf, t)] returns -1 exactly when no sample of the
    buffer is newer than [t]; otherwise it returns the index, inside the
    buffer, of a sample with [time > t] before which every sample has
    [time <= t]. *)
Theorem X4_FindNextImu_first_newer (b : list ImuData) (t : R) :
  (FindNextImu b t = (-1)%Z /\ none_newer b t)
  \/ (exists d,
         (0 <= FindNextImu b t < Z.of_nat (length b))%Z
         /\ nth_error b (Z.to_nat (FindNextImu b t)) = Some d
         /\ t < imu_time d
         /\ none_newer (firstn (Z.to_nat (FindNextImu b t)) b) t).
Proof.
  unfold FindNextImu.
  destruct (FindNextImu_from_spec b t 0%Z) as [H | [k [d [E [Hk [Hd Hn]]]]]].
  - left. exact H.
  - right. exists d. rewrite E. simpl. rewrite Nat2Z.id.
    repeat split; try assumption; try lia.
    assert (k < length b)%nat by (apply nth_error_Some; congruence). lia.
Qed.

End FindNext.

(* ------------------------------------------------------------------ *)
(** * The noise model and the state integrators (imu.cpp) *)

Section NoiseAndIntegrators.
Context {so3ops : SO3Ops} {numerics : Numerics}.
Import Imu ImuInit.
Open Scope R_scope.

(** X5.  [ImuNoise::ImuNoise] aborts unless [dt > 0]; when it returns, the
    twelve variances are acc_noise^2/dt, gyr_noise^2/dt, acc_bias_noise^2*dt
    and gyr_bias_noise^2*dt, three of each, and none of them is negative. *)
Theorem X5_ImuNoise_variances (dt an gn abn gbn : R) :
  (dt <= 0 -> ImuNoise_ctor dt an gn abn gbn = Aborts CheckFailed)
  /\ (0 < dt ->
      exists nz,
        ImuNoise_ctor dt an gn abn gbn = Returns nz
        /\ (forall k, (k < 3)%nat ->
              sigma2 nz k = an * an / dt
              /\ sigma2 nz (3 + k)%nat = gn * gn / dt
              /\ sigma2 nz (6 + k)%nat = abn * abn * dt
              /\ sigma2 nz (9 + k)%nat = gbn * gbn * dt)
        /\ (forall k, 0 <= sigma2 nz k)).
Proof.
  unfold ImuNoise_ctor. split; intros Hdt.
  - rewrite Rltb_false by lra. reflexivity.
  - rewrite Rltb_true by exact Hdt. eexists. split; [reflexivity|].
    cbn [bind sigma2]. unfold NA, NW, NBA, NBW, Sq. split.
    + intros k Hk.
      rewrite (in_rg_true 0 3 k) by lia.
      rewrite (in_rg_false 0 3 (3 + k)), (in_rg_true 3 3 (3 + k)) by lia.
      rewrite (in_rg_false 0 3 (6 + k)), (in_rg_false 3 3 (6 + k)),
        (in_rg_true 6 3 (6 + k)) by lia.
      rewrite (in_rg_false 0 3 (9 + k)), (in_rg_false 3 3 (9 + k)),
        (in_rg_false 6 3 (9 + k)), (in_rg_true 9 3 (9 + k)) by lia.
      repeat split.
    + intros k.
      assert (Hi : 0 < / dt) by (apply Rinv_0_lt_compat; exact Hdt).
      destruct (in_rg 0 3 k); [unfold Rdiv; nra|].
      destruct (in_rg 3 3 k); [unfold Rdiv; nra|].
      destruct (in_rg 6 3 k); [nra|].
      destruct (in_rg 9 3 k); [nra | lra].
Qed.

Lemma IntegrateRot_Returns (rot0 : SO3d) (omg : Vector3d) (dt : R) (rot1 : SO3d) :
  IntegrateRot rot0 omg dt = Returns rot1 ->
  0 < dt /\ rot1 = so3_mul rot0 (so3_exp (v3_scale dt omg)).
Proof.
  unfold IntegrateRot, CHECK, Rltb. destruct (Rlt_dec 0 dt); simpl; [|discriminate].
  intros H; inversion H. auto.
Qed.

(** X6.  Both state integrators abort unless the step is positive
    ([dt > 0], resp. [imu1.time > imu0.time]).  When they return, the time
    has advanced by the step and the new position is the old one plus the
    step times the mean of the old and the new velocity. *)
Theorem X6_integrators_are_trapezoidal
        (s0 s1 : NavState) (imu imu1 : ImuData) (g_w : Vector3d) (dt : R) :
  (IntegrateEuler s0 imu g_w dt = Returns s1 ->
   0 < dt
   /\ time s1 = time s0 + dt
   /\ pos s1 = v3_add (pos s0) (v3_scale (dt / 2) (v3_add (vel s0) (vel s1))))
  /\
  (IntegrateMidpoint s0 imu imu1 g_w = Returns s1 ->
   imu_time imu < imu_time imu1
   /\ time s1 = time s0 + (imu_time imu1 - imu_time imu)
   /\ pos s1 = v3_add (pos s0)
                 (v3_scale ((imu_time imu1 - imu_time imu) / 2) (v3_add (vel s0) (vel s1)))).
Proof.
  split; intros H.
  - unfold IntegrateEuler in H.
    apply bind_Returns in H. destruct H as [[] [Hc H]].
    apply bind_Returns in H. destruct H as [rot1 [HR H]].
    apply IntegrateRot_Returns in HR. destruct HR as [Hdt _].
    inversion H; subst s1. cbn [time pos vel].
    split; [exact Hdt|]. split; [reflexivity|].
    unfold v3_add, v3_muls, v3_scale. cbn [vx vy vz]. apply mkV3_ext; nra.
  - unfold IntegrateMidpoint in H.
    apply bind_Returns in H. destruct H as [[] [Hc H]].
    apply bind_Returns in H. destruct H as [rot1 [HR H]].
    apply IntegrateRot_Returns in HR. destruct HR as [Hdt _].
    inversion H; subst s1. cbn [time pos vel].
    split; [lra|]. split; [reflexivity|].
    unfold v3_add, v3_muls, v3_scale. cbn [vx vy vz]. apply mkV3_ext; nra.
Qed.

End NoiseAndIntegrators.

(** X5, witness: a sampling period of a hundredth of a second. *)
Lemma X5_ImuNoise_witness :
  exists nz, Imu.ImuNoise_ctor 0.01 0.1 0.01 0.001 0.0001 = Returns nz
             /\ (0 <= Imu.sigma2 nz 0%nat)%R.
Proof.
  assert (H : (0 < 0.01)%R) by lra.
  destruct (proj2 (X5_ImuNoise_variances 0.01 0.1 0.01 0.001 0.0001) H) as [nz [E [_ Hn]]].
  exists nz. split; [exact E | apply Hn].
Defined.

Lemma Euler_sample_returns :
  exists s1, ImuInit.IntegrateEuler (Sample.state_at 1) (Sample.imu_at 1)
                                    (mkV3 0 0 9.8) 0.5 = Returns s1.
Proof.
  unfold ImuInit.IntegrateEuler, Imu.IntegrateRot.
  rewrite !Rltb_true by lra. simpl. eauto.
Qed.

Lemma Midpoint_sample_returns :
  exists s1, ImuInit.IntegrateMidpoint (Sample.state_at 1) (Sample.imu_at 1)
                                       (Sample.imu_at 1.5) (mkV3 0 0 9.8) = Returns s1.
Proof.
  unfold ImuInit.IntegrateMidpoint, Imu.IntegrateRot. cbn [Imu.imu_time Sample.imu_at].
  rewrite !Rltb_true by lra. simpl. eauto.
Qed.

(** X6, witness: half a second from rest under gravity. *)
Lemma X6_integrators_witness :
  (exists s1, ImuInit.IntegrateEuler (Sample.state_at 1) (Sample.imu_at 1)
                                     (mkV3 0 0 9.8) 0.5 = Returns s1
              /\ Imu.time s1 = (1 + 0.5)%R)
  /\ (exists s1, ImuInit.IntegrateMidpoint (Sample.state_at 1) (Sample.imu_at 1)
                                           (Sample.imu_at 1.5) (mkV3 0 0 9.8) = Returns s1
                 /\ Imu.time s1 = (1 + (1.5 - 1))%R).
Proof.
  split.
  - destruct Euler_sample_returns as [s1 E]. exists s1. split; [exact E|].
    apply (proj1 (X6_integrators_are_trapezoidal (Sample.state_at 1) s1 (Sample.imu_at 1)
                    (Sample.imu_at 1) (mkV3 0 0 9.8) 0.5) E).
  - destruct Midpoint_sample_returns as [s1 E]. exists s1. split; [exact E|].
    apply (proj2 (X6_integrators_are_trapezoidal (Sample.state_at 1) s1 (Sample.imu_at 1)
                    (Sample.imu_at 1.5) (mkV3 0 0 9.8) 0.5) E).
Defined.

(* ------------------------------------------------------------------ *)
(** * Gravity, extrinsics and prediction (imu.cpp) *)

Section ImuInitFacts.
Context {so3ops : SO3Ops} {numerics : Numerics}.
Import Imu ImuInit.
Open Scope R_scope.




(** X8.  [InitExtrinsic] aborts when the trajectory has no state.
    Otherwise it stores the transform and gives every state the rotation
    and the translation of its inverse, R^-1 and R^-1 * (-t); the number of
    states, their times and velocities and the buffer are kept. *)
Theorem X8_InitExtrinsic (traj : ImuTrajectory) (T_i_l : SE3d) :
  (states traj = [] -> InitExtrinsic traj T_i_l = Aborts CheckFailed)
  /\ (states traj <> [] ->
      exists traj',
        InitExtrinsic traj T_i_l = Returns traj'
        /\ T_imu_lidar traj' = T_i_l
        /\ buf traj' = buf traj
        /\ length (states traj') = length (states traj)
        /\ forall i s, nth_error (states traj) i = Some s ->
             nth_error (states traj') i
             = Some (mkNavState (time s) (so3_inverse (so3 T_i_l))
                       (so3_act (so3_inverse (so3 T_i_l)) (v3_muls (translation T_i_l) (-1)))
                       (vel s))).
Proof.
  unfold InitExtrinsic. split.
  - intros ->. reflexivity.
  - intros Hs. destruct (states traj) as [|s0 rest] eqn:E; [contradiction|].
    cbn [negb CHECK bind]. eexists. split; [reflexivity|].
    cbn [T_imu_lidar buf states]. repeat split.
    + rewrite length_map. reflexivity.
    + intros i s Hi. rewrite nth_error_map, Hi. reflexivity.
Qed.

End ImuInitFacts.


(** X8, witness of the second part: the two-state trajectory. *)
Lemma X8_InitExtrinsic_witness :
  exists traj',
    ImuInit.InitExtrinsic Sample.live_traj Sample.id_pose = Returns traj'
    /\ length (Imu.states traj') = 2%nat.
Proof.
  assert (H : Imu.states Sample.live_traj <> []) by discriminate.
  destruct (proj2 (X8_InitExtrinsic Sample.live_traj Sample.id_pose) H)
    as [traj' [E [_ [_ [Hl _]]]]].
  exists traj'. split; [exact E | exact Hl].
Defined.

Section PredictRuns.
Context {so3ops : SO3Ops} {numerics : Numerics}.
Import Imu.
Open Scope R_scope.

Lemma vec_at_nat {A : Type} (v : list A) (i : nat) (a : A) :
  nth_error v i = Some a -> vec_at v (Z.of_nat i) = Returns a.
Proof.
  intros H. unfold vec_at.
  destruct (Z.ltb_spec (Z.of_nat i) 0); [lia|]. rewrite Nat2Z.id, H. reflexivity.
Qed.

Lemma vec_idx_nat {A : Type} (v : list A) (i : nat) (a : A) :
  nth_error v i = Some a -> vec_idx v (Z.of_nat i) = Returns a.
Proof.
  intros H. unfold vec_idx.
  destruct (Z.ltb_spec (Z.of_nat i) 0); [lia|]. rewrite Nat2Z.id, H. reflexivity.
Qed.

Lemma nth_error_in_range {A : Type} (v : list A) (i : nat) :
  (i < length v)%nat -> exists a, nth_error v i = Some a.
Proof.
  intros H. destruct (nth_error v i) as [a|] eqn:E; [eauto|].
  apply nth_error_None in E. lia.
Qed.




End PredictRuns.


(* ------------------------------------------------------------------ *)
(** * More on the preintegration window (imu.cpp) *)

Section WindowEdges.
Context {so3ops : SO3Ops} {numerics : Numerics}.
Import Imu.
Open Scope R_scope.

Lemma Integrate_aborts (p : ImuPreintegration) (dt : R) (imu : ImuData) (nz : ImuNoise) :
  dt <= 0 -> Integrate p dt imu nz = Aborts CheckFailed.
Proof. intros H. unfold Integrate. rewrite Rltb_false by lra. reflexivity. Qed.

Lemma skipn_split {A : Type} (older rest : list A) (d : A) :
  skipn (length older) (older ++ d :: rest) = d :: rest.
Proof. rewrite skipn_app, skipn_all, Nat.sub_diag. reflexivity. Qed.

Lemma Compute_between_late (p : ImuPreintegration) (older rest : list ImuData)
      (d : ImuData) (bs : ImuBias) (nz : ImuNoise) (t0 t1 : R) :
  none_newer older t0 -> t0 < imu_time d -> t1 <= imu_time d ->
  Compute_between p (older ++ d :: rest) bs nz t0 t1 = Aborts CheckFailed.
Proof.
  intros Hold Hd0 Hd1. unfold Compute_between, FindNextImu.
  destruct (Rltb t0 t1); [|reflexivity]. cbn [CHECK bind].
  rewrite (FindNextImu_from_split older rest d t0 0%Z Hold Hd0).
  replace (0 <=? 0 + Z.of_nat (length older))%Z with true
    by (symmetry; apply Z.leb_le; lia).
  cbn [CHECK bind]. rewrite Z.add_0_l, Nat2Z.id, skipn_split.
  cbn [Compute_loop].
  destruct (Integrate_returns p (imu_time (DeBiased d bs) - t0) (DeBiased d bs) nz)
    as [p1 E]; [cbn [DeBiased imu_time]; lra|].
  rewrite E. cbn [bind].
  destruct rest as [|d1 rest'].
  - cbn [bind]. rewrite Integrate_aborts by (cbn [DeBiased imu_time]; lra). reflexivity.
  - unfold Rleb. destruct (Rle_dec t1 (imu_time d1)) as [Hle | Hgt].
    + cbn [bind]. rewrite Integrate_aborts by (cbn [DeBiased imu_time]; lra). reflexivity.
    + cbn [Compute_loop].
      rewrite Integrate_aborts by (cbn [DeBiased imu_time]; lra). reflexivity.
Qed.

(** X10.  [Compute] also aborts when the buffer does hold a sample newer
    than [t0] but the first such sample is not older than [t1], so that no
    sample lies strictly inside the window: the closing step from that
    sample to [t1] is not positive and [CHECK_GT(dt, 0)] of [Integrate]
    fails. *)
Theorem X10_Compute_aborts_on_late_first_sample
        (p : ImuPreintegration) (traj : ImuTrajectory) (st0 st1 : NavState)
        (older rest : list ImuData) (d : ImuData) :
  vec_front (states traj) = Returns st0 ->
  vec_back (states traj) = Returns st1 ->
  buf traj = older ++ d :: rest ->
  none_newer older (time st0) ->
  time st0 < imu_time d ->
  time st1 <= imu_time d ->
  Compute p traj = Aborts CheckFailed.
Proof.
  intros Hf Hb Hbuf Hold Hd0 Hd1. unfold Compute. rewrite Hf, Hb, Hbuf. cbn [bind].
  apply Compute_between_late; assumption.
Qed.

Lemma Integrate_count (p p' : ImuPreintegration) (dt : R) (imu : ImuData) (nz : ImuNoise) :
  Integrate p dt imu nz = Returns p' -> n p' = (n p + 1)%Z.
Proof.
  unfold Integrate, CHECK. destruct (Rltb 0 dt); simpl; [|discriminate].
  intros H; inversion H; reflexivity.
Qed.

Lemma increasing_none_before (t1 t : R) (l : list ImuData) :
  increasing t l -> t1 <= t ->
  filter (fun x => Rltb (imu_time x) t1) l = [].
Proof.
  revert t; induction l as [|a l IH]; intros t Hinc Ht; [reflexivity|].
  destruct Hinc as [Ha Hl]. cbn [filter].
  rewrite Rltb_false by lra. apply (IH (imu_time a) Hl). lra.
Qed.

(** The loop counts its first sample and every later one older than [t1]. *)
Lemma Compute_loop_count (bs : ImuBias) (nz : ImuNoise) (t1 : R) (samples : list ImuData) :
  forall (p : ImuPreintegration) (t : R) (p' : ImuPreintegration) (d : ImuData),
    increasing t samples ->
    Compute_loop bs nz t1 samples p t = Returns (p', d) ->
    n p' = (n p + 1
            + Z.of_nat (length (filter (fun x => Rltb (imu_time x) t1) (tl samples))))%Z.
Proof.
  induction samples as [|d0 rest IH]; intros p t p' d Hinc H; simpl in H; [discriminate|].
  destruct Hinc as [Ht Hinc].
  apply bind_Returns in H. destruct H as [p1 [H1 H]].
  apply Integrate_count in H1. cbn [tl].
  destruct rest as [|d1 rest'].
  - inversion H; subst. cbn [filter length]. lia.
  - unfold Rleb in H. destruct (Rle_dec t1 (imu_time d1)) as [Hle | Hgt].
    + inversion H; subst. destruct Hinc as [Hd1 Hrest]. cbn [filter].
      rewrite Rltb_false by lra.
      rewrite (increasing_none_before t1 (imu_time d1) rest' Hrest Hle).
      cbn [length]. lia.
    + apply IH in H; [|exact Hinc]. cbn [tl] in H. cbn [filter].
      rewrite Rltb_true by lra. cbn [length]. lia.
Qed.

(** X11.  On a buffer whose time stamps grow from the first sample newer
    than [t0] on, that sample being older than [t1], [Compute] after a
    [Reset] returns, and the count it returns and leaves in [n] is one
    more than the number of samples strictly inside the window (t0, t1):
    one [Integrate] per such sample and one closing step to [t1]. *)
Theorem X11_Compute_counts_window_samples
        (p : ImuPreintegration) (older rest : list ImuData) (d : ImuData)
        (bs : ImuBias) (nz : ImuNoise) (t0 t1 : R) :
  t0 < t1 -> none_newer older t0 -> imu_time d < t1 -> increasing t0 (d :: rest) ->
  exists p',
    Compute_between (Reset p) (older ++ d :: rest) bs nz t0 t1
    = Returns (p', (1 + Z.of_nat (length (filter (inside t0 t1) (older ++ d :: rest))))%Z)
    /\ n p' = (1 + Z.of_nat (length (filter (inside t0 t1) (older ++ d :: rest))))%Z.
Proof.
  intros H01 Hold Hd1 Hinc.
  destruct (Compute_between_returns (Reset p) older rest d bs nz t0 t1 H01 Hold Hd1 Hinc)
    as [p' [k E]].
  assert (Hk : k = n p' /\ n p' = (1 + Z.of_nat (length (filter (inside t0 t1)
                                                    (older ++ d :: rest))))%Z).
  { revert E. unfold Compute_between, FindNextImu.
    rewrite Rltb_true by exact H01. cbn [CHECK bind].
    rewrite (FindNextImu_from_split older rest d t0 0%Z Hold (proj1 Hinc)).
    replace (0 <=? 0 + Z.of_nat (length older))%Z with true
      by (symmetry; apply Z.leb_le; lia).
    cbn [CHECK bind]. rewrite Z.add_0_l, Nat2Z.id, skipn_split. intros E.
    apply bind_Returns in E. destruct E as [[p1 d'] [Hl E]].
    apply bind_Returns in E. destruct E as [p2 [Hi E]].
    apply Compute_loop_count in Hl; [|exact Hinc].
    apply Integrate_count in Hi. inversion E; subst. cbn [n set_U]. split; [reflexivity|].
    rewrite Hi, Hl. cbn [Reset n tl].
    rewrite filter_app, length_app.
    assert (Ho : filter (inside t0 t1) older = []).
    { clear - Hold. induction Hold as [|a l Ha _ IH]; [reflexivity|].
      cbn [filter]. unfold inside at 1. rewrite Rltb_false by exact Ha. exact IH. }
    assert (Hr : forall t l, increasing t l -> t0 <= t ->
                   filter (inside t0 t1) l = filter (fun x => Rltb (imu_time x) t1) l).
    { clear. intros t l. revert t. induction l as [|a l IH]; intros t Hi Ht;
        [reflexivity|]. destruct Hi as [Ha Hl].
      cbn [filter]. unfold inside at 1. rewrite (Rltb_true t0 (imu_time a)) by lra.
      cbn [andb]. rewrite (IH (imu_time a) Hl) by lra. reflexivity. }
    rewrite Ho, (Hr t0 (d :: rest) Hinc) by lra. cbn [filter length].
    rewrite Rltb_true by exact Hd1. cbn [length]. lia. }
  destruct Hk as [-> Hn]. exists p'. rewrite <- Hn. split; [exact E | reflexivity].
Qed.

End WindowEdges.

(** X10, witness: the window [1, 2] with its first newer sample at 2.5. *)
Lemma X10_Compute_late_witness :
  Imu.Compute (Imu.Reset Sample.zero_preint)
    (Imu.mkImuTrajectory [Sample.imu_at 0.5; Sample.imu_at 2.5]
       [Sample.state_at 1; Sample.state_at 2] Sample.no_bias Sample.no_noise
       v3_zero Sample.id_pose Sample.id_pose)
  = Aborts CheckFailed.
Proof.
  apply (X10_Compute_aborts_on_late_first_sample _ _ (Sample.state_at 1) (Sample.state_at 2)
           [Sample.imu_at 0.5] [] (Sample.imu_at 2.5)).
  - reflexivity.
  - reflexivity.
  - reflexivity.
  - exact stale_none_newer.
  - simpl; lra.
  - simpl; lra.
Defined.

(** X11, witness: three samples inside [1, 2], so the count is four. *)
Lemma X11_Compute_count_witness :
  exists p',
    Imu.Compute_between (Imu.Reset Sample.zero_preint)
      ([Sample.imu_at 0.5] ++ Sample.imu_at 1.25
         :: [Sample.imu_at 1.5; Sample.imu_at 1.75; Sample.imu_at 2.5])
      Sample.no_bias Sample.no_noise 1 2
    = Returns (p', 4%Z).
Proof.
  assert (H01 : (1 < 2)%R) by lra.
  assert (Hd : (Imu.imu_time (Sample.imu_at 1.25) < 2)%R) by (simpl; lra).
  assert (Hinc : increasing 1 (Sample.imu_at 1.25
                   :: [Sample.imu_at 1.5; Sample.imu_at 1.75; Sample.imu_at 2.5]))
    by (simpl; repeat split; lra).
  destruct (X11_Compute_counts_window_samples Sample.zero_preint [Sample.imu_at 0.5]
              [Sample.imu_at 1.5; Sample.imu_at 1.75; Sample.imu_at 2.5]
              (Sample.imu_at 1.25) Sample.no_bias Sample.no_noise 1 2
              H01 stale_none_newer Hd Hinc) as [p' [E _]].
  exists p'. rewrite E. do 2 f_equal.
  unfold inside, Sample.imu_at. cbn [app filter Imu.imu_time].
  rewrite (Rltb_false 1 0.5) by lra.
  rewrite (Rltb_true 1 1.25), (Rltb_true 1.25 2) by lra.
  rewrite (Rltb_true 1 1.5), (Rltb_true 1.5 2) by lra.
  rewrite (Rltb_true 1 1.75), (Rltb_true 1.75 2) by lra.
  rewrite (Rltb_true 1 2.5), (Rltb_false 2.5 2) by lra.
  reflexivity.
Defined.

Section AtRest.
Context {so3ops : SO3Ops} {numerics : Numerics}.
Import Imu.
Open Scope R_scope.

Lemma v3_sub_self (a b : Vector3d) : a = b -> v3_sub a b = v3_zero.
Proof. intros ->. apply v3_sub_diag. Qed.

(** A step on a sample that measures exactly the bias keeps a zero
    alpha and beta and an identity gamma. *)
Lemma Integrate_at_rest (p p' : ImuPreintegration) (dt : R) (d : ImuData) (bs : ImuBias)
      (nz : ImuNoise) :
  rest_laws -> measures_bias bs d ->
  alpha p = v3_zero -> beta p = v3_zero -> gamma p = so3_ident ->
  Integrate p dt (DeBiased d bs) nz = Returns p' ->
  alpha p' = v3_zero /\ beta p' = v3_zero /\ gamma p' = so3_ident.
Proof.
  intros [Lact [Lexp Lmul]] [Ha Hg] Hal Hbe Hga H.
  unfold Integrate in H. apply bind_Returns in H. destruct H as [[] [_ H]].
  inversion H; subst p'. cbn [alpha beta gamma DeBiased acc gyr].
  rewrite Hal, Hbe, Hga, (v3_sub_self _ _ Ha), (v3_sub_self _ _ Hg), Lact.
  assert (Hz : forall s, v3_muls v3_zero s = v3_zero).
  { intros s. unfold v3_muls, v3_zero. cbn [vx vy vz]. apply mkV3_ext; ring. }
  rewrite !Hz, Lexp, Lmul, !v3_add_zero_r. auto.
Qed.

Lemma Compute_loop_at_rest (bs : ImuBias) (nz : ImuNoise) (t1 : R) (samples : list ImuData) :
  forall (p : ImuPreintegration) (t : R) (p' : ImuPreintegration) (d : ImuData),
    rest_laws -> Forall (measures_bias bs) samples ->
    alpha p = v3_zero -> beta p = v3_zero -> gamma p = so3_ident ->
    Compute_loop bs nz t1 samples p t = Returns (p', d) ->
    alpha p' = v3_zero /\ beta p' = v3_zero /\ gamma p' = so3_ident /\ measures_bias bs d.
Proof.
  induction samples as [|d0 rest IH]; intros p t p' d L Hall Hal Hbe Hga H; simpl in H;
    [discriminate|].
  inversion Hall as [|? ? Hd0 Hrest]; subst.
  apply bind_Returns in H. destruct H as [p1 [H1 H]].
  destruct (Integrate_at_rest p p1 _ d0 bs nz L Hd0 Hal Hbe Hga H1) as [A1 [B1 G1]].
  destruct rest as [|d1 rest'].
  - inversion H; subst. auto.
  - destruct (Rleb t1 (imu_time d1)).
    + inversion H; subst. auto.
    + apply (IH p1 _ p' d L Hrest A1 B1 G1 H).
Qed.

(** X12.  A sensor at rest preintegrates to nothing: if every sample of
    the buffer measures exactly the bias, then after a [Reset] a returning
    [Compute] leaves alpha = 0, beta = 0 and gamma = identity, whatever the
    window and the noise.  The facts about Sophus used are that rotations
    fix the origin, that exp(0) is the identity and that the identity
    composed with itself is the identity. *)
Theorem X12_Compute_at_rest
        (p p' : ImuPreintegration) (traj : ImuTrajectory) (k : Z) :
  rest_laws ->
  Forall (measures_bias (bias traj)) (buf traj) ->
  Compute (Reset p) traj = Returns (p', k) ->
  alpha p' = v3_zero /\ beta p' = v3_zero /\ gamma p' = so3_ident.
Proof.
  intros L Hall H. unfold Compute in H.
  apply bind_Returns in H. destruct H as [st0 [_ H]].
  apply bind_Returns in H. destruct H as [st1 [_ H]].
  unfold Compute_between in H.
  apply bind_Returns in H. destruct H as [[] [_ H]].
  apply bind_Returns in H. destruct H as [[] [_ H]].
  apply bind_Returns in H. destruct H as [[p1 d] [Hl H]].
  apply bind_Returns in H. destruct H as [p2 [Hi H]].
  assert (Hskip : Forall (measures_bias (bias traj))
                         (skipn (Z.to_nat (FindNextImu (buf traj) (time st0))) (buf traj))).
  { rewrite <- (firstn_skipn (Z.to_nat (FindNextImu (buf traj) (time st0))) (buf traj))
      in Hall.
    apply Forall_app in Hall. tauto. }
  destruct (Compute_loop_at_rest _ _ _ _ (Reset p) _ p1 d L Hskip
              eq_refl eq_refl eq_refl Hl) as [A1 [B1 [G1 Hd]]].
  destruct (Integrate_at_rest p1 p2 _ d _ _ L Hd A1 B1 G1 Hi) as [A2 [B2 G2]].
  inversion H; subst. cbn [alpha beta gamma set_U]. auto.
Qed.

End AtRest.

Lemma m3_ext (a b : Matrix3d) :
  (forall i j, (i < 3)%nat -> (j < 3)%nat -> m3_at a i j = m3_at b i j) -> a = b.
Proof.
  intros H.
  destruct a as [[a00 a01 a02] [a10 a11 a12] [a20 a21 a22]].
  destruct b as [[b00 b01 b02] [b10 b11 b12] [b20 b21 b22]].
  pose proof (H 0 0)%nat as H00. pose proof (H 0 1)%nat as H01. pose proof (H 0 2)%nat as H02.
  pose proof (H 1 0)%nat as H10. pose proof (H 1 1)%nat as H11. pose proof (H 1 2)%nat as H12.
  pose proof (H 2 0)%nat as H20. pose proof (H 2 1)%nat as H21. pose proof (H 2 2)%nat as H22.
  cbv [m3_at m3_row v3_at row0 row1 row2 vx vy vz] in *.
  rewrite H00, H01, H02, H10, H11, H12, H20, H21, H22 by lia. reflexivity.
Qed.

(** Rotation matrices with Rodrigues' formula satisfy the laws of rest. *)
Lemma rotation_matrix_rest_laws : @rest_laws RotationMatrix.
Proof.
  split; [|split].
  - intros q. apply m3_mulv_zero.
  - cbn [so3_exp so3_ident RotationMatrix]. unfold rodrigues.
    generalize (if Req_dec_T (sqrt (v3_dot v3_zero v3_zero)) 0
                then 1 else sin (sqrt (v3_dot v3_zero v3_zero)) / sqrt (v3_dot v3_zero v3_zero))%R.
    generalize (if Req_dec_T (sqrt (v3_dot v3_zero v3_zero)) 0
                then / 2 else (1 - cos (sqrt (v3_dot v3_zero v3_zero))) / v3_dot v3_zero v3_zero)%R.
    intros B A.
    cbv [m3_add m3_scale m3_map m3_mul m3_col m3_at m3_row v3_at Hat3
         m3_ident v3_add v3_scale v3_dot v3_zero vx vy vz row0 row1 row2].
    f_equal; apply mkV3_ext; ring.
  - cbn [so3_mul so3_ident RotationMatrix].
    cbv [m3_mul m3_map m3_col m3_at m3_row v3_at m3_ident v3_dot vx vy vz row0 row1 row2].
    f_equal; apply mkV3_ext; ring.
Qed.

(** X12, witness: the window [1, 2] of the sample trajectory, whose
    samples are all zero and whose bias is zero. *)
Lemma X12_Compute_at_rest_witness :
  exists p' k,
    Imu.Compute (Imu.Reset Sample.zero_preint) Sample.live_traj = Returns (p', k)
    /\ Imu.alpha p' = v3_zero /\ Imu.beta p' = v3_zero /\ Imu.gamma p' = so3_ident.
Proof.
  destruct (live_window_returns (Imu.Reset Sample.zero_preint)) as [p' [k E]].
  exists p', k.
  assert (H : Imu.Compute (Imu.Reset Sample.zero_preint) Sample.live_traj = Returns (p', k))
    by exact E.
  split; [exact H|].
  apply (X12_Compute_at_rest Sample.zero_preint p' Sample.live_traj k
           rotation_matrix_rest_laws); [|exact H].
  repeat constructor.
Defined.

(* ------------------------------------------------------------------ *)
(** * Counted loops *)

Lemma upto_succ (k : Z) : (0 <= k)%Z -> Grid.upto (k + 1) = Grid.upto k ++ [k].
Proof.
  intros Hk. unfold Grid.upto.
  replace (Z.to_nat (k + 1)) with (S (Z.to_nat k)) by lia.
  rewrite seq_S, map_app. simpl. rewrite Z2Nat.id by lia. reflexivity.
Qed.

Lemma upto_max (k : Z) : Grid.upto (Z.max 0 k) = Grid.upto k.
Proof. unfold Grid.upto. f_equal. f_equal. lia. Qed.

Lemma for_each_app {St : Type} (body : Z -> St -> outcome St) (l1 l2 : list Z) (s : St) :
  Grid.for_each (l1 ++ l2) body s = (s' <- Grid.for_each l1 body s ;; Grid.for_each l2 body s').
Proof.
  revert s; induction l1 as [|a l1 IH]; intros s; simpl; [reflexivity|].
  destruct (body a s) as [s1|f]; simpl; [apply IH | reflexivity].
Qed.

(** The rule for a loop [for (i = 0; i < k; ++i)] whose body cannot fail
    while the invariant holds. *)
Lemma for_each_upto {St : Type} (body : Z -> St -> outcome St) (Inv : Z -> St -> Prop)
      (k : Z) (s : St) :
  Inv 0%Z s ->
  (forall i s, (0 <= i < k)%Z -> Inv i s ->
               exists s', body i s = Returns s' /\ Inv (i + 1)%Z s') ->
  exists s', Grid.for_each (Grid.upto k) body s = Returns s' /\ Inv (Z.max 0 k) s'.
Proof.
  intros H0 Hstep. rewrite <- upto_max.
  assert (Hk : (0 <= Z.max 0 k)%Z) by lia.
  assert (Hstep' : forall i s, (0 <= i < Z.max 0 k)%Z -> Inv i s ->
                               exists s', body i s = Returns s' /\ Inv (i + 1)%Z s')
    by (intros i s0 Hi; apply Hstep; lia).
  clear Hstep. revert Hstep'. generalize (Z.max 0 k) Hk. clear k Hk.
  intros k Hk. pattern k. apply natlike_ind; [| |exact Hk]; clear k Hk.
  - intros _. exists s. split; [reflexivity | exact H0].
  - intros k Hk IH Hstep. rewrite <- Z.add_1_r, upto_succ, for_each_app by exact Hk.
    destruct IH as [s1 [E1 I1]]; [intros i s0 Hi; apply Hstep; lia|].
    rewrite E1. simpl.
    destruct (Hstep k s1) as [s2 [E2 I2]]; [lia | exact I1|].
    rewrite E2. simpl. eauto.
Qed.

(** The same rule for a body that may fail, about the runs that return. *)
Lemma for_each_upto_partial {St : Type} (body : Z -> St -> outcome St)
      (Inv : Z -> St -> Prop) (k : Z) (s s' : St) :
  Inv 0%Z s ->
  (forall i s s', (0 <= i < k)%Z -> Inv i s -> body i s = Returns s' -> Inv (i + 1)%Z s') ->
  Grid.for_each (Grid.upto k) body s = Returns s' -> Inv (Z.max 0 k) s'.
Proof.
  intros H0 Hstep. rewrite <- upto_max.
  assert (Hk : (0 <= Z.max 0 k)%Z) by lia.
  assert (Hstep' : forall i s s', (0 <= i < Z.max 0 k)%Z -> Inv i s ->
                                  body i s = Returns s' -> Inv (i + 1)%Z s')
    by (intros i s0 s1 Hi; apply Hstep; lia).
  clear Hstep. revert s' Hstep'. generalize (Z.max 0 k) Hk. clear k Hk.
  intros k Hk. pattern k. apply natlike_ind; [| |exact Hk]; clear k Hk.
  - intros s' _ H. inversion H; subst. exact H0.
  - intros k Hk IH s' Hstep H.
    rewrite <- Z.add_1_r, upto_succ, for_each_app in H by exact Hk.
    apply bind_Returns in H. destruct H as [s1 [E1 H]].
    simpl in H. apply bind_Returns in H. destruct H as [s2 [E2 H]].
    inversion H; subst s2.
    apply (Hstep k s1 s'); [lia| |exact E2].
    apply IH; [|exact E1]. intros i s0 s3 Hi. apply Hstep. lia.
Qed.

Lemma list_prod_app_l {A B : Type} (l1 l2 : list A) (l' : list B) :
  list_prod (l1 ++ l2) l' = list_prod l1 l' ++ list_prod l2 l'.
Proof.
  induction l1 as [|a l1 IH]; simpl; [reflexivity|]. rewrite IH, app_assoc. reflexivity.
Qed.

Lemma filter_map_length {A B : Type} (f : B -> bool) (h : A -> B) (l : list A) :
  length (filter f (map h l)) = length (filter (fun a => f (h a)) l).
Proof.
  induction l as [|a l IH]; simpl; [reflexivity|].
  destruct (f (h a)); simpl; rewrite IH; reflexivity.
Qed.

Lemma filter_length_le {A : Type} (f h : A -> bool) (l : list A) :
  (forall a, In a l -> f a = true -> h a = true) ->
  (length (filter f l) <= length (filter h l))%nat.
Proof.
  induction l as [|a l IH]; simpl; intros H; [lia|].
  assert (IH' : (length (filter f l) <= length (filter h l))%nat)
    by (apply IH; intros b Hb; apply H; right; exact Hb).
  destruct (f a) eqn:Ef.
  - rewrite (H a (or_introl eq_refl) Ef). simpl. lia.
  - destruct (h a); simpl; lia.
Qed.

(** the count of a window grows row by row *)
Lemma count_cells_succ (f : Z -> Z -> bool) (i ncols : Z) :
  (0 <= i)%Z ->
  count_cells f (i + 1) ncols
  = (count_cells f i ncols
     + Z.of_nat (length (filter (fun c => f c i) (Grid.upto ncols))))%Z.
Proof.
  intros Hi. unfold count_cells, window_cells.
  rewrite upto_succ by exact Hi.
  rewrite list_prod_app_l, filter_app, length_app, Nat2Z.inj_add. f_equal.
  simpl. rewrite app_nil_r, filter_map_length. reflexivity.
Qed.

Lemma In_window_cells (nrows ncols r c : Z) :
  In (r, c) (window_cells nrows ncols) <-> (0 <= r < nrows /\ 0 <= c < ncols)%Z.
Proof. unfold window_cells. rewrite in_prod_iff, !In_upto. tauto. Qed.

(* ------------------------------------------------------------------ *)
(** * The size and the coordinates of the grid (part_001) *)

Section GridShape.
Context {so3ops : SO3Ops} {scanops : Grid.ScanOps}.
Import Grid.
Open Scope Z_scope.

(** X13.  [SweepGrid::SweepGrid] with positive cell sizes accepts, of the
    sweep sizes that are not negative, exactly those that the cell size
    divides: then the grid has sweep/cell rows and columns, every score is
    NaN, the active window is the empty range [0, 0), there is one pose
    more than there are columns and one cell per grid position.  Any other
    sweep size fails one of the two [CHECK_EQ]. *)
Theorem X13_SweepGrid_ctor (sweep_size : Size) (params : GridParams) :
  0 < cell_cols params -> 0 < cell_rows params ->
  0 <= width sweep_size -> 0 <= height sweep_size ->
  (Z.rem (width sweep_size) (cell_cols params) = 0
   /\ Z.rem (height sweep_size) (cell_rows params) = 0 ->
   exists g,
     SweepGrid_ctor sweep_size params = Returns g
     /\ cell_size g = mkSize (cell_cols params) (cell_rows params)
     /\ grid_cols g * cell_cols params = width sweep_size
     /\ grid_rows g * cell_rows params = height sweep_size
     /\ (forall r c, isnan (pixel (score g) r c) = true)
     /\ col_rg g = mkRange 0 0
     /\ length (tfs g) = Z.to_nat (grid_cols g + 1)
     /\ length (matches g) = Z.to_nat (total g))
  /\ (~ (Z.rem (width sweep_size) (cell_cols params) = 0
         /\ Z.rem (height sweep_size) (cell_rows params) = 0) ->
      SweepGrid_ctor sweep_size params = Aborts CheckFailed).
Proof.
  intros Hc Hr _ _. unfold SweepGrid_ctor. cbn [width height].
  rewrite (proj2 (Z.eqb_neq (cell_cols params) 0)) by lia.
  rewrite (proj2 (Z.eqb_neq (cell_rows params) 0)) by lia. cbn [orb].
  cbn [Size_div width height cols rows].
  pose proof (Z.quot_rem' (width sweep_size) (cell_cols params)) as Qw.
  pose proof (Z.quot_rem' (height sweep_size) (cell_rows params)) as Qh.
  split.
  - intros [Hw Hh].
    rewrite (proj2 (Z.eqb_eq _ _)) by lia. cbn [CHECK bind].
    rewrite (proj2 (Z.eqb_eq _ _)) by lia. cbn [CHECK bind].
    eexists. split; [reflexivity|].
    unfold grid_cols, grid_rows, total, grid_rows, grid_cols.
    cbn [cell_size score cols rows pixel col_rg tfs matches].
    rewrite !repeat_length.
    repeat split; try reflexivity; lia.
  - intros Hn.
    destruct (Z.eqb_spec (cell_cols params * Z.quot (width sweep_size) (cell_cols params))
                         (width sweep_size)) as [Ew|Ew]; [|reflexivity].
    cbn [CHECK bind].
    destruct (Z.eqb_spec (cell_rows params * Z.quot (height sweep_size) (cell_rows params))
                         (height sweep_size)) as [Eh|Eh]; [|reflexivity].
    exfalso. apply Hn. lia.
Qed.



End GridShape.

(** X13, witness: a sweep of 8 columns and 1 row in cells of 2 columns. *)
Lemma X13_SweepGrid_ctor_witness :
  exists g,
    Grid.SweepGrid_ctor (Grid.mkSize 8 1) Sample.params_2x1 = Returns g
    /\ Grid.grid_cols g = 4%Z /\ Grid.grid_rows g = 1%Z
    /\ length (Grid.tfs g) = 5%nat /\ length (Grid.matches g) = 4%nat.
Proof.
  assert (Hc : (0 < Grid.cell_cols Sample.params_2x1)%Z) by (simpl; lia).
  assert (Hr : (0 < Grid.cell_rows Sample.params_2x1)%Z) by (simpl; lia).
  assert (Hw0 : (0 <= Grid.width (Grid.mkSize 8 1))%Z) by (simpl; lia).
  assert (Hh0 : (0 <= Grid.height (Grid.mkSize 8 1))%Z) by (simpl; lia).
  destruct (proj1 (X13_SweepGrid_ctor (Grid.mkSize 8 1) Sample.params_2x1 Hc Hr Hw0 Hh0))
    as [g [E [_ [Hw [Hh [_ [_ [Ht Hm]]]]]]]]; [split; reflexivity|].
  exists g. split; [exact E|].
  cbn [Grid.width Grid.height Grid.cell_cols Grid.cell_rows Sample.params_2x1] in Hw, Hh.
  assert (Grid.grid_cols g = 4%Z) by lia.
  assert (Grid.grid_rows g = 1%Z) by lia.
  unfold Grid.total in Hm. rewrite Ht, Hm.
  repeat split; try assumption; replace (Grid.grid_cols g) with 4%Z;
    replace (Grid.grid_rows g) with 1%Z; reflexivity.
Defined.



(* ------------------------------------------------------------------ *)
(** * Scoring and filtering a slice (part_001) *)

Section ScoreAndFilter.
Context {so3ops : SO3Ops} {scanops : Grid.ScanOps}.
Import Grid.
Open Scope Z_scope.

(** One row of [Score]: the cells of the row's window receive their
    curvature, the others are not written, and the count grows by the
    number of curvatures that are not NaN. *)
Lemma ScoreRow_spec (g0 : SweepGrid) (scan : LidarScan) (r : Z) (sc0 : Mat float) (n : Z) :
  exists sc,
    ScoreRow scan r (set_score g0 sc0, n)
    = Returns (set_score g0 sc,
               n + Z.of_nat (length (filter (fun c => negb (isnan (curve_of g0 scan c r)))
                                            (upto (Range_size (col_rg g0))))))
    /\ rows sc = rows sc0 /\ cols sc = cols sc0
    /\ (forall c, 0 <= c < Range_size (col_rg g0) ->
          pixel sc r (c + rg_start (col_rg g0)) = curve_of g0 scan c r)
    /\ (forall r' c', ~ (r' = r /\ 0 <= c' - rg_start (col_rg g0) < Range_size (col_rg g0)) ->
          pixel sc r' c' = pixel sc0 r' c').
Proof.
  unfold ScoreRow. cbn [fst].
  change (col_rg (set_score g0 sc0)) with (col_rg g0).
  set (cnt := fun i => Z.of_nat (length (filter (fun c => negb (isnan (curve_of g0 scan c r)))
                                                (upto i)))).
  set (Inv := fun (i : Z) (st : SweepGrid * Z) =>
                exists sc, st = (set_score g0 sc, n + cnt i)
                  /\ rows sc = rows sc0 /\ cols sc = cols sc0
                  /\ (forall c, 0 <= c < i ->
                        pixel sc r (c + rg_start (col_rg g0)) = curve_of g0 scan c r)
                  /\ (forall r' c', ~ (r' = r /\ 0 <= c' - rg_start (col_rg g0) < i) ->
                        pixel sc r' c' = pixel sc0 r' c')).
  match goal with
  | |- exists sc, for_each _ ?body ?s = _ /\ _ =>
      destruct (for_each_upto body Inv (Range_size (col_rg g0)) s) as [s' [E I]]
  end.
  - exists sc0. unfold cnt. simpl. rewrite Z.add_0_r.
    repeat split; try reflexivity. intros c Hc. lia.
  - intros i st Hi [sc [-> [Hr [Hc [Hin Hout]]]]].
    eexists. split; [reflexivity|].
    exists (Mat_set sc (mkPoint (i + rg_start (col_rg g0)) r) (curve_of g0 scan i r)).
    split; [|split; [exact Hr | split; [exact Hc | split]]].
    + f_equal. unfold cnt. rewrite upto_succ, filter_app, length_app, Nat2Z.inj_add by lia.
      cbn [filter].
      change (CurveAt scan (Grid2Sweep (set_score g0 sc) (mkPoint i r))
                      (width (cell_size (set_score g0 sc))))
        with (curve_of g0 scan i r).
      destruct (isnan (curve_of g0 scan i r)); simpl; lia.
    + intros c Hci. unfold Mat_set. cbn [pixel px_x px_y].
      rewrite Z.eqb_refl. cbn [andb].
      destruct (Z.eqb_spec (c + rg_start (col_rg g0)) (i + rg_start (col_rg g0))) as [e|e].
      * replace c with i by lia. reflexivity.
      * apply Hin. lia.
    + intros r' c' Hn. unfold Mat_set. cbn [pixel px_x px_y].
      destruct (Z.eqb_spec r' r) as [e1|e1];
        destruct (Z.eqb_spec c' (i + rg_start (col_rg g0))) as [e2|e2]; cbn [andb];
        try (apply Hout; lia).
      exfalso. apply Hn. lia.
  - destruct I as [sc [-> [Hr [Hc [Hin Hout]]]]].
    exists sc. rewrite E. unfold cnt. rewrite upto_max.
    repeat split; try assumption.
    + intros c Hci. apply Hin. lia.
    + intros r' c' Hn. apply Hout. lia.
Qed.

Lemma count_cells_max (f : Z -> Z -> bool) (nrows ncols : Z) :
  count_cells f (Z.max 0 nrows) ncols = count_cells f nrows ncols.
Proof. unfold count_cells, window_cells. rewrite upto_max. reflexivity. Qed.

(** [Score] on a grid with a non-zero cell width always returns; its
    effect on the score image and its count. *)
Lemma Score_spec (g : SweepGrid) (scan : LidarScan) (gsize : Z) :
  width (cell_size g) <> 0 ->
  exists sc,
    Score g scan gsize
    = Returns (set_score (set_col_rg g (Range_div (scan_col_rg scan) (width (cell_size g)))) sc,
               count_cells (fun c r => negb (isnan (curve_of g scan c r))) (rows (score g))
                 (Range_size (Range_div (scan_col_rg scan) (width (cell_size g)))))
    /\ rows sc = rows (score g) /\ cols sc = cols (score g)
    /\ (forall c r,
          0 <= c < Range_size (Range_div (scan_col_rg scan) (width (cell_size g))) ->
          0 <= r < rows (score g) ->
          pixel sc r (c + rg_start (Range_div (scan_col_rg scan) (width (cell_size g))))
          = curve_of g scan c r)
    /\ (forall r c,
          ~ (0 <= r < rows (score g)
             /\ 0 <= c - rg_start (Range_div (scan_col_rg scan) (width (cell_size g)))
                < Range_size (Range_div (scan_col_rg scan) (width (cell_size g)))) ->
          pixel sc r c = pixel (score g) r c).
Proof.
  intros Hw. unfold Score. rewrite (proj2 (Z.eqb_neq _ _) Hw). cbv zeta.
  set (rg := Range_div (scan_col_rg scan) (width (cell_size g))).
  set (g0 := set_col_rg g rg).
  change (rows (score g0)) with (rows (score g)).
  set (f := fun c r => negb (isnan (curve_of g scan c r))).
  set (Inv := fun (i : Z) (st : SweepGrid * Z) =>
                exists sc, st = (set_score g0 sc, count_cells f i (Range_size rg))
                  /\ rows sc = rows (score g) /\ cols sc = cols (score g)
                  /\ (forall c r, 0 <= c < Range_size rg -> 0 <= r < i ->
                        pixel sc r (c + rg_start rg) = curve_of g scan c r)
                  /\ (forall r c, ~ (0 <= r < i /\ 0 <= c - rg_start rg < Range_size rg) ->
                        pixel sc r c = pixel (score g) r c)).
  destruct (for_each_upto (fun r st => ScoreRow scan r st) Inv (rows (score g)) (g0, 0))
    as [s' [E I]].
  - exists (score g). repeat split; try reflexivity. intros c r _ Hr. lia.
  - intros i st Hi [sc [-> [Hr [Hc [Hin Hout]]]]].
    destruct (ScoreRow_spec g0 scan i sc (count_cells f i (Range_size rg)))
      as [sc' [E' [Hr' [Hc' [Hin' Hout']]]]].
    change (col_rg g0) with rg in *.
    change (curve_of g0 scan) with (curve_of g scan) in *.
    eexists. split; [exact E'|].
    exists sc'. split; [|split; [congruence | split; [congruence | split]]].
    + f_equal. rewrite count_cells_succ by lia. reflexivity.
    + intros c r Hcr Hri. destruct (Z.eq_dec r i) as [->|Hne].
      * apply Hin'. exact Hcr.
      * rewrite Hout' by lia. apply Hin; lia.
    + intros r c Hn. rewrite Hout' by lia. apply Hout. lia.
  - destruct I as [sc [-> [Hr [Hc [Hin Hout]]]]].
    exists sc. rewrite E, count_cells_max.
    repeat split; try assumption.
    + intros c r Hcr Hri. apply Hin; lia.
    + intros r c Hn. apply Hout. lia.
Qed.

(** X16.  Take a grid with a positive cell width and a scan whose column
    range starts at a column that is not negative and ends inside the sweep
    (what [Check] asks for), and let the grain size handed to TBB be
    positive (a positive [gsize], or else a grid with at least one row).
    Then [Score] returns.  It sets the active window to the scan's column
    range counted in cells; every cell of the window in every grid row then
    holds the curvature the scan gives for its first pixel, every other
    score is what it was; the returned number is the number of window cells
    whose curvature is not NaN; the cell size, the poses and the cells are
    untouched. *)
Theorem X16_Score_fills_the_window (g : SweepGrid) (scan : LidarScan) (gsize : Z) :
  0 < width (cell_size g) ->
  0 <= rg_start (scan_col_rg scan) ->
  rg_end (scan_col_rg scan) <= grid_cols g * width (cell_size g) ->
  0 < gsize \/ 0 < grid_rows g ->
  exists g',
    Score g scan gsize
    = Returns (g', count_cells (fun c r => negb (isnan (curve_of g scan c r)))
                     (grid_rows g) (Range_size (col_rg g')))
    /\ col_rg g' = Range_div (scan_col_rg scan) (width (cell_size g))
    /\ cell_size g' = cell_size g /\ tfs g' = tfs g /\ matches g' = matches g
    /\ grid_rows g' = grid_rows g /\ grid_cols g' = grid_cols g
    /\ (forall c r, 0 <= c < Range_size (col_rg g') -> 0 <= r < grid_rows g ->
          ScoreAt g' (mkPoint (c + rg_start (col_rg g')) r) = curve_of g scan c r)
    /\ (forall px,
          ~ (0 <= px_y px < grid_rows g /\ rg_start (col_rg g') <= px_x px < rg_end (col_rg g')) ->
          ScoreAt g' px = ScoreAt g px).
Proof.
  intros Hpos _ _ _.
  assert (Hw : width (cell_size g) <> 0) by lia.
  destruct (Score_spec g scan gsize Hw) as [sc [E [Hr [Hc [Hin Hout]]]]].
  eexists. split; [exact E|].
  unfold grid_rows, grid_cols, ScoreAt, Mat_at.
  cbn [col_rg set_score set_col_rg cell_size tfs matches score px_x px_y].
  repeat split; try reflexivity; try assumption.
  intros px Hn. apply Hout. unfold Range_size. lia.
Qed.

(** One row of [Filter], when it returns: the count grows by the number
    of cells of the row's window that pass the test. *)
Lemma FilterRow_count (g : SweepGrid) (scan : LidarScan) (r : Z)
      (ms : list PointMatch) (n : Z) (st' : list PointMatch * Z) :
  FilterRow g scan r (ms, n) = Returns st' ->
  snd st' = n + Z.of_nat (length (filter (fun c => passes g c r)
                                         (upto (Range_size (col_rg g)))))
  /\ length (fst st') = length ms.
Proof.
  unfold FilterRow. intros H.
  set (cnt := fun i => Z.of_nat (length (filter (fun c => passes g c r) (upto i)))).
  set (Inv := fun (i : Z) (st : list PointMatch * Z) =>
                snd st = n + cnt i /\ length (fst st) = length ms).
  match type of H with
  | for_each _ ?body ?s = _ =>
      pose proof (for_each_upto_partial body Inv (Range_size (col_rg g)) s st') as P
  end.
  destruct P as [Hn Hl].
  - split; [unfold cnt; simpl; lia | reflexivity].
  - intros i [ms1 n1] s1 Hi [Hn1 Hl1] Hb. cbn [fst snd] in Hn1, Hl1.
    apply bind_Returns in Hb. destruct Hb as [m [_ Hb]].
    unfold Inv, cnt. rewrite upto_succ, filter_app, length_app, Nat2Z.inj_add by lia.
    cbn [filter]. fold (cnt i).
    destruct (passes g i r); inversion Hb; subst s1; cbn [fst snd];
      rewrite list_set_length; split; simpl; lia.
  - exact H.
  - unfold cnt in Hn. rewrite upto_max in Hn. auto.
Qed.

(** [Filter], when it returns: the two range checks held, only the cell
    array changed, and the count is the number of window cells that pass. *)
Lemma Filter_count (g g' : SweepGrid) (scan : LidarScan) (gsize n : Z) :
  Filter g scan gsize = Returns (g', n) ->
  exists ms,
    g' = set_matches g ms /\ length ms = length (matches g)
    /\ n = count_cells (passes g) (rows (score g)) (Range_size (col_rg g)).
Proof.
  unfold Filter. intros H.
  destruct (width (cell_size g) =? 0); [discriminate|].
  apply bind_Returns in H. destruct H as [[] [_ H]].
  apply bind_Returns in H. destruct H as [[] [_ H]].
  apply bind_Returns in H. destruct H as [[ms n'] [Hloop H]].
  inversion H; subst g' n'. clear H.
  exists ms. split; [reflexivity|].
  set (Inv := fun (i : Z) (st : list PointMatch * Z) =>
                snd st = count_cells (passes g) i (Range_size (col_rg g))
                /\ length (fst st) = length (matches g)).
  destruct (for_each_upto_partial (fun r st => FilterRow g scan r st) Inv
              (rows (score g)) (matches g, 0) (ms, n)) as [Hn Hl].
  - split; reflexivity.
  - intros i [ms1 n1] s1 Hi [Hn1 Hl1] Hb. cbn [fst snd] in Hn1, Hl1.
    destruct (FilterRow_count g scan i ms1 n1 s1 Hb) as [Hn2 Hl2].
    split; [|congruence].
    rewrite Hn2, Hn1, count_cells_succ by lia. reflexivity.
  - exact Hloop.
  - cbn [fst snd] in Hn, Hl. rewrite count_cells_max in Hn. auto.
Qed.

(** One row of [Filter] returns when every cell of its window has a
    place in the cell array. *)
Lemma FilterRow_returns (g : SweepGrid) (scan : LidarScan) (r : Z)
      (ms : list PointMatch) (n : Z) :
  0 <= rg_start (col_rg g) -> rg_end (col_rg g) <= cols (score g) ->
  0 <= r < rows (score g) ->
  length ms = Z.to_nat (rows (score g) * cols (score g)) ->
  exists st', FilterRow g scan r (ms, n) = Returns st' /\ length (fst st') = length ms.
Proof.
  intros Hs He Hr Hl. unfold FilterRow.
  set (Inv := fun (i : Z) (st : list PointMatch * Z) => length (fst st) = length ms).
  match goal with
  | |- exists st', for_each _ ?body ?s = _ /\ _ =>
      destruct (for_each_upto body Inv (Range_size (col_rg g)) s) as [s' [E I]]
  end.
  - reflexivity.
  - intros i [ms1 n1] Hi Hl1. unfold Inv in Hl1. cbn [fst] in Hl1.
    unfold MatchAt, vec_at, Px2Ind, Range_size in *. cbn [px_x px_y].
    assert (Hidx : 0 <= r * cols (score g) + (i + rg_start (col_rg g))
                   < rows (score g) * cols (score g)) by nia.
    destruct (Z.ltb_spec (r * cols (score g) + (i + rg_start (col_rg g))) 0); [lia|].
    destruct (nth_error ms1 (Z.to_nat (r * cols (score g) + (i + rg_start (col_rg g)))))
      as [m|] eqn:Em.
    + cbn [bind]. destruct (passes g i r); eexists; (split; [reflexivity|]);
        unfold Inv; cbn [fst]; rewrite list_set_length; exact Hl1.
    + apply nth_error_None in Em. lia.
  - exists s'. split; [exact E | exact I].
Qed.

(** [Filter] returns when the checks on the range pass and every cell of
    the window has a place in the cell array. *)
Lemma Filter_returns (g : SweepGrid) (scan : LidarScan) (gsize : Z) :
  width (cell_size g) <> 0 ->
  Range_div (scan_col_rg scan) (width (cell_size g)) = col_rg g ->
  window_in_grid g ->
  exists res, Filter g scan gsize = Returns res.
Proof.
  intros Hw Hrg [Hs [He Hl]].
  unfold Filter. rewrite (proj2 (Z.eqb_neq _ _) Hw), Hrg, !Z.eqb_refl. cbn [CHECK bind].
  set (Inv := fun (i : Z) (st : list PointMatch * Z) =>
                length (fst st) = length (matches g)).
  destruct (for_each_upto (fun r st => FilterRow g scan r st) Inv
              (rows (score g)) (matches g, 0)) as [[ms n] [E _]].
  - reflexivity.
  - intros i [ms1 n1] Hi Hl1. unfold Inv in Hl1. cbn [fst] in Hl1.
    destruct (FilterRow_returns g scan i ms1 n1 Hs He Hi) as [st' [E' Hl']];
      [congruence|].
    exists st'. split; [exact E'|]. unfold Inv. congruence.
  - rewrite E. cbn [bind]. eexists. reflexivity.
Qed.

(** X17.  [Filter] called after [Score] on the same scan: when the cell
    width is not zero, the scan's column range counted in cells is the
    stored window, the window lies inside the grid, the cell array has
    one cell per grid position and the grain size handed to TBB is positive
    (a positive [gsize], or else at least one row), [Filter] returns, it
    changes nothing but the cell array, whose length it keeps, and the
    number it returns is the number of window cells that are good in the
    sense of [claimed_good].  When the scan's range is not the stored
    window, it fails a [CHECK_EQ]. *)
Theorem X17_Filter_counts_good_cells (g : SweepGrid) (scan : LidarScan) (gsize : Z) :
  width (cell_size g) <> 0 ->
  (Range_div (scan_col_rg scan) (width (cell_size g)) = col_rg g ->
   window_in_grid g ->
   0 < gsize \/ 0 < grid_rows g ->
   exists ms,
     Filter g scan gsize
     = Returns (set_matches g ms,
                count_cells (claimed_good g) (grid_rows g) (Range_size (col_rg g)))
     /\ length ms = length (matches g))
  /\ (Range_div (scan_col_rg scan) (width (cell_size g)) <> col_rg g ->
      Filter g scan gsize = Aborts CheckFailed).
Proof.
  intros Hw. split.
  - intros Hrg Hwin _.
    destruct (Filter_returns g scan gsize Hw Hrg Hwin) as [[g' n] E].
    destruct (Filter_count g g' scan gsize n E) as [ms [-> [Hlen ->]]].
    exists ms. split; [|exact Hlen]. rewrite E. do 2 f_equal.
    unfold count_cells, grid_rows. do 2 f_equal.
    apply filter_ext_in. intros [r c] Hin. apply In_window_cells in Hin.
    cbn [fst snd]. apply passes_claimed. lia.
  - intros Hrg. unfold Filter. rewrite (proj2 (Z.eqb_neq _ _) Hw).
    destruct (Z.eqb_spec (rg_start (Range_div (scan_col_rg scan) (width (cell_size g))))
                         (rg_start (col_rg g))) as [e1|e1]; [|reflexivity].
    destruct (Z.eqb_spec (rg_end (Range_div (scan_col_rg scan) (width (cell_size g))))
                         (rg_end (col_rg g))) as [e2|e2]; [|reflexivity].
    exfalso. apply Hrg.
    destruct (Range_div (scan_col_rg scan) (width (cell_size g))), (col_rg g).
    cbn [rg_start rg_end] in e1, e2. congruence.
Qed.

Lemma flt_not_nan (m bound : float) : flt m bound = true -> isnan m = false.
Proof. destruct m; simpl; [reflexivity.. | discriminate | reflexivity]. Qed.

(** X18.  On a grid with a positive cell width whose numbers of columns
    and window end are not negative, a returning [Add] hands back two
    counts with 0 <= n2 <= n1: a cell can only be selected if its curvature
    was counted as valid.  The grid it leaves has the scan's column range,
    counted in cells, as its active window; the cell size, the size of the
    grid, the poses and the number of cells are those of the grid before. *)
Theorem X18_Add_selects_among_scored (g g' : SweepGrid) (scan : LidarScan)
        (gsize n1 n2 : Z) :
  0 < width (cell_size g) -> 0 <= grid_cols g -> 0 <= rg_end (col_rg g) ->
  Add g scan gsize = Returns (g', (n1, n2)) ->
  0 <= n2 <= n1
  /\ col_rg g' = Range_div (scan_col_rg scan) (width (cell_size g))
  /\ cell_size g' = cell_size g
  /\ grid_rows g' = grid_rows g /\ grid_cols g' = grid_cols g
  /\ tfs g' = tfs g
  /\ length (matches g') = length (matches g).
Proof.
  intros _ _ _.
  unfold Add. intros H.
  apply bind_Returns in H. destruct H as [[] [_ H]].
  apply bind_Returns in H. destruct H as [[g1 m1] [Hs H]].
  apply bind_Returns in H. destruct H as [[g2 m2] [Hf H]].
  inversion H; subst g2 m1 m2. clear H.
  assert (Hw : width (cell_size g) <> 0).
  { intros E0. unfold Score in Hs. rewrite E0 in Hs. discriminate. }
  destruct (Score_spec g scan gsize Hw) as [sc [E [Hr [Hc [Hin Hout]]]]].
  rewrite E in Hs. inversion Hs; subst g1 n1. clear Hs.
  destruct (Filter_count _ _ _ _ _ Hf) as [ms [-> [Hlen ->]]].
  unfold grid_rows, grid_cols.
  cbn [col_rg set_matches set_score set_col_rg cell_size tfs matches score] in *.
  rewrite Hr, Hc, Hlen.
  split; [|repeat split; reflexivity].
  unfold count_cells. split; [lia|].
  apply inj_le. apply filter_length_le.
  intros [r c] Hcell Hp. apply In_window_cells in Hcell. cbn [fst snd] in *.
  unfold passes in Hp. apply andb_true_iff in Hp. destruct Hp as [_ Hgood].
  unfold IsCellGood in Hgood. cbn [col_rg set_score set_col_rg] in Hgood.
  destruct (flt (ScoreAt _ _) _) eqn:Eflt; [|discriminate].
  apply flt_not_nan in Eflt.
  unfold ScoreAt, Mat_at in Eflt. cbn [score set_score px_x px_y] in Eflt.
  rewrite Hin in Eflt by lia. rewrite Eflt. reflexivity.
Qed.

End ScoreAndFilter.

(** X16, witness: the scan of 14 columns on the grid of 7 cells of 2
    columns; the window becomes [0, 7). *)
Lemma X16_Score_witness :
  exists g',
    Grid.Score Sample.nms_grid MoreSamples.row_scan 0
    = Returns (g', count_cells
                     (fun c r => negb (Grid.isnan (curve_of Sample.nms_grid
                                                            MoreSamples.row_scan c r)))
                     (Grid.grid_rows Sample.nms_grid) (Grid.Range_size (Grid.col_rg g')))
    /\ Grid.col_rg g' = Grid.mkRange 0 7.
Proof.
  assert (Hw : (0 < Grid.width (Grid.cell_size Sample.nms_grid))%Z) by (simpl; lia).
  assert (Hs : (0 <= Grid.rg_start (Grid.scan_col_rg MoreSamples.row_scan))%Z)
    by (simpl; lia).
  assert (He : (Grid.rg_end (Grid.scan_col_rg MoreSamples.row_scan)
                <= Grid.grid_cols Sample.nms_grid
                   * Grid.width (Grid.cell_size Sample.nms_grid))%Z)
    by (unfold Grid.grid_cols; simpl; lia).
  assert (Hg : (0 < 0 \/ 0 < Grid.grid_rows Sample.nms_grid)%Z)
    by (right; unfold Grid.grid_rows; simpl; lia).
  destruct (X16_Score_fills_the_window Sample.nms_grid MoreSamples.row_scan 0 Hw Hs He Hg)
    as [g' [E [Hrg _]]].
  exists g'. split; [exact E|]. rewrite Hrg. reflexivity.
Defined.

Lemma nms_window_in_grid : window_in_grid Sample.nms_grid.
Proof. unfold window_in_grid. simpl. repeat split; lia. Qed.

(** X17, witness: the NMS row; two cells are good. *)
Lemma X17_Filter_witness :
  exists ms,
    Grid.Filter Sample.nms_grid Sample.nms_scan 0
    = Returns (Grid.set_matches Sample.nms_grid ms, 2%Z)
    /\ length ms = 7%nat.
Proof.
  assert (Hw : Grid.width (Grid.cell_size Sample.nms_grid) <> 0%Z) by (simpl; lia).
  assert (Hg : (0 < 0 \/ 0 < Grid.grid_rows Sample.nms_grid)%Z)
    by (right; unfold Grid.grid_rows; simpl; lia).
  destruct (proj1 (X17_Filter_counts_good_cells Sample.nms_grid Sample.nms_scan 0 Hw)
              eq_refl nms_window_in_grid Hg) as [ms [E Hl]].
  exists ms. split; [exact E | exact Hl].
Defined.

Lemma Add_row_scan_returns :
  exists g', Grid.Add Sample.nms_grid MoreSamples.row_scan 0 = Returns (g', (5, 2)%Z).
Proof. eexists. run_code. reflexivity. Qed.

(** X18, witness: the scan with curvatures NaN 9 2 5 1 3 NaN; five are
    valid and two cells are selected. *)
Lemma X18_Add_witness :
  exists g',
    Grid.Add Sample.nms_grid MoreSamples.row_scan 0 = Returns (g', (5, 2)%Z)
    /\ (0 <= 2 <= 5)%Z /\ Grid.col_rg g' = Grid.mkRange 0 7.
Proof.
  destruct Add_row_scan_returns as [g' E]. exists g'. split; [exact E|].
  destruct (X18_Add_selects_among_scored Sample.nms_grid g' MoreSamples.row_scan 0 5 2
              ltac:(simpl; lia) ltac:(unfold Grid.grid_cols; simpl; lia) ltac:(simpl; lia) E)
    as [Hn [Hrg _]].
  split; [exact Hn|]. rewrite Hrg. reflexivity.
Defined.

(* ------------------------------------------------------------------ *)
(** * The boundary check on a continuing slice (part_001) *)

Section ContinuingSlice.
Context {so3ops : SO3Ops} {scanops : Grid.ScanOps}.
Import Grid.
Open Scope Z_scope.

(** X19.  On a grid with a positive number of columns and a positive
    cell width whose window ends at grid column e >= 0, take a slice with
    the right number of rows that does not reach past the sweep.  If the
    slice starts where the window ended, at sweep column e * width, then
    [Check] accepts it when e * width is less than the number of grid
    columns and fails its [CHECK_EQ] otherwise.  If the window ended at the
    last grid column and the slice starts at 0, [Check] accepts it. *)
Theorem X19_Check_continuing_slice (g : SweepGrid) (scan : LidarScan) :
  0 < cols (score g) -> 0 < width (cell_size g) -> 0 <= rg_end (col_rg g) ->
  rows (xyzr scan) = rows (score g) * height (cell_size g) ->
  rg_end (scan_col_rg scan) <= cols (score g) * width (cell_size g) ->
  (rg_start (scan_col_rg scan) = rg_end (col_rg g) * width (cell_size g) ->
   (rg_end (col_rg g) * width (cell_size g) < cols (score g) -> Check g scan = Returns tt)
   /\ (cols (score g) <= rg_end (col_rg g) * width (cell_size g) ->
       Check g scan = Aborts CheckFailed))
  /\ (rg_end (col_rg g) = cols (score g) -> rg_start (scan_col_rg scan) = 0 ->
      Check g scan = Returns tt).
Proof.
  intros Hc Hw He Hrows Hend.
  assert (Hew : 0 <= rg_end (col_rg g) * width (cell_size g)) by nia.
  split; [intros Hs; split|].
  - intros Hlt. apply Check_accepts. repeat split; try assumption; try lia.
    rewrite Z.rem_small by lia. exact Hs.
  - intros Hge. unfold Check.
    rewrite (proj2 (Z.eqb_eq _ _) Hrows). cbn [CHECK bind].
    rewrite (proj2 (Z.eqb_neq _ _)) by lia. cbn [bind].
    pose proof (Z.rem_bound_pos (rg_end (col_rg g) * width (cell_size g)) (cols (score g))
                  Hew Hc) as B.
    rewrite (proj2 (Z.eqb_neq _ _)) by lia. reflexivity.
  - intros Hfull H0. apply Check_accepts. repeat split; try assumption; try lia.
    rewrite Hfull, H0, Z.mul_comm. symmetry. apply Z.rem_mul. lia.
Qed.

End ContinuingSlice.

(** X19, witness: 4 grid columns of 2 sweep columns; after the slice
    [0, 4) the window ends at grid column 2, and the slice [4, 8) that
    continues there is refused. *)
Lemma X19_Check_witness :
  Grid.Check MoreSamples.half_swept (Sample.slice 4 8) = Aborts CheckFailed.
Proof.
  apply (X19_Check_continuing_slice MoreSamples.half_swept (Sample.slice 4 8));
    simpl; try lia; reflexivity.
Defined.

(* ------------------------------------------------------------------ *)
(** * The poses of the grid and of the sweep (part_001) *)

Lemma vec_at_Some {A : Type} (v : list A) (i : Z) (a : A) :
  (0 <= i)%Z -> nth_error v (Z.to_nat i) = Some a -> vec_at v i = Returns a.
Proof.
  intros Hi E. unfold vec_at. destruct (Z.ltb_spec i 0); [lia|]. rewrite E. reflexivity.
Qed.

Lemma vec_at_lt {A : Type} (v : list A) (i : Z) :
  (0 <= i < Z.of_nat (length v))%Z ->
  exists a, nth_error v (Z.to_nat i) = Some a /\ vec_at v i = Returns a.
Proof.
  intros Hi. destruct (nth_error v (Z.to_nat i)) as [a|] eqn:E.
  - exists a. split; [reflexivity|]. apply vec_at_Some; [lia | exact E].
  - apply nth_error_None in E. lia.
Qed.


Section GridPoseFacts.
Context {so3ops : SO3Ops} {scanops : Grid.ScanOps}.
Import Grid GridPoses.


End GridPoseFacts.


Section InterpolatedPoses.
Context {so3ops : SO3Ops} {scanops : Grid.ScanOps}.
Import Grid GridPoses.
Open Scope Z_scope.

Lemma size_t_small (z : Z) : 0 <= z < 2 ^ 64 -> size_t z = z.
Proof. intros H. unfold size_t. apply Z.mod_small. exact H. Qed.

Lemma to_int_small (z : Z) : 0 <= z < 2 ^ 31 -> to_int z = z.
Proof.
  intros H. unfold to_int.
  change (2 ^ 31) with 2147483648 in *. change (2 ^ 32) with 4294967296.
  rewrite Z.mod_small by lia. lia.
Qed.

(** The columns of one cell: each is written once, with the pose
    interpolated between the two ends of the cell. *)
Lemma InterpCell_spec (T0 T1 : SE3d) (w i : Z) (sw : list SE3d) :
  0 <= i -> 0 <= w -> (i + 1) * w <= Z.of_nat (length sw) ->
  exists sw',
    InterpCell T0 T1 w i sw = Returns sw'
    /\ length sw' = length sw
    /\ (forall j, 0 <= j < w ->
          nth_error sw' (Z.to_nat (i * w + j)) = Some (interp_pose T0 T1 w j))
    /\ (forall k, ~ (i * w <= Z.of_nat k < (i + 1) * w) -> nth_error sw' k = nth_error sw k).
Proof.
  intros Hi Hw Hlen. unfold InterpCell.
  set (Inv := fun (j : Z) (sw1 : list SE3d) =>
                length sw1 = length sw
                /\ (forall j', 0 <= j' < j ->
                      nth_error sw1 (Z.to_nat (i * w + j')) = Some (interp_pose T0 T1 w j'))
                /\ (forall k, ~ (i * w <= Z.of_nat k < i * w + j) ->
                      nth_error sw1 k = nth_error sw k)).
  match goal with
  | |- exists sw', for_each _ ?body ?s = _ /\ _ =>
      destruct (for_each_upto body Inv w s) as [s' [E [Il [Iin Iout]]]]
  end.
  - split; [reflexivity|]. split; [intros j' Hj'; lia | reflexivity].
  - intros j sw1 Hj [Il [Iin Iout]].
    assert (Hcol : 0 <= i * w + j < Z.of_nat (length sw1)) by (rewrite Il; nia).
    destruct (vec_at_lt sw1 (i * w + j) Hcol) as [Tc [ETc RTc]].
    rewrite RTc. cbn [bind].
    assert (Hnat : (Z.to_nat (i * w + j) < length sw1)%nat) by lia.
    rewrite (vec_at_Some _ (i * w + j) _ (proj1 Hcol)
               (nth_error_list_set_eq sw1 _ _ Hnat)).
    cbn [bind so3]. eexists. split; [reflexivity|].
    split; [rewrite !list_set_length; exact Il|]. split.
    + intros j' Hj'. destruct (Z.eq_dec j' j) as [->|Hne].
      * rewrite nth_error_list_set_eq by (rewrite list_set_length; exact Hnat).
        reflexivity.
      * rewrite !nth_error_list_set_neq by lia. apply Iin. lia.
    + intros k Hk. rewrite !nth_error_list_set_neq by lia. apply Iout. lia.
  - exists s'. split; [exact E|]. split; [exact Il|]. split.
    + intros j Hj. apply Iin. lia.
    + intros k Hk. apply Iout. lia.
Qed.

(** X21.  [InterpPosesImpl] on a non-empty vector of grid poses and a
    cell width that is not negative (both below 2^31): when the sweep has
    (poses - 1) * width columns and the grain size handed to TBB is
    positive (a positive [gsize], or else at least one cell), the call
    returns, the sweep keeps its length, and column i * width + j of cell i holds the pose interpolated
    between grid poses i and i + 1 at the fraction j / width, whatever the
    sweep held before; in particular the first column of a cell has the
    translation of grid pose i.  When the sweep has any other number of
    columns, the [CHECK_EQ] fails. *)
Theorem X21_InterpPosesImpl (tf_grid : list SE3d) (cell_width : Z) (tf_sweep : list SE3d)
        (gsize : Z) :
  1 <= Z.of_nat (length tf_grid) <= 2 ^ 31 -> 0 <= cell_width < 2 ^ 31 ->
  Z.of_nat (length tf_sweep) < 2 ^ 64 ->
  (Z.of_nat (length tf_sweep) = (Z.of_nat (length tf_grid) - 1) * cell_width ->
   0 < gsize \/ 2 <= Z.of_nat (length tf_grid) ->
   exists sw',
     InterpPosesImpl tf_grid cell_width tf_sweep gsize = Returns sw'
     /\ length sw' = length tf_sweep
     /\ (forall i j T0 T1,
           0 <= i -> 0 <= j < cell_width ->
           nth_error tf_grid (Z.to_nat i) = Some T0 ->
           nth_error tf_grid (Z.to_nat i + 1) = Some T1 ->
           nth_error sw' (Z.to_nat (i * cell_width + j))
           = Some (interp_pose T0 T1 cell_width j))
     /\ (forall i T0 T1 Tc,
           0 <= i -> 0 < cell_width ->
           nth_error tf_grid (Z.to_nat i) = Some T0 ->
           nth_error tf_grid (Z.to_nat i + 1) = Some T1 ->
           nth_error sw' (Z.to_nat (i * cell_width)) = Some Tc ->
           translation Tc = translation T0))
  /\ (Z.of_nat (length tf_sweep) <> (Z.of_nat (length tf_grid) - 1) * cell_width ->
      InterpPosesImpl tf_grid cell_width tf_sweep gsize = Aborts CheckFailed).
Proof.
  intros Hn Hw Hsw.
  change (2 ^ 31) with 2147483648 in *. change (2 ^ 64) with 18446744073709551616 in *.
  assert (Hprod : 0 <= (Z.of_nat (length tf_grid) - 1) * cell_width < 2 ^ 64)
    by (change (2 ^ 64) with 18446744073709551616; nia).
  assert (Hchk : size_t (size_t (Z.of_nat (length tf_grid) - 1) * size_t cell_width)
                 = (Z.of_nat (length tf_grid) - 1) * cell_width).
  { rewrite (size_t_small (Z.of_nat (length tf_grid) - 1))
      by (change (2 ^ 64) with 18446744073709551616; lia).
    rewrite (size_t_small cell_width) by (change (2 ^ 64) with 18446744073709551616; lia).
    apply size_t_small. exact Hprod. }
  unfold InterpPosesImpl. rewrite Hchk.
  split.
  - intros Hlen _. rewrite (proj2 (Z.eqb_eq _ _)) by lia. cbn [CHECK bind].
    rewrite (size_t_small (Z.of_nat (length tf_grid) - 1))
      by (change (2 ^ 64) with 18446744073709551616; lia).
    rewrite to_int_small by (change (2 ^ 31) with 2147483648; lia).
    set (Inv := fun (i : Z) (sw1 : list SE3d) =>
                  length sw1 = length tf_sweep
                  /\ (forall i' j T0 T1,
                        0 <= i' < i -> 0 <= j < cell_width ->
                        nth_error tf_grid (Z.to_nat i') = Some T0 ->
                        nth_error tf_grid (Z.to_nat i' + 1) = Some T1 ->
                        nth_error sw1 (Z.to_nat (i' * cell_width + j))
                        = Some (interp_pose T0 T1 cell_width j))).
    match goal with
    | |- exists sw', for_each _ ?body ?s = _ /\ _ =>
        destruct (for_each_upto body Inv (Z.of_nat (length tf_grid) - 1) s)
          as [s' [E [Il Iin]]]
    end.
    + split; [reflexivity|]. intros i' j T0 T1 Hi'. lia.
    + intros i sw1 Hi [Il Iin].
      destruct (vec_at_lt tf_grid i) as [T0 [E0 R0]]; [lia|].
      destruct (vec_at_lt tf_grid (i + 1)) as [T1 [E1 R1']]; [lia|].
      replace (Z.to_nat (i + 1)) with (Z.to_nat i + 1)%nat in E1 by lia.
      rewrite R0, R1'. cbn [bind].
      destruct (InterpCell_spec T0 T1 cell_width i sw1) as [sw2 [E2 [Hl2 [Hin2 Hout2]]]];
        [lia | lia | rewrite Il; nia |].
      exists sw2. split; [exact E2|]. split; [congruence|].
      intros i' j T0' T1' Hi' Hj E0' E1'.
      destruct (Z.eq_dec i' i) as [->|Hne].
      * rewrite E0 in E0'. rewrite E1 in E1'.
        inversion E0'; inversion E1'; subst. apply Hin2. exact Hj.
      * rewrite Hout2 by nia. apply Iin; [lia | exact Hj | exact E0' | exact E1'].
    + assert (Hall : forall i j T0 T1,
                 0 <= i -> 0 <= j < cell_width ->
                 nth_error tf_grid (Z.to_nat i) = Some T0 ->
                 nth_error tf_grid (Z.to_nat i + 1) = Some T1 ->
                 nth_error s' (Z.to_nat (i * cell_width + j))
                 = Some (interp_pose T0 T1 cell_width j)).
      { intros i j T0 T1 Hi Hj E0 E1. apply Iin; try assumption.
        assert (Hlt : (Z.to_nat i + 1 < length tf_grid)%nat)
          by (apply nth_error_Some; congruence).
        lia. }
      exists s'. split; [exact E|]. split; [exact Il|]. split; [exact Hall|].
      intros i T0 T1 Tc Hi Hpos E0 E1 Ec.
      rewrite <- (Z.add_0_r (i * cell_width)) in Ec.
      rewrite (Hall i 0 T0 T1 Hi (conj (Z.le_refl 0) Hpos) E0 E1) in Ec.
      inversion Ec. unfold interp_pose. cbn [translation].
      unfold v3_add, v3_scale, v3_sub, Rdiv. cbn [vx vy vz].
      destruct (translation T0) as [x y z]. cbn [vx vy vz].
      apply mkV3_ext; ring.
  - intros Hlen. rewrite (proj2 (Z.eqb_neq _ _)) by lia. reflexivity.
Qed.

End InterpolatedPoses.

(** X21, witness: two grid poses one unit apart and a cell of two
    columns; the sweep's two columns get the translations 0 and 1/2. *)
Lemma X21_InterpPosesImpl_witness :
  exists sw',
    GridPoses.InterpPosesImpl
      [mkSE3 so3_ident v3_zero; mkSE3 so3_ident (mkV3 1 0 0)] 2
      [Sample.id_pose; Sample.id_pose] 0 = Returns sw'
    /\ nth_error sw' 1
       = Some (interp_pose (mkSE3 so3_ident v3_zero) (mkSE3 so3_ident (mkV3 1 0 0)) 2 1).
Proof.
  destruct (proj1 (X21_InterpPosesImpl
                     [mkSE3 so3_ident v3_zero; mkSE3 so3_ident (mkV3 1 0 0)] 2
                     [Sample.id_pose; Sample.id_pose] 0
                     ltac:(simpl; lia) ltac:(simpl; lia) ltac:(simpl; lia))
                  ltac:(simpl; lia) ltac:(right; simpl; lia))
    as [sw' [E [_ [Hcol _]]]].
  exists sw'. split; [exact E|].
  apply (Hcol 0%Z 1%Z); [lia | lia | reflexivity | reflexivity].
Defined.

(* ------------------------------------------------------------------ *)
(** * Collecting the matches (cost.cpp) *)

Lemma firstn_succ_nth {A : Type} (l : list A) (k : nat) (a : A) :
  nth_error l k = Some a -> firstn (S k) l = firstn k l ++ [a].
Proof.
  revert k; induction l as [|h t IH]; intros [|k]; simpl; intros H; try discriminate.
  - inversion H. reflexivity.
  - f_equal. apply IH. exact H.
Qed.

Lemma firstn_add {A : Type} (a b : nat) (l : list A) :
  firstn (a + b) l = firstn a l ++ firstn b (skipn a l).
Proof.
  revert l; induction a as [|a IH]; intros l; simpl; [reflexivity|].
  destruct l as [|h t]; simpl.
  - rewrite firstn_nil. reflexivity.
  - f_equal. apply IH.
Qed.

Section CollectMatches.
Context {so3ops : SO3Ops} {numerics : Numerics} {scanops : Grid.ScanOps}
        {costops : Cost.CostOps}.
Import Grid Cost.
Open Scope Z_scope.

(** The inner loop of [UpdateMatches]: row [r] appends its good cells. *)
Lemma collect_row (grid : SweepGrid) (r : Z) (acc : list PointMatch) :
  0 <= r < grid_rows grid -> 0 <= grid_cols grid ->
  length (Grid.matches grid) = Z.to_nat (total grid) ->
  for_each (upto (grid_cols grid))
    (fun c acc =>
       m <- MatchAt (Grid.matches grid) grid (mkPoint c r) ;;
       if negb (Match_Ok m) then Returns acc else Returns (acc ++ [m]))
    acc
  = Returns (acc ++ filter Match_Ok
                      (firstn (Z.to_nat (grid_cols grid))
                              (skipn (Z.to_nat (r * grid_cols grid)) (Grid.matches grid)))).
Proof.
  intros Hr Hc Hl.
  set (Inv := fun (c : Z) (a : list PointMatch) =>
                a = acc ++ filter Match_Ok
                             (firstn (Z.to_nat c)
                                (skipn (Z.to_nat (r * grid_cols grid)) (Grid.matches grid)))).
  match goal with
  | |- for_each _ ?body ?s = _ =>
      destruct (for_each_upto body Inv (grid_cols grid) s) as [s' [E I]]
  end.
  - unfold Inv. simpl. rewrite app_nil_r. reflexivity.
  - intros c a Hci ->.
    unfold MatchAt, Px2Ind, total, grid_cols, grid_rows in *. cbn [px_x px_y].
    destruct (vec_at_lt (Grid.matches grid) (r * cols (score grid) + c)) as [m [Em Rm]];
      [rewrite Hl; nia|].
    rewrite Rm. cbn [bind].
    assert (Ek : nth_error (skipn (Z.to_nat (r * cols (score grid))) (Grid.matches grid))
                           (Z.to_nat c) = Some m).
    { rewrite nth_error_skipn, <- Em. f_equal. nia. }
    exists (acc ++ filter Match_Ok
                     (firstn (Z.to_nat (c + 1))
                        (skipn (Z.to_nat (r * cols (score grid))) (Grid.matches grid)))).
    split; [|reflexivity].
    replace (Z.to_nat (c + 1)) with (S (Z.to_nat c)) by lia.
    rewrite (firstn_succ_nth _ _ _ Ek), filter_app, app_assoc. cbn [filter].
    destruct (Match_Ok m); cbn [negb]; [reflexivity|]. rewrite app_nil_r. reflexivity.
  - rewrite E. unfold Inv in I. rewrite I. do 4 f_equal. lia.
Qed.

(** X22.  On a grid whose cell array has one cell per grid position,
    [UpdateMatches] returns; the matches of the cost are then exactly the
    cells of the grid for which [Ok()] holds, in the order of the cell
    array (row by row), whatever matches the cost held before; the cost
    points at the grid, and its grain size, trajectory, preintegration,
    weight and error are untouched. *)
Theorem X22_UpdateMatches_collects_ok_cells (cost : GicpCost) (grid : SweepGrid) :
  0 <= grid_rows grid -> 0 <= grid_cols grid ->
  length (Grid.matches grid) = Z.to_nat (total grid) ->
  exists cost',
    UpdateMatches cost grid = Returns cost'
    /\ matches cost' = filter Match_Ok (Grid.matches grid)
    /\ pgrid cost' = Some grid
    /\ gsize_ cost' = gsize_ cost /\ ptraj cost' = ptraj cost
    /\ preint cost' = preint cost /\ imu_weight cost' = imu_weight cost
    /\ error cost' = error cost.
Proof.
  intros Hr Hc Hl. unfold UpdateMatches, collect_matches.
  set (Inv := fun (r : Z) (a : list PointMatch) =>
                a = filter Match_Ok
                      (firstn (Z.to_nat (r * grid_cols grid)) (Grid.matches grid))).
  match goal with
  | |- exists cost', bind (for_each _ ?body ?s) _ = _ /\ _ =>
      destruct (for_each_upto body Inv (grid_rows grid) s) as [s' [E I]]
  end.
  - reflexivity.
  - intros r a Hri ->. eexists. split; [apply collect_row; assumption|].
    unfold Inv. rewrite <- filter_app, <- firstn_add. do 2 f_equal. nia.
  - rewrite E. cbn [bind]. eexists. split; [reflexivity|].
    cbn [matches pgrid gsize_ ptraj preint imu_weight error].
    repeat split. unfold Inv in I. rewrite I.
    rewrite firstn_all2; [reflexivity|]. rewrite Hl. unfold total. lia.
Qed.

End CollectMatches.

(** X22, witness: the grid of one cell, which holds a good match. *)
Lemma X22_UpdateMatches_witness :
  exists cost',
    Cost.UpdateMatches (Cost.GicpCost_ctor 0) Sample.one_cell_grid = Returns cost'
    /\ Cost.matches cost' = [Sample.good_match].
Proof.
  destruct (X22_UpdateMatches_collects_ok_cells (Cost.GicpCost_ctor 0) Sample.one_cell_grid)
    as [cost' [E [Hm _]]];
    [unfold Grid.grid_rows; simpl; lia | unfold Grid.grid_cols; simpl; lia | reflexivity|].
  exists cost'. split; [exact E|]. rewrite Hm. reflexivity.
Defined.

(* ------------------------------------------------------------------ *)
(** * What the cost functions write (cost.cpp) *)

Lemma set_seg3_inside (r : VectorXd) (off d : nat) (v : Vector3d) :
  (d < 3)%nat -> set_seg3 r off v (off + d)%nat = v3_at v d.
Proof.
  intros Hd. unfold set_seg3. rewrite in_rg_true by lia.
  replace (off + d - off)%nat with d by lia. reflexivity.
Qed.

Lemma set_seg3_outside (r : VectorXd) (off k : nat) (v : Vector3d) :
  ~ (off <= k < off + 3)%nat -> set_seg3 r off v k = r k.
Proof. intros H. unfold set_seg3. rewrite in_rg_false by exact H. reflexivity. Qed.

Lemma get_seg3_ext (r : VectorXd) (off : nat) (v : Vector3d) :
  (forall d, (d < 3)%nat -> r (off + d)%nat = v3_at v d) -> get_seg3 r off = v.
Proof.
  intros H. unfold get_seg3.
  pose proof (H 0%nat) as H0. pose proof (H 1%nat) as H1. pose proof (H 2%nat) as H2.
  rewrite Nat.add_0_r in H0. rewrite H0, H1, H2 by lia.
  destruct v. reflexivity.
Qed.

Section Stripes.
Context {so3ops : SO3Ops} {numerics : Numerics} {scanops : Grid.ScanOps}
        {costops : Cost.CostOps}.
Import Imu Grid Cost.

Lemma parallel_for_ext {St : Type} (f h : nat -> PointMatch -> St -> St)
      (ms : list PointMatch) :
  (forall i m s, f i m s = h i m s) ->
  forall i0 s, parallel_for ms i0 f s = parallel_for ms i0 h s.
Proof.
  intros H. induction ms as [|m rest IH]; intros i0 s; simpl; [reflexivity|].
  rewrite H. apply IH.
Qed.

(** A loop of stripe writes: stripe [i] ends up with what match [i]
    stores, whatever the other matches are, and nothing outside the
    stripes of the matches (and nothing right of column 5) is written. *)
Lemma stripes_spec (fr : PointMatch -> Vector3d) (fa fb : PointMatch -> Matrix3d)
      (ms : list PointMatch) :
  forall (i0 : nat) (r : VectorXd) (J : option MatrixXd),
    (forall k, (k < 3 * i0 \/ 3 * (i0 + length ms) <= k)%nat ->
               fst (parallel_for ms i0 (stripe_body fr fa fb) (r, J)) k = r k)
    /\ (forall i m d, nth_error ms i = Some m -> (d < 3)%nat ->
          fst (parallel_for ms i0 (stripe_body fr fa fb) (r, J)) (3 * (i0 + i) + d)%nat
          = v3_at (fr m) d)
    /\ match J with
       | None => snd (parallel_for ms i0 (stripe_body fr fa fb) (r, J)) = None
       | Some Jm =>
           exists Jm',
             snd (parallel_for ms i0 (stripe_body fr fa fb) (r, J)) = Some Jm'
             /\ (forall a b, (a < 3 * i0 \/ 3 * (i0 + length ms) <= a \/ 6 <= b)%nat ->
                             Jm' a b = Jm a b)
             /\ (forall i m d e, nth_error ms i = Some m -> (d < 3)%nat -> (e < 3)%nat ->
                   Jm' (3 * (i0 + i) + d)%nat (0 + e)%nat = m3_at (fa m) d e
                   /\ Jm' (3 * (i0 + i) + d)%nat (3 + e)%nat = m3_at (fb m) d e)
       end.
Proof.
  induction ms as [|m0 rest IH]; intros i0 r J.
  - cbn [parallel_for fst snd length]. split; [reflexivity|].
    split; [intros [|i] m d H; discriminate|].
    destruct J as [Jm|]; [|reflexivity].
    exists Jm. split; [reflexivity|]. split; [reflexivity|].
    intros [|i] m d e H; discriminate.
  - cbn [parallel_for length]. unfold stripe_body at 2 4 6. cbn [fst snd].
    destruct (IH (S i0) (set_seg3 r (3 * i0) (fr m0))
                 (option_map (fun J0 => set_block3 (set_block3 J0 (3 * i0) 0 (fa m0))
                                                   (3 * i0) 3 (fb m0)) J))
      as [Hout [Hin HJ]].
    split; [|split].
    + intros k Hk. rewrite Hout by lia. apply set_seg3_outside. lia.
    + intros [|i] m d Hm Hd.
      * cbn [nth_error] in Hm. inversion Hm; subst m0.
        rewrite Hout by lia.
        replace (3 * (i0 + 0) + d)%nat with (3 * i0 + d)%nat by lia.
        apply set_seg3_inside. exact Hd.
      * cbn [nth_error] in Hm.
        replace (3 * (i0 + S i) + d)%nat with (3 * (S i0 + i) + d)%nat by lia.
        apply Hin; assumption.
    + destruct J as [Jm|]; cbn [option_map] in HJ |- *; [|exact HJ].
      destruct HJ as [Jm' [E [HJout HJin]]].
      exists Jm'. split; [exact E|]. split.
      * intros a b Hab. rewrite HJout by lia.
        destruct (Nat.lt_ge_cases b 6) as [Hb|Hb].
        -- rewrite !set_block3_other_row by lia. reflexivity.
        -- rewrite !set_block3_other_col by lia. reflexivity.
      * intros [|i] m d e Hm Hd He.
        -- cbn [nth_error] in Hm. inversion Hm; subst m0.
           rewrite !HJout by lia.
           replace (3 * (i0 + 0) + d)%nat with (3 * i0 + d)%nat by lia.
           split.
           ++ rewrite set_block3_other_col by lia. apply set_block3_inside; assumption.
           ++ apply set_block3_inside; assumption.
        -- cbn [nth_error] in Hm.
           replace (3 * (i0 + S i) + d)%nat with (3 * (S i0 + i) + d)%nat by lia.
           apply HJin; assumption.
Qed.

Lemma Rigid_match_stripe (grid : SweepGrid) (eT : SE3d) (i : nat) (m : PointMatch)
      (out : VectorXd * option MatrixXd) :
  Rigid_match grid eT i m out
  = stripe_body (rigid_residual grid eT)
                (fun m => m3_mul (U m) (Hat3 (pt_hat grid m)))
                (fun m => m3_neg (U m)) i m out.
Proof. destruct out as [r [J|]]; reflexivity. Qed.

Lemma Linear_match_stripe (grid : SweepGrid) (eR : SO3d) (ep : Vector3d) (i : nat)
      (m : PointMatch) (out : VectorXd * option MatrixXd) :
  Linear_match grid eR ep i m out
  = stripe_body (linear_residual grid eR ep)
                (fun m => m3_mul (U m) (Hat3 (pt_hat grid m)))
                (fun m => m3_scale (- cell_fraction grid m) (U m)) i m out.
Proof. destruct out as [r [J|]]; reflexivity. Qed.

(** X23.  A returning call of [GicpRigidCost::operator()] on a cost that
    points at a grid returns true.  The three residuals of match i are
    U (pt_p - eT * pt_hat) of that match alone, and with a Jacobian its
    rows 3 i .. 3 i + 2 hold U * Hat3(pt_hat) in columns 0..2 and -U in
    columns 3..5: no iteration and nothing in the IMU part overwrites the
    stripe of another match.  No residual at or after [NumResiduals()] is
    written, and no Jacobian entry in a row at or after [NumResiduals()] or
    in a column at or after 6; a null Jacobian stays null. *)
Theorem X23_Rigid_operator_stripes
        (cost : GicpCost) (grid : SweepGrid) (x r : VectorXd) (J : option MatrixXd)
        (ok : bool) (r' : VectorXd) (J' : option MatrixXd) :
  pgrid cost = Some grid ->
  Rigid_operator cost x r J = Returns (ok, r', J') ->
  ok = true
  /\ (forall k, (NumResiduals cost <= k)%nat -> r' k = r k)
  /\ (forall i m, nth_error (matches cost) i = Some m ->
        get_seg3 r' (3 * i)
        = rigid_residual grid (mkSE3 (so3_exp (State_r0 x)) (State_p0 x)) m)
  /\ match J with
     | None => J' = None
     | Some Jm =>
         exists Jm',
           J' = Some Jm'
           /\ (forall a b, (NumResiduals cost <= a \/ kNumParams <= b)%nat ->
                           Jm' a b = Jm a b)
           /\ (forall i m, nth_error (matches cost) i = Some m ->
                 get_block3 Jm' (3 * i) (kR0 * 3) = m3_mul (U m) (Hat3 (pt_hat grid m))
                 /\ get_block3 Jm' (3 * i) (kP0 * 3) = m3_neg (U m))
     end.
Proof.
  intros Hgrid H. unfold Rigid_operator in H.
  match type of H with
  | bind ?loop _ = _ =>
      assert (Hloop : loop = Returns (parallel_for (matches cost) 0
                                        (Rigid_match grid (mkSE3 (so3_exp (State_r0 x))
                                                                 (State_p0 x))) (r, J)))
        by (rewrite Hgrid; destruct (matches cost); reflexivity);
      rewrite Hloop in H; clear Hloop
  end.
  cbn [bind] in H.
  rewrite (parallel_for_ext _ _ (matches cost) (Rigid_match_stripe grid _)) in H.
  destruct (stripes_spec (rigid_residual grid (mkSE3 (so3_exp (State_r0 x)) (State_p0 x)))
              (fun m => m3_mul (U m) (Hat3 (pt_hat grid m))) (fun m => m3_neg (U m))
              (matches cost) 0 r J) as [Hout [Hin HJ]].
  destruct (parallel_for (matches cost) 0 _ (r, J)) as [r1 J1].
  cbn [fst snd] in Hout, Hin, HJ.
  assert (Hlen : forall i m, nth_error (matches cost) i = Some m ->
                             (i < length (matches cost))%nat)
    by (intros i m Hm; apply nth_error_Some; congruence).
  unfold NumResiduals, kResidualDim, kNumParams, kR0, kP0.
  destruct (ptraj cost) as [traj|].
  - apply bind_Returns in H. destruct H as [st0 [_ H]].
    apply bind_Returns in H. destruct H as [st1 [_ H]].
    inversion H; subst ok r'. clear H. split; [reflexivity|]. split; [|split].
    + intros k Hk. unfold kResidualDim. rewrite !set_seg3_outside by lia.
      apply Hout. lia.
    + intros i m Hm. apply get_seg3_ext. intros d Hd.
      pose proof (Hlen i m Hm) as Hi.
      unfold kResidualDim. rewrite !set_seg3_outside by lia.
      apply (Hin i m d Hm Hd).
    + destruct J as [Jm|].
      * destruct HJ as [Jm' [-> [HJout HJin]]].
        eexists. split; [reflexivity|]. split.
        -- intros a b Hab. rewrite Rigid_imu_jacobian_alpha_only.
           unfold kResidualDim, kR0, kP0.
           destruct (Nat.lt_ge_cases b 6) as [Hb|Hb].
           ++ rewrite !set_block3_other_row by lia. apply HJout. lia.
           ++ rewrite !set_block3_other_col by lia. apply HJout. lia.
        -- intros i m Hm. pose proof (Hlen i m Hm) as Hi.
           split; apply get_block3_ext; intros d e Hd He;
             rewrite Rigid_imu_jacobian_alpha_only; unfold kResidualDim;
             rewrite !set_block3_other_row by lia;
             apply (HJin i m d e Hm Hd He).
      * rewrite HJ. reflexivity.
  - inversion H; subst ok r1 J1. clear H. split; [reflexivity|]. split; [|split].
    + intros k Hk. apply Hout. lia.
    + intros i m Hm. apply get_seg3_ext. intros d Hd. apply (Hin i m d Hm Hd).
    + destruct J as [Jm|]; [|exact HJ].
      destruct HJ as [Jm' [-> [HJout HJin]]].
      exists Jm'. split; [reflexivity|]. split.
      * intros a b Hab. apply HJout. lia.
      * intros i m Hm.
        split; apply get_block3_ext; intros d e Hd He; apply (HJin i m d e Hm Hd He).
Qed.

(** X24.  A returning call of [GicpLinearCost::operator()] on a cost
    that points at a grid returns true.  The three residuals of match i
    are U (pt_p - (eR * pt_hat + s * ep)) with s = (c + 0.5) / cols for the
    match's own column c, and with a Jacobian its rows hold U * Hat3(pt_hat)
    and -s * U.  With n matches, no residual and no Jacobian row from
    3 n + 3 on is written: when a trajectory is attached, the last three of
    the [NumResiduals()] = 3 n + 6 residuals are left as the caller passed
    them. *)
Theorem X24_Linear_operator_stripes
        (cost : GicpCost) (grid : SweepGrid) (x r : VectorXd) (J : option MatrixXd)
        (ok : bool) (r' : VectorXd) (J' : option MatrixXd) :
  pgrid cost = Some grid ->
  Linear_operator cost x r J = Returns (ok, r', J') ->
  ok = true
  /\ (forall k, (3 * length (matches cost) + 3 <= k)%nat -> r' k = r k)
  /\ (ptraj cost <> None ->
      forall k, (NumResiduals cost - 3 <= k)%nat -> r' k = r k)
  /\ (forall i m, nth_error (matches cost) i = Some m ->
        get_seg3 r' (3 * i) = linear_residual grid (so3_exp (State_r0 x)) (State_p0 x) m)
  /\ match J with
     | None => J' = None
     | Some Jm =>
         exists Jm',
           J' = Some Jm'
           /\ (forall a b, (3 * length (matches cost) + 3 <= a \/ kNumParams <= b)%nat ->
                           Jm' a b = Jm a b)
           /\ (forall i m, nth_error (matches cost) i = Some m ->
                 get_block3 Jm' (3 * i) (kR0 * 3) = m3_mul (U m) (Hat3 (pt_hat grid m))
                 /\ get_block3 Jm' (3 * i) (kP0 * 3)
                    = m3_scale (- cell_fraction grid m) (U m))
     end.
Proof.
  intros Hgrid H. unfold Linear_operator in H.
  match type of H with
  | bind ?loop _ = _ =>
      assert (Hloop : loop = Returns (parallel_for (matches cost) 0
                                        (Linear_match grid (so3_exp (State_r0 x))
                                                      (State_p0 x)) (r, J)))
        by (rewrite Hgrid; destruct (matches cost); reflexivity);
      rewrite Hloop in H; clear Hloop
  end.
  cbn [bind] in H.
  rewrite (parallel_for_ext _ _ (matches cost) (Linear_match_stripe grid _ _)) in H.
  destruct (stripes_spec (linear_residual grid (so3_exp (State_r0 x)) (State_p0 x))
              (fun m => m3_mul (U m) (Hat3 (pt_hat grid m)))
              (fun m => m3_scale (- cell_fraction grid m) (U m))
              (matches cost) 0 r J) as [Hout [Hin HJ]].
  destruct (parallel_for (matches cost) 0 _ (r, J)) as [r1 J1].
  cbn [fst snd] in Hout, Hin, HJ.
  assert (Hlen : forall i m, nth_error (matches cost) i = Some m ->
                             (i < length (matches cost))%nat)
    by (intros i m Hm; apply nth_error_Some; congruence).
  unfold NumResiduals, kResidualDim, kNumParams, kR0, kP0.
  destruct (ptraj cost) as [traj|].
  - apply bind_Returns in H. destruct H as [st0 [_ H]].
    apply bind_Returns in H. destruct H as [st1 [_ H]].
    inversion H; subst ok r'. clear H. split; [reflexivity|].
    assert (Hfar : forall k, (3 * length (matches cost) + 3 <= k)%nat ->
                set_seg3 r1 (length (matches cost) * kResidualDim) 
                  (m3_mulv
                     (m3_map (fun v => v3_muls v (imu_weight cost))
                        (get_block3 (Imu.U (preint cost)) 0 0))
                     (v3_sub
                        (so3_act (so3_inverse (so3_mul (so3_exp (State_r0 x)) (rot st0)))
                           (v3_sub
                              (v3_sub
                                 (v3_add (so3_act (so3_exp (State_r0 x)) (pos st1))
                                    (State_p0 x))
                                 (so3_act (so3_exp (State_r0 x)) (pos st0)))
                              (v3_sub (v3_muls (vel st0) (duration (preint cost)))
                                 (v3_muls (v3_scale 0.5 (g_pano traj))
                                    (duration (preint cost) * duration (preint cost))))))
                        (alpha (preint cost)))) k = r k).
    { intros k Hk. unfold kResidualDim. rewrite set_seg3_outside by lia. apply Hout. lia. }
    split; [exact Hfar|]. split; [intros _ k Hk; apply Hfar; lia|]. split.
    + intros i m Hm. apply get_seg3_ext. intros d Hd.
      pose proof (Hlen i m Hm) as Hi.
      unfold kResidualDim. rewrite set_seg3_outside by lia.
      apply (Hin i m d Hm Hd).
    + destruct J as [Jm|].
      * destruct HJ as [Jm' [-> [HJout HJin]]].
        eexists. split; [reflexivity|]. split.
        -- intros a b Hab. unfold kResidualDim, kR0, kP0.
           destruct (Nat.lt_ge_cases b 6) as [Hb|Hb].
           ++ rewrite !set_block3_other_row by lia. apply HJout. lia.
           ++ rewrite !set_block3_other_col by lia. apply HJout. lia.
        -- intros i m Hm. pose proof (Hlen i m Hm) as Hi.
           split; apply get_block3_ext; intros d e Hd He; unfold kResidualDim, kR0, kP0;
             rewrite !set_block3_other_row by lia;
             apply (HJin i m d e Hm Hd He).
      * rewrite HJ. reflexivity.
  - inversion H; subst ok r1 J1. clear H. split; [reflexivity|].
    split; [intros k Hk; apply Hout; lia|].
    split; [intros Hn; contradiction|]. split.
    + intros i m Hm. apply get_seg3_ext. intros d Hd. apply (Hin i m d Hm Hd).
    + destruct J as [Jm|]; [|exact HJ].
      destruct HJ as [Jm' [-> [HJout HJin]]].
      exists Jm'. split; [reflexivity|]. split.
      * intros a b Hab. apply HJout. lia.
      * intros i m Hm.
        split; apply get_block3_ext; intros d e Hd He; apply (HJin i m d e Hm Hd He).
Qed.

End Stripes.

Lemma Rigid_sample_returns :
  exists r' J',
    Cost.Rigid_operator Sample.attached_cost (fun _ => 0%R) (fun _ => 7%R)
                        (Some (fun _ _ => 7%R))
    = Returns (true, r', J').
Proof. do 2 eexists. reflexivity. Qed.

Lemma Linear_sample_returns :
  exists r' J',
    Cost.Linear_operator Sample.attached_cost (fun _ => 0%R) (fun _ => 7%R)
                         (Some (fun _ _ => 7%R))
    = Returns (true, r', J').
Proof. do 2 eexists. reflexivity. Qed.

(** X23, witness: the cost with one match and a trajectory; the residual
    vector is untouched from index 9 on. *)
Lemma X23_Rigid_operator_witness :
  exists r' J',
    Cost.Rigid_operator Sample.attached_cost (fun _ => 0%R) (fun _ => 7%R)
                        (Some (fun _ _ => 7%R))
    = Returns (true, r', J')
    /\ r' 9%nat = 7%R.
Proof.
  destruct Rigid_sample_returns as [r' [J' E]]. exists r', J'. split; [exact E|].
  destruct (X23_Rigid_operator_stripes Sample.attached_cost Sample.one_cell_grid
              (fun _ => 0%R) (fun _ => 7%R) (Some (fun _ _ => 7%R)) true r' J' eq_refl E)
    as [_ [Hout _]].
  apply (Hout 9%nat). unfold Cost.NumResiduals, Cost.kResidualDim. simpl. lia.
Defined.

(** X24, witness: the same cost under the linear operator; of its nine
    residuals the last three, from index 6 on, are the caller's. *)
Lemma X24_Linear_operator_witness :
  exists r' J',
    Cost.Linear_operator Sample.attached_cost (fun _ => 0%R) (fun _ => 7%R)
                         (Some (fun _ _ => 7%R))
    = Returns (true, r', J')
    /\ Cost.NumResiduals Sample.attached_cost = 9%nat
    /\ r' 6%nat = 7%R /\ r' 7%nat = 7%R /\ r' 8%nat = 7%R.
Proof.
  destruct Linear_sample_returns as [r' [J' E]]. exists r', J'. split; [exact E|].
  destruct (X24_Linear_operator_stripes Sample.attached_cost Sample.one_cell_grid
              (fun _ => 0%R) (fun _ => 7%R) (Some (fun _ _ => 7%R)) true r' J' eq_refl E)
    as [_ [_ [Hlast _]]].
  split; [reflexivity|].
  assert (Ht : Cost.ptraj Sample.attached_cost <> None) by discriminate.
  repeat split; apply (Hlast Ht); unfold Cost.NumResiduals, Cost.kResidualDim; simpl; lia.
Defined.

(* ------------------------------------------------------------------ *)
(** * The linear update of the trajectory (cost.cpp) *)

Lemma vec_back_last {A : Type} (v : list A) (a : A) :
  nth_error v (length v - 1) = Some a -> vec_back v = Returns a.
Proof.
  intros H. unfold vec_back.
  destruct (rev v) as [|b l] eqn:E.
  - apply (f_equal (@rev A)) in E. rewrite rev_involutive in E. subst v. discriminate.
  - apply (f_equal (@rev A)) in E. rewrite rev_involutive in E. subst v.
    simpl in H. rewrite length_app in H. simpl in H.
    rewrite nth_error_app2 in H by lia.
    replace (length (rev l) + 1 - 1 - length (rev l))%nat with 0%nat in H by lia.
    simpl in H. inversion H. reflexivity.
Qed.

Section LinearTrajectory.
Context {so3ops : SO3Ops} {numerics : Numerics} {scanops : Grid.ScanOps}
        {costops : Cost.CostOps}.
Import Imu Cost LinearUpdate.
Variable MeanVar3d : Type.
Variable mv_init : MeanVar3d.
Variable mv_Add : MeanVar3d -> Vector3d -> MeanVar3d.
Variable mv_mean : MeanVar3d -> Vector3d.

Lemma Linear_step_spec (eR : SO3d) (p0 : Vector3d) (orig ss : list NavState)
      (i : nat) (acc : MeanVar3d) :
  (i < length orig)%nat ->
  length ss = length orig ->
  acc = fed_vels mv_init mv_Add eR p0 orig i ->
  (forall j o, nth_error orig j = Some o ->
               nth_error ss j = Some (lin_state eR p0 orig i j o)) ->
  exists ss',
    Linear_step mv_Add eR p0 (length orig) (Z.of_nat i) (ss, acc)
    = Returns (ss', fed_vels mv_init mv_Add eR p0 orig (S i))
    /\ length ss' = length orig
    /\ (forall j o, nth_error orig j = Some o ->
                    nth_error ss' j = Some (lin_state eR p0 orig (S i) j o)).
Proof.
  intros Hi Hl Hacc Hss.
  destruct (nth_error orig i) as [oi|] eqn:Eoi;
    [|apply nth_error_None in Eoi; lia].
  pose proof (Hss i oi Eoi) as Essi.
  unfold lin_state in Essi. rewrite Nat.ltb_irrefl in Essi.
  unfold Linear_step, At.
  rewrite (vec_at_Some ss (Z.of_nat i) oi) by (try lia; rewrite Nat2Z.id; exact Essi).
  cbn [bind]. rewrite Nat2Z.id.
  set (sti := mkNavState (time oi) (so3_mul eR (rot oi))
                (v3_add (so3_act eR (pos oi))
                        (v3_scale (IZR (Z.of_nat i) / (INR (length orig) - 1.0)) p0))
                (vel oi)).
  assert (Hset : forall j o, nth_error orig j = Some o ->
             nth_error (list_set ss i sti) j
             = Some (if (j =? i)%nat then sti else lin_state eR p0 orig i j o)).
  { intros j o Ho. destruct (Nat.eqb_spec j i) as [->|Hne].
    - apply nth_error_list_set_eq. lia.
    - rewrite nth_error_list_set_neq by congruence. apply Hss. exact Ho. }
  destruct (Z.ltb_spec 1 (Z.of_nat i)) as [Hgt|Hle].
  - (* the velocity of the state before *)
    destruct (nth_error orig (i - 1)) as [op|] eqn:Eop;
      [|apply nth_error_None in Eop; lia].
    pose proof (Hset (i - 1)%nat op Eop) as Eprev.
    destruct (Nat.eqb_spec (i - 1) i) as [Habs|_]; [lia|].
    unfold lin_state in Eprev.
    destruct (Nat.ltb_spec (i - 1) i) as [_|Habs]; [|lia].
    destruct (Nat.ltb_spec (i - 1) (i - 1)) as [Habs|_]; [lia|].
    rewrite andb_false_r in Eprev.
    rewrite (vec_at_Some (list_set ss i sti) (Z.of_nat i - 1) _)
      by (try lia; replace (Z.to_nat (Z.of_nat i - 1)) with (i - 1)%nat by lia; exact Eprev).
    cbn [bind time rot pos vel].
    replace (Z.to_nat (Z.of_nat i - 1)) with (i - 1)%nat by lia.
    assert (Ev : v3_div (v3_sub (pos sti) (lin_pos eR p0 (length orig) (i - 1) op))
                        (time sti - time op)
                 = fd_vel eR p0 orig (i - 1)).
    { unfold fd_vel. rewrite Eop. replace (S (i - 1)) with i by lia. rewrite Eoi.
      reflexivity. }
    cbn [pos time] in Ev. unfold sti at 1 2 in Ev. cbn [pos time] in Ev.
    eexists. split.
    + f_equal. f_equal.
      unfold fed_vels at 1. replace (S i - 2)%nat with (S (i - 2)) by lia.
      rewrite seq_S, map_app, fold_left_app. cbn [map fold_left].
      replace (1 + (i - 2))%nat with (i - 1)%nat by lia.
      rewrite Hacc. unfold fed_vels. f_equal. exact Ev.
    + split; [rewrite !list_set_length; exact Hl|].
      intros j o Ho.
      destruct (Nat.eq_dec j (i - 1)) as [->|Hne1].
      * rewrite nth_error_list_set_eq by (rewrite list_set_length; lia).
        rewrite Eop in Ho. inversion Ho; subst o.
        unfold lin_state.
        destruct (Nat.ltb_spec (i - 1) (S i)) as [_|Habs]; [|lia].
        destruct (Nat.leb_spec 1 (i - 1)) as [_|Habs]; [|lia].
        destruct (Nat.ltb_spec (i - 1) (S i - 1)) as [_|Habs]; [|lia].
        cbn [andb]. rewrite <- Ev. reflexivity.
      * rewrite nth_error_list_set_neq by congruence.
        rewrite (Hset j o Ho).
        destruct (Nat.eqb_spec j i) as [->|Hne].
        -- rewrite Eoi in Ho. inversion Ho; subst o.
           unfold lin_state, sti, lin_pos.
           destruct (Nat.ltb_spec i (S i)) as [_|Habs]; [|lia].
           destruct (Nat.ltb_spec i (S i - 1)) as [Habs|_]; [lia|].
           rewrite andb_false_r. reflexivity.
        -- unfold lin_state.
           destruct (Nat.ltb_spec j i), (Nat.ltb_spec j (S i)); try lia; [|reflexivity].
           destruct (Nat.ltb_spec j (i - 1)), (Nat.ltb_spec j (S i - 1)); try lia;
             reflexivity.
  - (* the first two iterations write no velocity *)
    eexists. split.
    + f_equal. f_equal. rewrite Hacc. unfold fed_vels.
      replace (S i - 2)%nat with 0%nat by lia. replace (i - 2)%nat with 0%nat by lia.
      reflexivity.
    + split; [rewrite list_set_length; exact Hl|].
      intros j o Ho. rewrite (Hset j o Ho).
      destruct (Nat.eqb_spec j i) as [->|Hne].
      * rewrite Eoi in Ho. inversion Ho; subst o.
        unfold lin_state, sti, lin_pos.
        destruct (Nat.ltb_spec i (S i)) as [_|Habs]; [|lia].
        destruct (Nat.ltb_spec i (S i - 1)) as [Habs|_]; [lia|].
        rewrite andb_false_r. reflexivity.
      * unfold lin_state.
        destruct (Nat.ltb_spec j i), (Nat.ltb_spec j (S i)); try lia; [|reflexivity].
        destruct (Nat.leb_spec 1 j); [lia|]. reflexivity.
Qed.

(** X25.  [GicpLinearCost::UpdateTraj] on a trajectory of n >= 2 states
    returns and keeps the number of states, their times and the gravity.
    State j is turned by eR = exp(r0) and its position moved by the
    fraction j / (n - 1) of p0.  The velocity of state 0 is never written;
    the velocity of a state 1 <= j <= n - 2 becomes the difference of the
    new positions of states j + 1 and j over the difference of their times;
    the velocity of the last state becomes the mean of an accumulator that
    was fed exactly the velocities of the states 1 .. n - 2, in this
    order. *)
Theorem X25_Linear_UpdateTraj (cost : GicpCost) (traj : Trajectory) :
  (2 <= length (states traj))%nat ->
  exists ss,
    Linear_UpdateTraj mv_init mv_Add mv_mean cost traj
    = Returns (mkTrajectory ss (g_pano traj))
    /\ length ss = length (states traj)
    /\ (forall j o, nth_error (states traj) j = Some o ->
          exists s,
            nth_error ss j = Some s
            /\ time s = time o
            /\ rot s = so3_mul (so3_exp (State_r0 (error cost))) (rot o)
            /\ pos s = lin_pos (so3_exp (State_r0 (error cost))) (State_p0 (error cost))
                               (length (states traj)) j o
            /\ vel s
               = if (j =? length (states traj) - 1)%nat
                 then mv_mean
                        (fold_left mv_Add
                           (map (fd_vel (so3_exp (State_r0 (error cost)))
                                        (State_p0 (error cost)) (states traj))
                                (seq 1 (length (states traj) - 2)))
                           mv_init)
                 else if (j =? 0)%nat then vel o
                      else fd_vel (so3_exp (State_r0 (error cost))) (State_p0 (error cost))
                                  (states traj) j).
Proof.
  intros Hn. unfold Linear_UpdateTraj.
  set (eR := so3_exp (State_r0 (error cost))). set (p0 := State_p0 (error cost)).
  set (orig := states traj) in *.
  set (Inv := fun (i : Z) (st : list NavState * MeanVar3d) =>
                length (fst st) = length orig
                /\ snd st = fed_vels mv_init mv_Add eR p0 orig (Z.to_nat i)
                /\ (forall j o, nth_error orig j = Some o ->
                      nth_error (fst st) j
                      = Some (lin_state eR p0 orig (Z.to_nat i) j o))).
  destruct (for_each_upto (Linear_step mv_Add eR p0 (length orig)) Inv
              (Z.of_nat (length orig)) (orig, mv_init)) as [[ss acc] [E [Il [Iacc Iss]]]].
  - split; [reflexivity|]. split; [reflexivity|].
    intros j o Ho. cbn [fst]. rewrite Ho. reflexivity.
  - intros i [ss acc] Hi [Il [Iacc Iss]]. cbn [fst snd] in Il, Iacc, Iss.
    destruct (Linear_step_spec eR p0 orig ss (Z.to_nat i) acc) as [ss' [E' [Hl' Hss']]];
      try assumption; [lia|].
    rewrite Z2Nat.id in E' by lia.
    exists (ss', fed_vels mv_init mv_Add eR p0 orig (S (Z.to_nat i))). split; [exact E'|].
    unfold Inv. cbn [fst snd]. replace (Z.to_nat (i + 1)) with (S (Z.to_nat i)) by lia.
    auto.
  - cbn [fst snd] in Il, Iacc, Iss.
    replace (Z.to_nat (Z.max 0 (Z.of_nat (length orig)))) with (length orig) in Iacc, Iss
      by lia.
    rewrite E. cbn [bind].
    destruct (nth_error orig (length orig - 1)) as [ol|] eqn:Eol;
      [|apply nth_error_None in Eol; lia].
    pose proof (Iss _ _ Eol) as Elast. rewrite <- Il in Elast at 1.
    rewrite (vec_back_last ss _ Elast). cbn [bind].
    eexists. split; [reflexivity|].
    split; [rewrite list_set_length; exact Il|].
    intros j o Ho.
    destruct (Nat.eqb_spec j (length orig - 1)) as [->|Hne].
    + rewrite Eol in Ho. inversion Ho; subst o.
      rewrite Il, nth_error_list_set_eq by lia.
      eexists. split; [reflexivity|].
      unfold lin_state. destruct (Nat.ltb_spec (length orig - 1) (length orig)); [|lia].
      cbn [time rot pos vel]. rewrite Iacc. repeat split; reflexivity.
    + rewrite nth_error_list_set_neq by (rewrite Il; congruence).
      rewrite (Iss j o Ho).
      assert (Hj : (j < length orig)%nat) by (apply nth_error_Some; congruence).
      eexists. split; [reflexivity|].
      unfold lin_state. destruct (Nat.ltb_spec j (length orig)); [|lia].
      cbn [time rot pos vel]. repeat split; try reflexivity.
      destruct (Nat.eqb_spec j 0) as [->|Hj0]; [reflexivity|].
      destruct (Nat.leb_spec 1 j); [|lia].
      destruct (Nat.ltb_spec j (length orig - 1)); [|lia]. reflexivity.
Qed.

End LinearTrajectory.

(** X25, witness: the trajectory of two states, with a list as the
    accumulator. *)
Lemma X25_Linear_UpdateTraj_witness :
  exists ss,
    LinearUpdate.Linear_UpdateTraj (@nil Vector3d) (fun l v => l ++ [v]) (hd v3_zero)
                                   Sample.attached_cost Sample.cost_traj
    = Returns (Cost.mkTrajectory ss (Cost.g_pano Sample.cost_traj))
    /\ length ss = 2%nat.
Proof.
  destruct (X25_Linear_UpdateTraj (list Vector3d) (@nil Vector3d) (fun l v => l ++ [v])
              (hd v3_zero) Sample.attached_cost Sample.cost_traj (le_n 2))
    as [ss [E [Hl _]]].
  exists ss. split; [exact E | exact Hl].
Defined.

(* ------------------------------------------------------------------ *)
(** * A zero error, and what the preintegration keeps (cost.cpp) *)

Section ZeroError.
Context {so3ops : SO3Ops} {numerics : Numerics} {scanops : Grid.ScanOps}
        {costops : Cost.CostOps}.
Import Imu Cost.
Open Scope R_scope.

(** X26.  Right after [ResetError], [GicpRigidCost::UpdateTraj] changes
    nothing: on a trajectory that spans a non-zero duration it returns the
    trajectory it was given, provided exp(0) fixes every point and is a
    left unit of the product of rotations. *)
Theorem X26_Rigid_UpdateTraj_after_ResetError
        (cost : GicpCost) (traj : Trajectory) (dt : R) :
  exp_zero_unit ->
  Trajectory_duration traj = Returns dt -> dt <> 0 ->
  Rigid_UpdateTraj (ResetError cost) traj = Returns traj.
Proof.
  intros [Hact Hmul] Hd Hdt. unfold Rigid_UpdateTraj. rewrite Hd. cbn [bind].
  unfold Trajectory_duration, back, front in Hd.
  apply bind_Returns in Hd. destruct Hd as [b [_ Hd]].
  apply bind_Returns in Hd. destruct Hd as [f [Hf _]].
  rewrite Hf. cbn [bind].
  change (State_r0 (error (ResetError cost))) with v3_zero.
  change (State_p0 (error (ResetError cost))) with v3_zero.
  rewrite Hact, Hmul, v3_add_zero_r.
  replace (v3_div v3_zero dt) with v3_zero
    by (unfold v3_div, v3_zero, Rdiv; cbn [vx vy vz]; apply mkV3_ext; ring).
  rewrite v3_add_zero_r.
  destruct traj as [ss g]. cbn [states g_pano] in *.
  destruct ss as [|s rest]; [discriminate|].
  cbn [vec_front] in Hf. inversion Hf; subst f.
  destruct s. reflexivity.
Qed.





End ZeroError.

Lemma rotation_matrix_exp_zero_unit : @exp_zero_unit RotationMatrix.
Proof.
  split; [exact rodrigues_zero_fixes|].
  intros q. rewrite (proj1 (proj2 rotation_matrix_rest_laws)).
  cbn [so3_mul so3_ident RotationMatrix].
  destruct q as [[a b c] [d e f] [g h i]].
  cbv [m3_mul m3_map m3_col m3_at m3_row v3_at m3_ident v3_dot vx vy vz row0 row1 row2].
  f_equal; apply mkV3_ext; ring.
Qed.

(** X26, witness: the trajectory over [1, 2]. *)
Lemma X26_Rigid_UpdateTraj_witness :
  Cost.Rigid_UpdateTraj (Cost.ResetError Sample.attached_cost) Sample.cost_traj
  = Returns Sample.cost_traj.
Proof.
  apply (X26_Rigid_UpdateTraj_after_ResetError Sample.attached_cost Sample.cost_traj (2 - 1)%R
           rotation_matrix_exp_zero_unit).
  - reflexivity.
  - lra.
Defined.


(* ------------------------------------------------------------------ *)
(** * The order of the iterations of the residual loop (cost.cpp) *)

Section LoopOrder.
Context {so3ops : SO3Ops} {numerics : Numerics} {scanops : Grid.ScanOps}
        {costops : Cost.CostOps}.
Import Grid Cost.

Lemma parallel_for_iterations {St : Type} (body : nat -> PointMatch -> St -> St)
      (ms : list PointMatch) :
  forall i0 s, parallel_for ms i0 body s = run_iterations (iterations i0 ms) body s.
Proof. induction ms as [|m rest IH]; intros i0 s; simpl; [reflexivity | apply IH]. Qed.

Lemma run_iterations_ext {St : Type} (f h : nat -> PointMatch -> St -> St)
      (its : list (nat * PointMatch)) :
  (forall i m s, f i m s = h i m s) ->
  forall s, run_iterations its f s = run_iterations its h s.
Proof.
  intros H. induction its as [|[i m] rest IH]; intros s; simpl; [reflexivity|].
  rewrite H. apply IH.
Qed.

Lemma fst_iterations (ms : list PointMatch) :
  forall i0, map fst (iterations i0 ms) = seq i0 (length ms).
Proof. induction ms as [|m rest IH]; intros i0; simpl; [reflexivity|]. rewrite IH. reflexivity. Qed.

(** whether an entry lies in the stripe of one of the iterations *)
Lemma stripe_cases (its : list (nat * PointMatch)) (k : nat) :
  (exists i m d, In (i, m) its /\ (d < 3)%nat /\ k = (3 * i + d)%nat)
  \/ (forall i m, In (i, m) its -> ~ (3 * i <= k < 3 * i + 3)%nat).
Proof.
  induction its as [|[i0 m0] rest IH].
  - right. intros i m [].
  - destruct IH as [[i [m [d [Hin [Hd Hk]]]]] | Hno].
    + left. exists i, m, d. split; [right; exact Hin | auto].
    + destruct (le_lt_dec (3 * i0) k) as [Hle|Hlt];
        [destruct (le_lt_dec (3 * i0 + 3) k) as [Hge|Hin]|].
      * right. intros i m [E|Hin]; [inversion E; subst; lia | apply Hno with m; exact Hin].
      * left. exists i0, m0, (k - 3 * i0)%nat. split; [left; reflexivity|]. lia.
      * right. intros i m [E|Hin]; [inversion E; subst; lia | apply Hno with m; exact Hin].
Qed.

(** Stripe writes with distinct indices, in any order: each stripe holds
    what its own iteration stores, everything else is as before. *)
Lemma run_stripes (fr : PointMatch -> Vector3d) (fa fb : PointMatch -> Matrix3d)
      (its : list (nat * PointMatch)) :
  NoDup (map fst its) ->
  forall (r : VectorXd) (J : option MatrixXd),
    (forall i m d, In (i, m) its -> (d < 3)%nat ->
        fst (run_iterations its (stripe_body fr fa fb) (r, J)) (3 * i + d)%nat
        = v3_at (fr m) d)
    /\ (forall k, (forall i m, In (i, m) its -> ~ (3 * i <= k < 3 * i + 3)%nat) ->
          fst (run_iterations its (stripe_body fr fa fb) (r, J)) k = r k)
    /\ match J with
       | None => snd (run_iterations its (stripe_body fr fa fb) (r, J)) = None
       | Some Jm =>
           exists Jm',
             snd (run_iterations its (stripe_body fr fa fb) (r, J)) = Some Jm'
             /\ (forall i m d e, In (i, m) its -> (d < 3)%nat -> (e < 3)%nat ->
                   Jm' (3 * i + d)%nat (0 + e)%nat = m3_at (fa m) d e
                   /\ Jm' (3 * i + d)%nat (3 + e)%nat = m3_at (fb m) d e)
             /\ (forall a b,
                   (forall i m, In (i, m) its -> ~ (3 * i <= a < 3 * i + 3)%nat)
                   \/ (6 <= b)%nat ->
                   Jm' a b = Jm a b)
       end.
Proof.
  induction its as [|[i0 m0] rest IH]; intros Hnd r J.
  - cbn [run_iterations fst snd]. split; [intros i m d []|]. split; [reflexivity|].
    destruct J as [Jm|]; [|reflexivity].
    exists Jm. split; [reflexivity|]. split; [intros i m d e []|reflexivity].
  - cbn [map fst] in Hnd. inversion Hnd as [|? ? Hfresh Hnd']; subst.
    assert (Hother : forall i m, In (i, m) rest -> i <> i0).
    { intros i m Hin ->. apply Hfresh. apply in_map_iff. exists (i0, m). auto. }
    cbn [run_iterations]. unfold stripe_body at 2 4 6. cbn [fst snd].
    destruct (IH Hnd' (set_seg3 r (3 * i0) (fr m0))
                 (option_map (fun J0 => set_block3 (set_block3 J0 (3 * i0) 0 (fa m0))
                                                   (3 * i0) 3 (fb m0)) J))
      as [Hin [Hout HJ]].
    split; [|split].
    + intros i m d [E|Hi] Hd.
      * inversion E; subst i m. rewrite Hout.
        -- apply set_seg3_inside. exact Hd.
        -- intros i m Hi. pose proof (Hother i m Hi) as Hne. lia.
      * apply Hin; assumption.
    + intros k Hk. rewrite Hout by (intros i m Hi; apply (Hk i m); right; exact Hi).
      apply set_seg3_outside. apply (Hk i0 m0). left. reflexivity.
    + destruct J as [Jm|]; cbn [option_map] in HJ |- *; [|exact HJ].
      destruct HJ as [Jm' [E [HJin HJout]]].
      exists Jm'. split; [exact E|]. split.
      * intros i m d e [E0|Hi] Hd He.
        -- inversion E0; subst i m.
           assert (Hfree : forall i m, In (i, m) rest ->
                             ~ (3 * i <= 3 * i0 + d < 3 * i + 3)%nat)
             by (intros i m Hi; pose proof (Hother i m Hi); lia).
           rewrite !HJout by (left; exact Hfree).
           split.
           ++ rewrite set_block3_other_col by lia. apply set_block3_inside; assumption.
           ++ apply set_block3_inside; assumption.
        -- apply HJin; assumption.
      * intros a b Hab. rewrite HJout.
        -- destruct Hab as [Ha|Hb].
           ++ pose proof (Ha i0 m0 (or_introl eq_refl)).
              rewrite !set_block3_other_row by lia. reflexivity.
           ++ rewrite !set_block3_other_col by lia. reflexivity.
        -- destruct Hab as [Ha|Hb]; [left|right; exact Hb].
           intros i m Hi. apply (Ha i m). right. exact Hi.
Qed.

(** Two runs of the same iterations, in different orders, leave the same
    numbers. *)
Lemma run_stripes_same (fr : PointMatch -> Vector3d) (fa fb : PointMatch -> Matrix3d)
      (its1 its2 : list (nat * PointMatch)) (r : VectorXd) (J : option MatrixXd) :
  NoDup (map fst its1) -> NoDup (map fst its2) ->
  (forall im, In im its1 <-> In im its2) ->
  same_output (run_iterations its1 (stripe_body fr fa fb) (r, J))
              (run_iterations its2 (stripe_body fr fa fb) (r, J)).
Proof.
  intros N1 N2 Hsame.
  destruct (run_stripes fr fa fb its1 N1 r J) as [Hin1 [Hout1 HJ1]].
  destruct (run_stripes fr fa fb its2 N2 r J) as [Hin2 [Hout2 HJ2]].
  split.
  - intros k. destruct (stripe_cases its1 k) as [[i [m [d [Hi [Hd ->]]]]] | Hno].
    + rewrite (Hin1 i m d Hi Hd), (Hin2 i m d (proj1 (Hsame _) Hi) Hd). reflexivity.
    + rewrite (Hout1 k Hno). symmetry. apply Hout2.
      intros i m Hi. apply (Hno i m). apply Hsame. exact Hi.
  - destruct J as [Jm|].
    + destruct HJ1 as [J1 [-> [HJin1 HJout1]]]. destruct HJ2 as [J2 [-> [HJin2 HJout2]]].
      intros a b.
      destruct (le_lt_dec 6 b) as [Hb|Hb].
      * rewrite HJout1, HJout2 by (right; exact Hb). reflexivity.
      * destruct (stripe_cases its1 a) as [[i [m [d [Hi [Hd ->]]]]] | Hno].
        -- destruct (le_lt_dec 3 b) as [Hb3|Hb3].
           ++ replace b with (3 + (b - 3))%nat by lia.
              rewrite (proj2 (HJin1 i m d (b - 3)%nat Hi Hd ltac:(lia))).
              rewrite (proj2 (HJin2 i m d (b - 3)%nat (proj1 (Hsame _) Hi) Hd ltac:(lia))).
              reflexivity.
           ++ change b with (0 + b)%nat.
              rewrite (proj1 (HJin1 i m d b Hi Hd Hb3)).
              rewrite (proj1 (HJin2 i m d b (proj1 (Hsame _) Hi) Hd Hb3)).
              reflexivity.
        -- rewrite HJout1 by (left; exact Hno).
           rewrite HJout2 by (left; intros i m Hi; apply (Hno i m); apply Hsame; exact Hi).
           reflexivity.
    + rewrite HJ1, HJ2. exact I.
Qed.

(** X28.  The iterations of the residual loops of both operators can be
    run in any order: if a list holds the iterations (index, match) of the
    loop over [ms], each index once, then running the body of
    [GicpRigidCost::operator()] -- or of [GicpLinearCost::operator()] -- in
    the order of that list leaves the same residuals and the same Jacobian
    as running it for i = 0, 1, 2, ... *)
Theorem X28_residual_loop_order_free
        (grid : SweepGrid) (eT : SE3d) (eR : SO3d) (ep : Vector3d)
        (ms : list PointMatch) (its : list (nat * PointMatch))
        (r : VectorXd) (J : option MatrixXd) :
  NoDup (map fst its) ->
  (forall im, In im its <-> In im (iterations 0 ms)) ->
  same_output (run_iterations its (Rigid_match grid eT) (r, J))
              (parallel_for ms 0 (Rigid_match grid eT) (r, J))
  /\ same_output (run_iterations its (Linear_match grid eR ep) (r, J))
                 (parallel_for ms 0 (Linear_match grid eR ep) (r, J)).
Proof.
  intros Hnd Hsame.
  assert (Hnd0 : NoDup (map fst (iterations 0 ms)))
    by (rewrite fst_iterations; apply seq_NoDup).
  rewrite !parallel_for_iterations.
  rewrite (run_iterations_ext _ _ its (Rigid_match_stripe grid eT)).
  rewrite (run_iterations_ext _ _ (iterations 0 ms) (Rigid_match_stripe grid eT)).
  rewrite (run_iterations_ext _ _ its (Linear_match_stripe grid eR ep)).
  rewrite (run_iterations_ext _ _ (iterations 0 ms) (Linear_match_stripe grid eR ep)).
  split; apply run_stripes_same; assumption.
Qed.

End LoopOrder.

(** X28, witness: two matches, the second one run first. *)
Lemma X28_residual_loop_witness :
  same_output
    (run_iterations [(1%nat, Sample.bad_match); (0%nat, Sample.good_match)]
       (Cost.Rigid_match Sample.one_cell_grid Sample.id_pose) (fun _ => 0%R, None))
    (Cost.parallel_for [Sample.good_match; Sample.bad_match] 0
       (Cost.Rigid_match Sample.one_cell_grid Sample.id_pose) (fun _ => 0%R, None)).
Proof.
  apply (X28_residual_loop_order_free Sample.one_cell_grid Sample.id_pose so3_ident v3_zero
           [Sample.good_match; Sample.bad_match]
           [(1%nat, Sample.bad_match); (0%nat, Sample.good_match)]).
  - cbn [map fst]. repeat constructor; simpl; intuition discriminate.
  - intros im. cbn [iterations In]. tauto.
Defined.

(* ------------------------------------------------------------------ *)
(** * The earlier Predict (part_000) *)

Section EarlyPredict.
Context {so3ops : SO3Ops} {numerics : Numerics}.
Import Imu.
Open Scope R_scope.

(** One turn of the loop of the earlier [Predict]. *)
Lemma early_step_predicted (tr : ImuEarly.ImuTrajectory) (t0 dt : R) (T0 : SE3d)
      (orig : list SE3d) (i ibuf : nat) (ps : list SE3d) :
  (1 <= i < length orig)%nat ->
  (ibuf < length (ImuEarly.buf tr))%nat ->
  predicted_early tr dt T0 orig i ps ->
  exists ibuf' ps',
    ImuEarly.Predict_step tr t0 dt (Z.of_nat i) (Z.of_nat ibuf, ps)
    = Returns (Z.of_nat ibuf', ps')
    /\ (ibuf <= ibuf' <= ibuf + 1)%nat
    /\ (ibuf' < length (ImuEarly.buf tr))%nat
    /\ predicted_early tr dt T0 orig (S i) ps'.
Proof.
  intros Hi Hibuf [Hlen [Hrest [Hzero Hrot]]].
  destruct (nth_error_in_range (ImuEarly.buf tr) ibuf Hibuf) as [d Hd].
  unfold ImuEarly.Predict_step. rewrite (vec_idx_nat _ _ _ Hd). cbn [bind].
  set (ib1 := if Rltb (imu_time d) (t0 + dt * IZR (Z.of_nat i))
              then (Z.of_nat ibuf + 1)%Z else Z.of_nat ibuf).
  set (ib2 := if (Z.of_nat (length (ImuEarly.buf tr)) <=? ib1)%Z
              then (Z.of_nat (length (ImuEarly.buf tr)) - 1)%Z else ib1).
  assert (Hib2 : exists ibuf', ib2 = Z.of_nat ibuf'
                               /\ (ibuf <= ibuf' <= ibuf + 1)%nat
                               /\ (ibuf' < length (ImuEarly.buf tr))%nat).
  { unfold ib2, ib1.
    destruct (Rltb (imu_time d) (t0 + dt * IZR (Z.of_nat i)));
      destruct (Z.leb_spec (Z.of_nat (length (ImuEarly.buf tr))) (Z.of_nat ibuf + 1));
      destruct (Z.leb_spec (Z.of_nat (length (ImuEarly.buf tr))) (Z.of_nat ibuf)); try lia.
    - exists ibuf. repeat split; lia.
    - exists (S ibuf). repeat split; lia.
    - exists ibuf. repeat split; lia.
    - exists ibuf. repeat split; lia. }
  destruct Hib2 as [ibuf' [-> [Hmono Hin']]]. clearbody ib1.
  destruct (nth_error_in_range (ImuEarly.buf tr) ibuf' Hin') as [d' Hd'].
  rewrite (vec_at_nat _ _ _ Hd'). cbn [bind].
  destruct (nth_error_in_range orig i) as [Ti HTi]; [lia|].
  assert (Hcurr : nth_error ps i = Some Ti) by (rewrite Hrest by lia; exact HTi).
  rewrite (vec_at_nat _ _ _ Hcurr). cbn [bind].
  change 0%Z with (Z.of_nat 0). rewrite (vec_at_nat _ _ _ Hzero). cbn [bind].
  rewrite Nat2Z.id.
  assert (Hilen : (i < length ps)%nat) by lia.
  rewrite (vec_at_nat _ _ _ (nth_error_list_set_eq ps i _ Hilen)). cbn [bind].
  destruct (nth_error_in_range ps (i - 1)) as [Tp HTp]; [lia|].
  replace (Z.of_nat i - 1)%Z with (Z.of_nat (i - 1)) by lia.
  assert (HTp' : nth_error (list_set ps i (mkSE3 (so3 Ti) (translation T0))) (i - 1)
                 = Some Tp)
    by (rewrite nth_error_list_set_neq by lia; exact HTp).
  rewrite (vec_at_nat _ _ _ HTp'). cbn [bind translation].
  exists ibuf'. eexists. split; [reflexivity|]. split; [exact Hmono|]. split; [exact Hin'|].
  unfold predicted_early. rewrite !list_set_length. split; [exact Hlen|].
  split; [|split].
  - intros j Hj. rewrite !nth_error_list_set_neq by lia. apply Hrest. lia.
  - rewrite !nth_error_list_set_neq by lia. exact Hzero.
  - intros j Hj. destruct (Nat.eq_dec j i) as [->|Hne].
    + exists Tp. eexists. exists d'.
      rewrite !(nth_error_list_set_neq _ i (i - 1)%nat) by lia.
      rewrite nth_error_list_set_eq by (rewrite list_set_length; exact Hilen).
      split; [exact HTp|]. split; [reflexivity|].
      split; [eapply nth_error_In; exact Hd'|]. split; reflexivity.
    + destruct (Hrot j ltac:(lia)) as [Tq [Tj [dd [H1 [H2 [H3 [H4 H5]]]]]]].
      exists Tq, Tj, dd. rewrite !nth_error_list_set_neq by lia. auto.
Qed.

Lemma early_loop_predicted (tr : ImuEarly.ImuTrajectory) (t0 dt : R) (T0 : SE3d)
      (orig : list SE3d) (m : nat) :
  forall (i ibuf : nat) (ps : list SE3d),
    (1 <= i)%nat -> (i + m = length orig)%nat ->
    (ibuf < length (ImuEarly.buf tr))%nat ->
    predicted_early tr dt T0 orig i ps ->
    exists ibuf' ps',
      ImuEarly.Predict_loop tr t0 dt m (Z.of_nat i) (Z.of_nat ibuf, ps)
      = Returns (Z.of_nat ibuf', ps')
      /\ (ibuf <= ibuf' <= ibuf + m)%nat
      /\ (ibuf' < length (ImuEarly.buf tr))%nat
      /\ predicted_early tr dt T0 orig (length orig) ps'.
Proof.
  induction m as [|m IH]; intros i ibuf ps Hi Him Hibuf Hp.
  - exists ibuf, ps. cbn [ImuEarly.Predict_loop]. replace (length orig) with i by lia.
    repeat split; try lia; try assumption; apply Hp.
  - cbn [ImuEarly.Predict_loop].
    destruct (early_step_predicted tr t0 dt T0 orig i ibuf ps ltac:(lia) Hibuf Hp)
      as [ib1 [ps1 [E [Hm1 [Hin1 Hp1]]]]].
    rewrite E. cbn [bind].
    replace (Z.of_nat i + 1)%Z with (Z.of_nat (S i)) by lia.
    destruct (IH (S i) ib1 ps1 ltac:(lia) ltac:(lia) Hin1 Hp1)
      as [ib2 [ps2 [E2 [Hm2 [Hin2 Hp2]]]]].
    exists ib2, ps2. rewrite E2. repeat split; try lia; try assumption; apply Hp2.
Qed.

(** X29.  The earlier [Predict(t0, dt)] of part_000, on a trajectory
    with at least one pose and a buffer holding a sample newer than [t0],
    returns.  It keeps the buffer, the states, the extrinsic pose and the
    number of poses; pose 0 is untouched; every later pose gets the
    translation of pose 0 and the rotation of its predecessor times
    exp(dt * gyr) for the gyro of one sample of the buffer, which is taken
    into the lidar frame and, unlike in imu.cpp, not de-biased.  The
    returned count is at least 1, at most the number of poses and at most
    the number of samples from the first newer one on. *)
Theorem X29_early_Predict_fills_the_poses
        (tr : ImuEarly.ImuTrajectory) (t0 dt : R) (T0 : SE3d) (rest : list SE3d) :
  ImuEarly.traj tr = T0 :: rest ->
  (0 <= ImuEarly.FindNextImu (ImuEarly.buf tr) t0)%Z ->
  exists tr' n,
    ImuEarly.Predict tr t0 dt = Returns (tr', n)
    /\ ImuEarly.buf tr' = ImuEarly.buf tr
    /\ ImuEarly.states tr' = ImuEarly.states tr
    /\ ImuEarly.T_imu_lidar tr' = ImuEarly.T_imu_lidar tr
    /\ (1 <= n <= Z.of_nat (length (ImuEarly.traj tr)))%Z
    /\ (n <= Z.of_nat (length (ImuEarly.buf tr))
             - ImuEarly.FindNextImu (ImuEarly.buf tr) t0)%Z
    /\ predicted_early tr dt T0 (ImuEarly.traj tr) (length (ImuEarly.traj tr))
                       (ImuEarly.traj tr').
Proof.
  intros Hs Hk. unfold ImuEarly.FindNextImu in *.
  pose proof (FindNextImu_range (ImuEarly.buf tr) t0) as Hrange.
  unfold ImuEarly.Predict, ImuEarly.FindNextImu.
  set (k := FindNextImu (ImuEarly.buf tr) t0) in *.
  destruct (Z.ltb_spec k 0) as [Hneg|_]; [lia|].
  rewrite Hs.
  assert (Hinit : predicted_early tr dt T0 (T0 :: rest) 1 (T0 :: rest)).
  { unfold predicted_early. split; [reflexivity|]. split; [reflexivity|].
    split; [reflexivity|]. intros j Hj. lia. }
  destruct (early_loop_predicted tr t0 dt T0 (T0 :: rest) (length rest) 1 (Z.to_nat k)
              (T0 :: rest) (le_n 1) eq_refl ltac:(lia) Hinit)
    as [ib [ps' [E [Hm [Hin Hp]]]]].
  cbn [length]. replace (S (length rest) - 1)%nat with (length rest) by lia.
  change 1%Z with (Z.of_nat 1).
  rewrite Z2Nat.id in E by lia.
  rewrite E. cbn [bind]. eexists. eexists. split; [reflexivity|].
  cbn [ImuEarly.buf ImuEarly.states ImuEarly.traj ImuEarly.T_imu_lidar ImuEarly.set_traj].
  cbn [length] in Hp.
  repeat split; try lia; try apply Hp.
Qed.

End EarlyPredict.

(** X29, witness: two poses and the samples of the window [1, 2]. *)
Lemma X29_early_Predict_witness :
  exists tr' n,
    ImuEarly.Predict
      (ImuEarly.mkImuTrajectory (Imu.buf Sample.live_traj) [Sample.id_pose; Sample.id_pose]
         [Sample.state_at 1; Sample.state_at 2] Sample.id_pose) 1 1
    = Returns (tr', n)
    /\ (1 <= n <= 2)%Z
    /\ length (ImuEarly.traj tr') = 2%nat.
Proof.
  assert (Hk : (0 <= ImuEarly.FindNextImu (Imu.buf Sample.live_traj) 1)%Z).
  { unfold ImuEarly.FindNextImu, Imu.FindNextImu, Sample.live_traj, Sample.imu_at.
    cbn [Imu.buf Imu.FindNextImu_from Imu.imu_time].
    rewrite (Rltb_false 1 0.5) by lra. rewrite (Rltb_true 1 1.25) by lra. lia. }
  destruct (X29_early_Predict_fills_the_poses
              (ImuEarly.mkImuTrajectory (Imu.buf Sample.live_traj)
                 [Sample.id_pose; Sample.id_pose]
                 [Sample.state_at 1; Sample.state_at 2] Sample.id_pose)
              1 1 Sample.id_pose [Sample.id_pose] eq_refl Hk)
    as [tr' [n [E [_ [_ [_ [Hn [_ Hp]]]]]]]].
  exists tr', n. split; [exact E|]. split; [exact Hn | apply Hp].
Defined.

(* ------------------------------------------------------------------ *)
(** * The first slice of a sweep (part_001) *)

Section FirstSlice.
Context {so3ops : SO3Ops} {scanops : Grid.ScanOps}.
Import Grid.
Open Scope Z_scope.

(** X30.  A grid as the constructor builds it, with positive cell sizes
    and a sweep of at least one row and one column, takes the first slice of a sweep: for a
    scan with the rows of the sweep whose column range starts at 0 and ends
    inside the sweep, [Add] passes [Check], [Score] and [Filter] and
    returns.  The window of the grid is then [0, end / cell_cols), the first
    count is the number of window cells with a curvature that is not NaN,
    and the poses and the number of cells are those the constructor
    made. *)
Theorem X30_first_slice_is_taken
        (sweep_size : Size) (params : GridParams) (g : SweepGrid) (scan : LidarScan)
        (gsize : Z) :
  0 < cell_cols params -> 0 < cell_rows params ->
  0 < width sweep_size -> 0 < height sweep_size ->
  SweepGrid_ctor sweep_size params = Returns g ->
  rows (xyzr scan) = height sweep_size ->
  rg_start (scan_col_rg scan) = 0 ->
  0 <= rg_end (scan_col_rg scan) <= width sweep_size ->
  exists g' n1 n2,
    Add g scan gsize = Returns (g', (n1, n2))
    /\ col_rg g' = mkRange 0 (rg_end (scan_col_rg scan) / cell_cols params)
    /\ n1 = count_cells (fun c r => negb (isnan (curve_of g scan c r)))
                        (grid_rows g) (rg_end (scan_col_rg scan) / cell_cols params)
    /\ tfs g' = tfs g
    /\ length (matches g') = length (matches g).
Proof.
  intros Hcw Hch HW _ Hctor Hrows Hstart Hend.
  unfold SweepGrid_ctor in Hctor. cbn [width height] in Hctor.
  rewrite (proj2 (Z.eqb_neq (cell_cols params) 0)) in Hctor by lia.
  rewrite (proj2 (Z.eqb_neq (cell_rows params) 0)) in Hctor by lia.
  cbn [orb Size_div width height cols rows] in Hctor.
  apply bind_Returns in Hctor. destruct Hctor as [[] [Ew Hctor]].
  apply bind_Returns in Hctor. destruct Hctor as [[] [Eh Hctor]].
  apply CHECK_Returns, Z.eqb_eq in Ew. apply CHECK_Returns, Z.eqb_eq in Eh.
  injection Hctor as Hg.
  set (ncols := Z.quot (width sweep_size) (cell_cols params)) in *.
  set (nrows := Z.quot (height sweep_size) (cell_rows params)) in *.
  assert (Hncols : 0 < ncols) by nia.
  assert (Hwg : width (cell_size g) = cell_cols params) by (subst g; reflexivity).
  assert (Hrg : Range_div (scan_col_rg scan) (width (cell_size g))
                = mkRange 0 (rg_end (scan_col_rg scan) / cell_cols params)).
  { unfold Range_div. rewrite Hwg, Hstart, Z.quot_0_l by lia.
    rewrite Z.quot_div_nonneg by lia. reflexivity. }
  assert (Hquot : rg_end (scan_col_rg scan) / cell_cols params <= ncols).
  { apply Z.div_le_upper_bound; lia. }
  assert (Hcheck : Check g scan = Returns tt).
  { apply Check_accepts. subst g. cbn [score rows cols cell_size height width col_rg rg_end].
    fold ncols nrows. repeat split; try lia.
    rewrite Hstart, Z.mul_0_l, Z.rem_0_l by lia. reflexivity. }
  destruct (Score_spec g scan gsize) as [sc [Es [Hr [Hc _]]]]; [lia|].
  set (g1 := set_score (set_col_rg g (Range_div (scan_col_rg scan) (width (cell_size g)))) sc)
    in *.
  destruct (Filter_returns g1 scan gsize) as [[g2 n2] Ef].
  - unfold g1. cbn [cell_size set_score set_col_rg]. lia.
  - reflexivity.
  - unfold window_in_grid, g1.
    cbn [col_rg score matches set_score set_col_rg]. rewrite Hrg, Hr, Hc.
    cbn [rg_start rg_end]. subst g. cbn [score rows cols matches].
    fold ncols nrows. rewrite repeat_length. repeat split; lia.
  - destruct (Filter_count g1 g2 scan gsize n2 Ef) as [ms [-> [Hlen _]]].
    eexists. eexists. exists n2. split.
    + unfold Add. rewrite Hcheck. cbn [bind]. rewrite Es. cbn [bind].
      fold g1. rewrite Ef. reflexivity.
    + unfold g1. cbn [col_rg tfs matches set_matches set_score set_col_rg].
      split; [exact Hrg|]. split; [|split; [reflexivity | exact Hlen]].
      rewrite Hrg. unfold Range_size. cbn [rg_start rg_end]. rewrite Z.sub_0_r. reflexivity.
Qed.

End FirstSlice.

Lemma sample_grid_built :
  exists g, Grid.SweepGrid_ctor (Grid.mkSize 8 1) Sample.params_2x1 = Returns g.
Proof. eexists. reflexivity. Qed.

(** X30, witness: a sweep of 8 columns in cells of 2; the slice [0, 4)
    makes the window [0, 2). *)
Lemma X30_first_slice_witness :
  exists g g' n1 n2,
    Grid.SweepGrid_ctor (Grid.mkSize 8 1) Sample.params_2x1 = Returns g
    /\ Grid.Add g (Sample.slice 0 4) 0 = Returns (g', (n1, n2))
    /\ Grid.col_rg g' = Grid.mkRange 0 2.
Proof.
  destruct sample_grid_built as [g Hg].
  destruct (X30_first_slice_is_taken (Grid.mkSize 8 1) Sample.params_2x1 g
              (Sample.slice 0 4) 0
              ltac:(simpl; lia) ltac:(simpl; lia) ltac:(simpl; lia) ltac:(simpl; lia)
              Hg eq_refl eq_refl ltac:(simpl; lia))
    as [g' [n1 [n2 [E [Hrg _]]]]].
  exists g, g', n1, n2. split; [exact Hg|]. split; [exact E | exact Hrg].
Defined.
